(** * natcap.invest: model resolution, headless dispatch and scenario archives

    A shallow embedding of [src/natcap/invest/cli.py] (the model catalogue,
    [SelectModelAction] and [main]) and of [src/natcap/invest/scenarios.py]
    ([format_dictionary], [collect_parameters], [extract_parameters_archive]),
    followed by the properties of the specification that concern them.

    Python values are an inductive type, a [dict] is an association list in
    iteration order, exceptions are a sum type, and the effects of the code
    (printing, logging, imports, calls into a model, the file system) are
    threaded explicitly through a state. *)

From Stdlib Require Import String Ascii List ZArith Lia Bool.
From stdpp Require Import base gmap strings list pretty.
Import ListNotations.
Local Open Scope string_scope.
Set Warnings "-register-all".

(** ** Python data shared by both modules *)

(** The argument values a ParameterSet can hold: scalars, strings, lists and
    string-keyed mappings (what [json] can represent). *)
Inductive value : Type :=
| VNone
| VBool (b : bool)
| VInt (z : Z)
| VStr (s : string)
| VList (items : list value)
| VDict (items : list (string * value)).

(** The exception classes that the embedded code raises or catches. *)
Inductive exn : Type :=
| ImportError | AttributeError | KeyError | TypeError | ValueError
| IOError | OSError | EOFError | AssertionError | ShutilError | NotAVector.

(** A Python [dict] with string keys, as the list of its items in iteration
    order.  [d[k]] is [dict_get], [d[k] = v] is [dict_set] (an existing key
    keeps its place, a new one goes last), [del d[k]] is [dict_del]. *)
Section Dict.
Context {A : Type}.

Fixpoint dict_get (d : list (string * A)) (k : string) : option A :=
    match d with
    | [] => None
    | (k', v) :: rest => if String.eqb k' k then Some v else dict_get rest k
    end.

Fixpoint dict_set (d : list (string * A)) (k : string) (v : A)
    : list (string * A) :=
    match d with
    | [] => [(k, v)]
    | (k', v') :: rest =>
        if String.eqb k' k then (k', v) :: rest
        else (k', v') :: dict_set rest k v
    end.

Fixpoint dict_del (d : list (string * A)) (k : string) : list (string * A) :=
    match d with
    | [] => []
    | (k', v) :: rest =>
        if String.eqb k' k then rest else (k', v) :: dict_del rest k
    end.

Definition dict_has (d : list (string * A)) (k : string) : bool :=
    match dict_get d k with Some _ => true | None => false end.

Definition dict_keys (d : list (string * A)) : list string := map fst d.
End Dict.

Definition newline : string := String (ascii_of_nat 10) EmptyString.

Definition double_quote : string := String (ascii_of_nat 34) EmptyString.

(** [sorted] on a list of [str]: insertion sort by the byte-wise
    lexicographic order. *)
Fixpoint insert_sorted (x : string) (l : list string) : list string :=
  match l with
  | [] => [x]
  | y :: rest => if String.leb x y then x :: l else y :: insert_sorted x rest
  end.

Definition sorted (l : list string) : list string :=
  fold_right insert_sorted [] l.

(** [parser.exit(status, message)] hands [status] to [sys.exit], which takes
    an integer code or any other object (printed to stderr, exit code 1). *)
Inductive exit_status : Type :=
| StatusInt (code : Z)
| StatusStr (text : string).

(** ** Stateful computations that may stop

    [comp S E A]: a computation over a state [S] that yields an [A] or stops
    with an [E] (an exception, an exit); the state reached is kept in both
    cases.  The notations [x ← c; k] and [c;; k] are stdpp's. *)
Definition comp (S E A : Type) : Type := S -> (E + A) * S.

#[global] Instance comp_ret {S E : Type} : MRet (comp S E) :=
  fun A x st => (inr x, st).

#[global] Instance comp_bind {S E : Type} : MBind (comp S E) :=
  fun A B f m st =>
    match m st with
    | (inl e, st') => (inl e, st')
    | (inr x, st') => f x st'
    end.

#[global] Instance comp_fmap {S E : Type} : FMap (comp S E) :=
  fun A B f m st =>
    match m st with
    | (inl e, st') => (inl e, st')
    | (inr x, st') => (inr (f x), st')
    end.

Definition stop_with {S E A : Type} (e : E) : comp S E A :=
  fun st => (inl e, st).

(** * cli.py *)
Module cli.

(** [_UIMETA = collections.namedtuple('UIMeta', 'pyname gui aliases')] *)
Record UIMeta : Type := _UIMETA {
  pyname : string;
  gui : option string;
  aliases : list string
}.

Definition _MODEL_UIS : list (string * UIMeta) := [
  ("carbon",
   _UIMETA "natcap.invest.carbon" (Some "carbon.Carbon") []);
  ("coastal_blue_carbon",
   _UIMETA "natcap.invest.coastal_blue_carbon.coastal_blue_carbon"
           (Some "cbc.CoastalBlueCarbon") ["cbc"]);
  ("coastal_blue_carbon_preprocessor",
   _UIMETA "natcap.invest.coastal_blue_carbon.preprocessor"
           (Some "cbc.CoastalBlueCarbonPreprocessor") ["cbc_pre"]);
  ("coastal_vulnerability",
   _UIMETA "natcap.invest.coastal_vulnerability.coastal_vulnerability"
           (Some "cv.CoastalVulnerability") ["cv"]);
  ("crop_production_percentile",
   _UIMETA "natcap.invest.crop_production_percentile"
           (Some "crop_production.CropProductionPercentile") ["cpp"]);
  ("crop_production_regression",
   _UIMETA "natcap.invest.crop_production_regression"
           (Some "crop_production.CropProductionRegression") ["cpr"]);
  ("delineateit",
   _UIMETA "natcap.invest.routing.delineateit"
           (Some "routing.Delineateit") []);
  ("finfish_aquaculture",
   _UIMETA "natcap.invest.finfish_aquaculture.finfish_aquaculture"
           (Some "finfish.FinfishAquaculture") []);
  ("fisheries",
   _UIMETA "natcap.invest.fisheries.fisheries"
           (Some "fisheries.Fisheries") []);
  ("fisheries_hst",
   _UIMETA "natcap.invest.fisheries.fisheries_hst"
           (Some "fisheries.FisheriesHST") []);
  ("forest_carbon_edge_effect",
   _UIMETA "natcap.invest.forest_carbon_edge_effect"
           (Some "forest_carbon.ForestCarbonEdgeEffect") ["fc"]);
  ("globio",
   _UIMETA "natcap.invest.globio" (Some "globio.GLOBIO") []);
  ("habitat_quality",
   _UIMETA "natcap.invest.habitat_quality"
           (Some "habitat_quality.HabitatQuality") ["hq"]);
  ("habitat_risk_assessment",
   _UIMETA "natcap.invest.habitat_risk_assessment.hra"
           (Some "hra.HabitatRiskAssessment") ["hra"]);
  ("habitat_risk_assessment_preprocessor",
   _UIMETA "natcap.invest.habitat_risk_assessment.hra_preprocessor"
           (Some "hra.HRAPreprocessor") ["hra_pre"]);
  ("hydropower_water_yield",
   _UIMETA "natcap.invest.hydropower.hydropower_water_yield"
           (Some "hydropower.HydropowerWaterYield") ["hwy"]);
  ("ndr",
   _UIMETA "natcap.invest.ndr.ndr" (Some "ndr.Nutrient") []);
  ("overlap_analysis",
   _UIMETA "natcap.invest.overlap_analysis.overlap_analysis"
           (Some "overlap_analysis.OverlapAnalysis") ["oa"]);
  ("overlap_analysis_mz",
   _UIMETA "natcap.invest.overlap_analysis.overlap_analysis_mz"
           (Some "overlap_analysis.OverlapAnalysisMZ") ["oa_mz"]);
  ("pollination",
   _UIMETA "natcap.invest.pollination" (Some "pollination.Pollination") []);
  ("recreation",
   _UIMETA "natcap.invest.recreation.recmodel_client"
           (Some "recreation.Recreation") []);
  ("routedem",
   _UIMETA "natcap.invest.routing.routedem" (Some "routing.RouteDEM") []);
  ("scenario_generator",
   _UIMETA "natcap.invest.scenario_generator.scenario_generator"
           (Some "scenario_gen.ScenarioGenerator") ["sg"]);
  ("scenario_generator_proximity",
   _UIMETA "natcap.invest.scenario_gen_proximity"
           (Some "scenario_gen.ScenarioGenProximity") ["sgp"]);
  ("scenic_quality",
   _UIMETA "natcap.invest.scenic_quality.scenic_quality"
           (Some "scenic_quality.ScenicQuality") ["sq"]);
  ("sdr",
   _UIMETA "natcap.invest.sdr" (Some "sdr.SDR") []);
  ("seasonal_water_yield",
   _UIMETA "natcap.invest.seasonal_water_yield.seasonal_water_yield"
           (Some "seasonal_water_yield.SeasonalWaterYield") ["swy"]);
  ("wind_energy",
   _UIMETA "natcap.invest.wind_energy.wind_energy"
           (Some "wind_energy.WindEnergy") []);
  ("wave_energy",
   _UIMETA "natcap.invest.wave_energy.wave_energy"
           (Some "wave_energy.WaveEnergy") []);
  ("habitat_suitability",
   _UIMETA "natcap.invest.habitat_suitability" None ["hs"])
].

(** *** Model resolution: [SelectModelAction.__call__]

    The functions of this section read the catalogue [MODEL_UIS]; the
    program's own catalogue is [_MODEL_UIS] above. *)
Section Resolution.
Variable MODEL_UIS : list (string * UIMeta).

  (** [list_models()]: [sorted(_MODEL_UIS.keys())] *)
Definition list_models : list string := sorted (dict_keys MODEL_UIS).

  (** The inner loop [for alias in meta.aliases], with its assertion. *)
Fixpoint add_aliases (modelname : string) (als : list string)
      (known_aliases : gmap string string) : exn + gmap string string :=
    match als with
    | [] => inr known_aliases
    | alias :: rest =>
        match known_aliases !! alias with
        | Some _ => inl AssertionError
        | None => add_aliases modelname rest (<[alias := modelname]> known_aliases)
        end
    end.

  (** The outer loop [for modelname, meta in _MODEL_UIS.iteritems()]. *)
Fixpoint collect_aliases (items : list (string * UIMeta))
      (known_aliases : gmap string string) : exn + gmap string string :=
    match items with
    | [] => inr known_aliases
    | (modelname, meta) :: rest =>
        match add_aliases modelname (aliases meta) known_aliases with
        | inl e => inl e
        | inr known_aliases' => collect_aliases rest known_aliases'
        end
    end.

  (** What a call of the action does: store the model name in the namespace,
      print the usage and leave ([parser.exit()]), leave through
      [parser.exit(status, message)], or raise. *)
Inductive action_result : Type :=
  | SetModel (modelname : string)
  | HelpExit
  | ParserExit (status : exit_status) (message : option string)
  | ActionRaised (e : exn).

Definition unknown_model_message (values : string) : string :=
    "Error: '" ++ values ++ "' not a known model".

Definition ambiguous_model_message (values : string)
      (matching_models : list string) : string :=
    "Model string '" ++ values ++ "' is ambiguous:" ++ newline
      ++ "    " ++ String.concat " " matching_models.

Definition SelectModelAction_call (values : option string) : action_result :=
    match values with
    | None => HelpExit
    | Some values =>
        if String.eqb values "" then HelpExit
        else
          let known_models := list_models in
          match collect_aliases MODEL_UIS ∅ with
          | inl e => ActionRaised e
          | inr known_aliases =>
              let matching_models :=
                filter (fun model => String.prefix values model = true)
                       known_models in
              let exact_matches :=
                filter (fun model => model = values) known_models in
              if Nat.eqb (length matching_models) 1 then
                match matching_models with
                | modelname :: _ => SetModel modelname
                | [] => ActionRaised KeyError
                end
              else if Nat.eqb (length exact_matches) 1 then
                match exact_matches with
                | modelname :: _ => SetModel modelname
                | [] => ActionRaised KeyError
                end
              else
                match known_aliases !! values with
                | Some modelname => SetModel modelname
                | None =>
                    if Nat.eqb (length matching_models) 0 then
                      (* the message is passed in the place of the status *)
                      ParserExit (StatusStr (unknown_model_message values)) None
                    else
                      ParserExit
                        (StatusStr
                           (ambiguous_model_message values matching_models))
                        None
                end
          end
    end.
End Resolution.


(** *** The command line after [parser.parse_args()] *)

(** [action='store_true']: the destination holds its default unless the flag
    is given, and [True] when it is. *)
Definition store_true (default given : bool) : bool :=
  if given then true else default.

(** The options as typed by the user ([-s] and [-w] have [nargs='?'] and a
    default of [None]). *)
Record CommandLine : Type := {
  flag_headless : bool;
  flag_scenario : option string;
  flag_workspace : option string;
  flag_quickrun : bool;
  flag_overwrite : bool;
  flag_no_validate : bool
}.

(** The namespace [args] that [parse_args] returns; [model] is what
    [SelectModelAction] stored. *)
Record Namespace : Type := {
  model : string;
  headless : bool;
  scenario : option string;
  workspace : option string;
  quickrun : bool;
  overwrite : bool;
  validate : bool
}.

Definition parse_options (cl : CommandLine) (modelname : string) : Namespace :=
  {| model := modelname;
     headless := store_true false (flag_headless cl);
     scenario := flag_scenario cl;
     workspace := flag_workspace cl;
     quickrun := store_true false (flag_quickrun cl);
     overwrite := store_true false (flag_overwrite cl);
     (* add_argument('-n', '--no-validate', action='store_true',
                     dest='validate', default=True) *)
     validate := store_true true (flag_no_validate cl) |}.

(** *** The logging threshold

    [--debug] stores [logging.DEBUG] into [args.log_level], whose default is
    [logging.CRITICAL]; every [-v] adds one to [args.verbosity], which starts
    at 0. *)
Definition CRITICAL : Z := 50.

Definition DEBUG : Z := 10.

(** [handler.setLevel(max(log_level, logging.DEBUG))] after
    [log_level = min(args.log_level, logging.CRITICAL - (args.verbosity*10))] *)
Definition handler_level (flag_debug : bool) (verbosity : nat) : Z :=
  let args_log_level := if flag_debug then DEBUG else CRITICAL in
  let log_level :=
    Z.min args_log_level (CRITICAL - Z.of_nat verbosity * 10) in
  Z.max log_level DEBUG.

(** *** What [main] talks to *)

(** The object [scenarios.read_parameter_set] returns: [main] reads its
    [args] and [name]. *)
Record ParameterSet : Type := {
  paramset_args : list (string * value);
  paramset_name : string
}.

(** A function of a model module, called with the arguments mapping: it
    returns a list ([validate]: the warnings; [execute]: nothing) or raises. *)
Definition callable : Type := list (string * value) -> exn + list string.

(** An imported model module: its [__name__] and the functions it defines. *)
Record ModelModule : Type := {
  module_name : string;
  module_attrs : list (string * callable)
}.

(** The two kinds of object [main] hands to [getattr]. *)
Inductive pyobj : Type :=
| PyStr (s : string)
| PyModule (m : ModelModule).

Inductive attribute : Type :=
| ModuleFunction (owner attr : string) (f : callable)
| StrMethod (method : string).

(** The attributes of a Python 2 [str] that have no underscores. *)
Definition str_attributes : list string := [
  "capitalize"; "center"; "count"; "decode"; "encode"; "endswith";
  "expandtabs"; "find"; "format"; "index"; "isalnum"; "isalpha"; "isdigit";
  "islower"; "isspace"; "istitle"; "isupper"; "join"; "ljust"; "lower";
  "lstrip"; "partition"; "replace"; "rfind"; "rindex"; "rjust"; "rpartition";
  "rsplit"; "rstrip"; "split"; "splitlines"; "startswith"; "strip";
  "swapcase"; "title"; "translate"; "upper"; "zfill"
].

Definition getattr (o : pyobj) (attr : string) : exn + attribute :=
  match o with
  | PyModule m =>
      match dict_get (module_attrs m) attr with
      | Some f => inr (ModuleFunction (module_name m) attr f)
      | None => inl AttributeError
      end
  | PyStr _ =>
      if existsb (String.eqb attr) str_attributes then inr (StrMethod attr)
      else inl AttributeError
  end.

(** The module [natcap.invest.scenarios] as [main] uses it: the one
    attribute it looks up, when the module defines it. *)
Record ScenariosModule : Type := {
  read_parameter_set : option (option string -> exn + ParameterSet)
}.

(** [scenarios.py] as it stands in the sources.  Its definitions are
    [UnsupportedFormat], [NotAVector], [DATA_ARCHIVES], [INPUT_ARCHIVES],
    [LOGGER], [log_to_file], [build_scenario], [make_random_dir],
    [make_raster_dir], [make_vector_dir], [collect_parameters],
    [extract_archive], [format_dictionary], [extract_parameters_archive]
    (and the modules it imports): there is no [read_parameter_set]. *)
Definition scenarios_py : ScenariosModule :=
  {| read_parameter_set := None |}.

(** Everything outside [cli.py] that a run of [main] depends on: the
    importable modules, [utils.prepare_workspace], the file system as the
    overwrite check sees it, the terminal, and the GUI toolkit. *)
Record Environment : Type := {
  (* import sip; sip.setapi('QString', 2); from natcap.invest.ui import inputs *)
  import_ui : option exn;
  (* from natcap.invest import scenarios *)
  import_scenarios : exn + ScenariosModule;
  (* importlib.import_module(name=...) *)
  import_module : string -> exn + ModelModule;
  (* entering utils.prepare_workspace(workspace, name=...) *)
  prepare_workspace : value -> string -> option exn;
  os_getcwd : string;
  os_path_abspath : string -> string;
  os_path_exists : string -> bool;
  os_listdir : string -> exn + list string;
  stdout_isatty : bool;
  (* the interactive branch: importing the form class, load_scenario (the
     text of the exception it raises, if any), the error flag of the run
     dialog and the exit code of the Qt event loop *)
  import_ui_class : string -> option exn;
  load_scenario : string -> option string;
  run_dialog_error : bool;
  app_exitcode : Z
}.

(** What a run leaves behind, in order. *)
Inductive event : Type :=
| Print (text : string)
| LogInfo (text : string)
| LogWarn (text : string)
| LogArgs (args : list (string * value))
| LogWarnings (model_warnings : list string)
| ImportedUI
| ImportedScenarios
| ImportedModule (name : string)
| ReadParameterSet (scenario : option string)
| EnterWorkspace (workspace : value) (name : string)
| LeaveWorkspace
| Call (owner attr : string) (args : list (string * value))
| RawInput (prompt : string)
| FormLoadScenario (scenario : string)
| FormSetWorkspace (workspace : string)
| FormRun (quickrun : bool)
| QtExec.

(** How a run ends other than by falling off the end of [main]: [return],
    [parser.exit] (a [SystemExit]), or an exception nobody catches. *)
Inductive stop : Type :=
| Returned (code : Z)
| SystemExit (status : exit_status) (message : option string)
| Uncaught (e : exn).

Record world : Type := {
  trace : list event;
  stdin : list string
}.

(** Computations of [main]: they read and extend the world and may stop. *)
Abbreviation run := (comp world stop).

Definition emit (e : event) : run unit := fun w =>
  (inr tt, {| trace := (trace w ++ [e])%list; stdin := stdin w |}).

(** [if x:] on an optional string: [None] and [''] are false. *)
Definition truthy (o : option string) : option string :=
  match o with
  | Some s => if String.eqb s "" then None else Some s
  | None => None
  end.

(** Calling what [getattr] returned with [paramset.args]. *)
Definition call (a : attribute) (args : list (string * value))
  : run (exn + list string) :=
  match a with
  | ModuleFunction owner attr f =>
      emit (Call owner attr args);; mret (f args)
  | StrMethod _ => mret (inl TypeError)
  end.

Definition raw_input (prompt : string) : run string := fun w =>
  let tr := (trace w ++ [RawInput prompt])%list in
  match stdin w with
  | [] => (inl (Uncaught EOFError), {| trace := tr; stdin := [] |})
  | line :: rest => (inr line, {| trace := tr; stdin := rest |})
  end.

(** [while user_response not in ('y', 'n'): user_response = raw_input(...)],
    by recursion on the lines left on the standard input. *)
Fixpoint ask_until_answer (user_response : string) (lines : list string)
    (tr : list event) : (stop + string) * world :=
  if String.eqb user_response "y" || String.eqb user_response "n" then
    (inr user_response, {| trace := tr; stdin := lines |})
  else
    let tr' :=
      (tr ++ [RawInput "Response must be either 'y' or 'n': "])%list in
    match lines with
    | [] => (inl (Uncaught EOFError), {| trace := tr'; stdin := [] |})
    | line :: rest => ask_until_answer line rest tr'
    end.

Definition reprompt (user_response : string) : run string := fun w =>
  ask_until_answer user_response (stdin w) (trace w).

(** [user_response in ('y', 'n')] *)
Definition is_answer (user_response : string) : bool :=
  String.eqb user_response "y" || String.eqb user_response "n".

(** *** [--list]: [format_models] and [ListModelsAction] *)

(** [max] of the lengths of a sequence; of an empty one it raises
    [ValueError]. *)
Definition max_length (lengths : list nat) : exn + nat :=
  match lengths with
  | [] => inl ValueError
  | n :: rest => inr (fold_left Nat.max rest n)
  end.

(** [s.ljust(width)] *)
Definition ljust (s : string) (width : nat) : string :=
  s ++ String.concat "" (repeat " " (width - String.length s)).

Section Listing.
Variable MODEL_UIS : list (string * UIMeta).

(** The body of the loop of [format_models]: the line of one model. *)
Definition format_model (max_model_name_length max_alias_name_length : nat)
    (model_name : string) : exn + string :=
  match dict_get MODEL_UIS model_name with
  | None => inl KeyError
  | Some meta =>
      let usage_string :=
        match gui meta with
        | Some _ => ""
        | None => "(No GUI available)"
        end in
      let alias_string := String.concat ", " (aliases meta) in
      let alias_string :=
        if String.eqb alias_string "" then alias_string
        else "(" ++ alias_string ++ ")" in
      inr ("    " ++ ljust model_name max_model_name_length
             ++ " " ++ ljust alias_string max_alias_name_length
             ++ "   " ++ usage_string)
  end.

Fixpoint format_lines (max_model_name_length max_alias_name_length : nat)
    (model_names strings : list string) : exn + list string :=
  match model_names with
  | [] => inr strings
  | model_name :: rest =>
      match format_model max_model_name_length max_alias_name_length
                         model_name with
      | inl e => inl e
      | inr line =>
          format_lines max_model_name_length max_alias_name_length rest
                       (strings ++ [line])%list
      end
  end.

(** [format_models()] *)
Definition format_models : run (list string) :=
  emit (Print "Available models:");;
  let model_names := list_models MODEL_UIS in
  match max_length (map String.length model_names) with
  | inl e => stop_with (Uncaught e)
  | inr max_model_name_length =>
  match max_length
          (map (fun item =>
                  String.length (String.concat ", " (aliases (snd item))))
               MODEL_UIS) with
  | inl e => stop_with (Uncaught e)
  | inr max_alias_name_length =>
  match format_lines max_model_name_length max_alias_name_length
                     (list_models MODEL_UIS) [] with
  | inl e => stop_with (Uncaught e)
  | inr strings => mret strings
  end end end.

(** [ListModelsAction.__call__]: the namespace attribute is set, then
    [parser.exit(message=...)] leaves with status 0. *)
Definition ListModelsAction_call : run unit :=
  strings ← format_models;
  stop_with (SystemExit (StatusInt 0)
               (Some (String.concat newline strings ++ newline))).
End Listing.

Definition with_prepare_workspace {A : Type} (env : Environment)
    (ws : value) (name : string) (body : run A) : run A := fun w =>
  match prepare_workspace env ws name with
  | Some e => (inl (Uncaught e), w)
  | None =>
      let '(r, w') :=
        body {| trace := (trace w ++ [EnterWorkspace ws name])%list;
                stdin := stdin w |} in
      (r, {| trace := (trace w' ++ [LeaveWorkspace])%list;
             stdin := stdin w' |})
  end.

Definition ui_not_installed : string :=
  "Error: ui not installed:" ++ newline ++ "    pip install natcap.invest[ui]".

Definition workspace_not_defined : string :=
  "Workspace not defined. " ++ newline
    ++ "Use --workspace to specify or add a "
    ++ double_quote ++ "workspace_dir" ++ double_quote
    ++ " parameter to your scenario.".

Definition use_workspace_aborting : string :=
  "Use --workspace to define an alternate workspace.  Aborting.".

(** The [try: ... except AttributeError: ... finally: ...] around the
    validation call.  Note the first argument of [getattr]: [target_mod], the
    dotted name of the module (a [str]), not [model_module]. *)
Definition validation (target_mod : string) (paramset : ParameterSet)
  : run unit :=
  let no_validation :=
    emit (LogWarn (paramset_name paramset
                     ++ " does not have a defined validation function.")) in
  match getattr (PyStr target_mod) "validate" with
  | inl AttributeError => no_validation
  | inl e => stop_with (Uncaught e)
  | inr f =>
      r ← call f (paramset_args paramset);
      match r with
      | inl AttributeError => no_validation
      | inl e => stop_with (Uncaught e)
      | inr model_warnings =>
          match model_warnings with
          | [] => mret tt
          | _ => emit (LogWarnings model_warnings)
          end
      end
  end.

(** The overwrite check and prompt on [args.workspace]. *)
Definition confirm_overwrite (env : Environment) (args_workspace : string)
    (args : Namespace) : run unit :=
  if os_path_exists env args_workspace then
    match os_listdir env args_workspace with
    | inl e => stop_with (Uncaught e)
    | inr entries =>
        if (0 <? length entries)%nat && negb (overwrite args) then
          overwrite_denied ←
            (if negb (stdout_isatty env) then mret true
             else
               first ← raw_input
                 ("Workspace exists: " ++ os_path_abspath env args_workspace
                    ++ newline ++ "    Overwrite? (y/n) ");
               user_response ← reprompt first;
               mret (String.eqb user_response "n"));
          if (overwrite_denied : bool) then
            stop_with (SystemExit (StatusInt 2) (Some use_workspace_aborting))
          else
            emit (LogWarn ("Overwriting the workspace per user input "
                             ++ os_path_abspath env args_workspace))
        else mret tt
    end
  else mret tt.

Definition headless_run (env : Environment) (args : Namespace) : run unit :=
  match import_scenarios env with
  | inl e => stop_with (Uncaught e)
  | inr scenarios =>
  emit ImportedScenarios;;
  match dict_get _MODEL_UIS (model args) with
  | None => stop_with (Uncaught KeyError)
  | Some meta =>
  let target_mod := pyname meta in
  match import_module env target_mod with
  | inl e => stop_with (Uncaught e)
  | inr model_module =>
  emit (ImportedModule target_mod);;
  emit (LogInfo ("imported target " ++ module_name model_module));;
  match read_parameter_set scenarios with
  | None => stop_with (Uncaught AttributeError)
  | Some read_parameter_set =>
  emit (ReadParameterSet (scenario args));;
  match read_parameter_set (scenario args) with
  | inl e => stop_with (Uncaught e)
  | inr paramset =>
  (* prefer CLI option for workspace dir, but use paramset workspace if
     the CLI options do not define a workspace. *)
  resolved ←
    match truthy (workspace args) with
    | Some w =>
        let ws := os_path_abspath env w in
        mret (VStr ws,
              {| paramset_args :=
                   dict_set (paramset_args paramset) "workspace_dir" (VStr ws);
                 paramset_name := paramset_name paramset |})
    | None =>
        match dict_get (paramset_args paramset) "workspace_dir" with
        | Some ws => mret (ws, paramset)
        | None =>
            stop_with (SystemExit (StatusInt 3) (Some workspace_not_defined))
        end
    end;
  let '(ws, paramset) := resolved in
  with_prepare_workspace env ws (paramset_name paramset) (
    emit (LogArgs (paramset_args paramset));;
    (if negb (validate args) then
       emit (LogInfo "Skipping validation by user request")
     else validation target_mod paramset);;
    (* if not args.workspace: args.workspace = os.getcwd() *)
    let args_workspace :=
      match truthy (workspace args) with
      | Some w => w
      | None => os_getcwd env
      end in
    confirm_overwrite env args_workspace args;;
    let final_args :=
      if dict_has (paramset_args paramset) "workspace_dir"
      then paramset_args paramset
      else dict_set (paramset_args paramset) "workspace_dir"
                    (VStr args_workspace) in
    match getattr (PyModule model_module) "execute" with
    | inl e => stop_with (Uncaught e)
    | inr f =>
        r ← call f final_args;
        match r with
        | inl e => stop_with (Uncaught e)
        | inr _ => mret tt
        end
    end)
  end end end end end.

Definition interactive_run (env : Environment) (args : Namespace) : run unit :=
  match dict_get _MODEL_UIS (model args) with
  | None => stop_with (Uncaught KeyError)
  | Some meta =>
  match gui meta with
  | None => stop_with (Uncaught AttributeError)   (* None.split('.') *)
  | Some gui_class =>
  match import_ui_class env gui_class with
  | Some e => stop_with (Uncaught e)
  | None =>
  match truthy (scenario args) with
  | Some s =>
      emit (FormLoadScenario s);;
      match load_scenario env s with
      | Some error =>
          (* parser.exit('Could not load scenario: %s\n', error): the
             exception is the [message]; [sys.stderr.write] of an object
             that is no string raises [TypeError] before [sys.exit]. *)
          stop_with (Uncaught TypeError)
      | None => mret tt
      end
  | None => mret tt
  end;;
  match truthy (workspace args) with
  | Some w => emit (FormSetWorkspace w)
  | None => mret tt
  end;;
  emit (FormRun (quickrun args));;
  emit QtExec;;
  if run_dialog_error env then
    stop_with (SystemExit (StatusInt 1)
                 (Some ("Model " ++ model args ++ ": run failed" ++ newline)))
  else if negb (app_exitcode env =? 0)%Z then
    stop_with (SystemExit (StatusInt (app_exitcode env))
                 (Some ("App terminated with exit code "
                          ++ pretty (app_exitcode env) ++ newline)))
  else mret tt
  end end end.

(** [main()], from the namespace that [parse_args] returned on. *)
Definition main (env : Environment) (args : Namespace) : run unit :=
  match import_ui env with
  | Some ImportError => emit (Print ui_not_installed);; stop_with (Returned 3)
  | Some e => stop_with (Uncaught e)
  | None =>
      emit ImportedUI;;
      if headless args then headless_run env args
      else interactive_run env args
  end.

(** A run from an empty trace, with [lines] waiting on the standard input. *)
Definition run_main (env : Environment) (args : Namespace)
    (lines : list string) : (stop + unit) * world :=
  main env args {| trace := []; stdin := lines |}.

End cli.

(** * The operating system underneath scenarios.py *)

(** ** [os.path] on POSIX *)
Module posixpath.

Definition isabs (s : string) : bool := String.prefix "/" s.

Fixpoint endswith_sep (s : string) : bool :=
  match s with
  | EmptyString => false
  | String c EmptyString => Ascii.eqb c "/"
  | String _ rest => endswith_sep rest
  end.

(** [os.path.join(a, b)] *)
Definition join (a b : string) : string :=
  if isabs b then b
  else if String.eqb a "" || endswith_sep a then a ++ b
  else a ++ "/" ++ b.

(** [s.split('/')] *)
Fixpoint split (s : string) : list string :=
  match s with
  | EmptyString => [EmptyString]
  | String c rest =>
      if Ascii.eqb c "/" then EmptyString :: split rest
      else match split rest with
           | part :: parts => String c part :: parts
           | [] => [String c EmptyString]
           end
  end.

(** [os.path.basename(p)]: what follows the last slash. *)
Definition basename (p : string) : string := List.last (split p) "".

(** [os.path.dirname(p)]: what precedes the last slash, without trailing
    slashes unless it consists of slashes only. *)
Fixpoint rstrip_sep (parts : list string) : list string :=
  match parts with
  | [] => []
  | part :: rest =>
      match rstrip_sep rest with
      | [] => if String.eqb part "" then [] else [part]
      | rest' => part :: rest'
      end
  end.

Definition dirname (p : string) : string :=
  let head := removelast (split p) in
  match rstrip_sep head with
  | [] => String.concat "/" (head ++ [""])%list
  | stripped => String.concat "/" stripped
  end.

(** The loop of [normpath] over the components; [new_comps] is kept with its
    last element first. *)
Fixpoint normalize (initial_slashes : nat) (comps new_comps : list string)
  : list string :=
  match comps with
  | [] => rev new_comps
  | comp :: rest =>
      if String.eqb comp "" || String.eqb comp "." then
        normalize initial_slashes rest new_comps
      else if negb (String.eqb comp "..") then
        normalize initial_slashes rest (comp :: new_comps)
      else
        match new_comps with
        | [] =>
            if Nat.eqb initial_slashes 0
            then normalize initial_slashes rest [comp]
            else normalize initial_slashes rest []
        | top :: below =>
            if String.eqb top ".."
            then normalize initial_slashes rest (comp :: new_comps)
            else normalize initial_slashes rest below
        end
  end.

Definition normpath (path : string) : string :=
  if String.eqb path "" then "."
  else
    let initial_slashes :=
      if String.prefix "/" path then
        if String.prefix "//" path && negb (String.prefix "///" path)
        then 2%nat else 1%nat
      else 0%nat in
    let joined := String.concat "/" (normalize initial_slashes (split path) []) in
    let path' :=
      match initial_slashes with
      | 0%nat => joined
      | 1%nat => "/" ++ joined
      | _ => "//" ++ joined
      end in
    if String.eqb path' "" then "." else path'.

(** [os.path.abspath(path)] in the working directory [cwd]. *)
Definition abspath (cwd path : string) : string :=
  normpath (if isabs path then path else join cwd path).

End posixpath.

(** ** Files, directories and archives *)

(** What a path can name.  The content of a regular file is its bytes; a
    JSON text is kept as the value it encodes ([json.load] of what
    [json.dumps] wrote gives that value back), and a gzipped tarball as the
    list of its members by relative name. *)
Inductive node : Type :=
| Dir
| File (c : content)
with content : Type :=
| Bytes (data : string)
| Json (document : value)
| TarGz (members : list (string * node)).

(** The calls that changed the file system, as they succeed. *)
Inductive fs_event : Type :=
| Mkdir (path : string)
| Copyfile (src dst : string)
| Copytree (src dst : string)
| CreateCopy (filepath new_path : string)
| CopyDataSource (filepath new_path : string)
| Wrote (path : string) (c : content)
| MadeArchive (path root_dir : string)
| Extracted (archive path : string).

(** GDAL and OGR, seen from outside: whether [gdal.Open] and [ogr.Open]
    return a dataset (and the name of the OGR driver), and what the copies
    made through a driver do to the file system. *)
Record GIS : Type := {
  gdal_Open : gmap string node -> string -> bool;
  ogr_Open : gmap string node -> string -> option string;
  (* gdal.Open(filepath).GetDriver().CreateCopy(new_path, new_path) *)
  driver_CreateCopy :
    gmap string node -> string -> string -> exn + gmap string node;
  (* driver.CopyDataSource(ogr.Open(filepath), new_path), SyncToDisk() *)
  driver_CopyDataSource :
    gmap string node -> string -> string -> exn + gmap string node
}.

(** The fixed surroundings of a call: working directory, temporary
    directory, the six characters [random] draws after [random.seed(s)],
    and the GIS libraries. *)
Record OS : Type := {
  getcwd : string;
  gettempdir : string;
  random_name : string -> string;
  gis : GIS
}.

(** The file system is a finite map from canonical absolute paths to nodes.
    There are no symbolic links: a path that the system resolves names the
    node stored under its [abspath].  (A path that begins with exactly two
    slashes, whose meaning POSIX leaves to the system and which [normpath]
    keeps for that reason, is resolved from a root of its own.)
    [temp_count] numbers the names [tempfile] tries next. *)
Record state : Type := {
  fs : gmap string node;
  temp_count : nat;
  log : list fs_event
}.

Abbreviation io := (comp state exn).

Section Primitives.
Variable os : OS.

Definition abspath (path : string) : string :=
  posixpath.abspath (getcwd os) path.

(** Path resolution.  The system walks a path component by component:
    every directory it goes through has to exist, whatever [normpath] makes
    of the text afterwards.  [parent_prefixes path] lists the prefixes of
    [path] that end with a slash and are followed by a further component:
    the directories searched on the way to the last one. *)
Fixpoint only_seps (s : string) : bool :=
  match s with
  | EmptyString => true
  | String c rest => Ascii.eqb c "/" && only_seps rest
  end.

Fixpoint parent_prefixes (path : string) : list string :=
  match path with
  | EmptyString => []
  | String c rest =>
      let longer := map (String c) (parent_prefixes rest) in
      if Ascii.eqb c "/" && negb (only_seps rest) then "/" :: longer
      else longer
  end.

Definition is_dir_at (files : gmap string node) (p : string) : bool :=
  match files !! p with Some Dir => true | _ => false end.

(** The empty path names nothing; any other path can be searched when the
    directories on its way exist. *)
Definition searchable (files : gmap string node) (path : string) : bool :=
  negb (String.eqb path "")
  && forallb (fun d => is_dir_at files (abspath d)) (parent_prefixes path).

(** What [path] names: the node under [abspath path] when the path can be
    searched; a path that ends with a slash names directories only. *)
Definition lookup_path (files : gmap string node) (path : string)
  : option node :=
  if searchable files path then
    match files !! abspath path with
    | Some (File c) =>
        if posixpath.endswith_sep path then None else Some (File c)
    | found => found
    end
  else None.

Definition exists_ (files : gmap string node) (path : string) : bool :=
  match lookup_path files path with Some _ => true | None => false end.

Definition isfile (files : gmap string node) (path : string) : bool :=
  match lookup_path files path with Some (File _) => true | _ => false end.

Definition isdir (files : gmap string node) (path : string) : bool :=
  match lookup_path files path with Some Dir => true | _ => false end.

Definition record (e : fs_event) (files : gmap string node) (st : state)
  : state :=
  {| fs := files; temp_count := temp_count st; log := (log st ++ [e])%list |}.

(** The proper ancestors of a canonical path, nearest last. *)
Fixpoint ancestors_from (fuel : nat) (path : string) : list string :=
  match fuel with
  | O => []
  | S fuel' =>
      let parent := posixpath.dirname path in
      if String.eqb parent path || String.eqb parent "" then []
      else (ancestors_from fuel' parent ++ [parent])%list
  end.

Definition ancestors (path : string) : list string :=
  ancestors_from (String.length path) path.

(** Create the missing directories among [dirs]; [None] when one of them
    is a regular file. *)
Fixpoint make_missing (dirs : list string) (files : gmap string node)
  : option (gmap string node) :=
  match dirs with
  | [] => Some files
  | d :: rest =>
      match files !! d with
      | Some Dir => make_missing rest files
      | Some (File _) => None
      | None => make_missing rest (<[d := Dir]> files)
      end
  end.

(** [os.makedirs(path)]: the directories on the way are made where they
    are missing; the leaf must not exist.  A call that fails is taken to
    leave the file system as it was, here and below. *)
Definition makedirs (path : string) : io unit := fun st =>
  let target := abspath path in
  if String.eqb path "" then (inl OSError, st)
  else
    match make_missing (map abspath (parent_prefixes path)) (fs st) with
    | None => (inl OSError, st)
    | Some files =>
        match files !! target with
        | Some _ => (inl OSError, st)
        | None =>
            (inr tt, record (Mkdir target) (<[target := Dir]> files) st)
        end
    end.

(** [os.mkdir(path)]: the path must be searchable, and the parent a
    directory. *)
Definition mkdir (path : string) : io unit := fun st =>
  let target := abspath path in
  if searchable (fs st) path then
    match fs st !! target, fs st !! posixpath.dirname target with
    | None, Some Dir =>
        (inr tt, record (Mkdir target) (<[target := Dir]> (fs st)) st)
    | _, _ => (inl OSError, st)
    end
  else (inl OSError, st).

(** [tempfile.mkdtemp(prefix=..., dir=...)]: [os.mkdir] is tried on one
    name after the other until one is free, at most [TMP_MAX] of them (the
    bound of the platform; 100 here). *)
Definition TMP_MAX : nat := 100.

Fixpoint mkdtemp_loop (tries : nat) (prefix dir : string) : io string :=
  fun st =>
  match tries with
  | O => (inl IOError, st)
  | S tries' =>
      let file := posixpath.join dir (prefix ++ pretty (temp_count st)) in
      let st' := {| fs := fs st; temp_count := S (temp_count st);
                    log := log st |} in
      if searchable (fs st) file then
        match fs st !! abspath file,
              fs st !! posixpath.dirname (abspath file) with
        | None, Some Dir =>
            (inr file,
             record (Mkdir (abspath file)) (<[abspath file := Dir]> (fs st))
                    st')
        | None, _ => (inl OSError, st)
        | Some _, _ => mkdtemp_loop tries' prefix dir st'
        end
      else (inl OSError, st)
  end.

Definition mkdtemp (prefix : string) (dir : option string) : io string :=
  mkdtemp_loop TMP_MAX prefix
    (match dir with Some d => d | None => gettempdir os end).

(** [shutil.copyfile(src, dst)]: [shutil.Error] when both name the same
    file; then [open(src, 'rb')] and [open(dst, 'wb')]. *)
Definition copyfile (src dst : string) : io unit := fun st =>
  let s := abspath src in
  let d := abspath dst in
  match lookup_path (fs st) src with
  | Some (File c) =>
      if String.eqb s d && exists_ (fs st) dst then (inl ShutilError, st)
      else if searchable (fs st) dst && negb (posixpath.endswith_sep dst) then
        match fs st !! d, fs st !! posixpath.dirname d with
        | Some Dir, _ => (inl IOError, st)
        | _, Some Dir =>
            (inr tt, record (Copyfile s d) (<[d := File c]> (fs st)) st)
        | _, _ => (inl IOError, st)
        end
      else (inl IOError, st)
  | _ => (inl IOError, st)
  end.

(** The prefix shared by everything below the directory [d]. *)
Definition below (d : string) : string :=
  if String.eqb d "/" then "/" else d ++ "/".

Definition drop_prefix (prefix path : string) : string :=
  String.substring (String.length prefix)
                   (String.length path - String.length prefix) path.

(** The tree below a directory: its entries by relative name. *)
Definition subtree (files : gmap string node) (d : string)
  : list (string * node) :=
  omap (fun '(path, n) =>
          if String.prefix (below d) path && negb (String.eqb path d)
          then Some (drop_prefix (below d) path, n) else None)
       (map_to_list files).

(** Write the entries of a tree below [d], parents first as they come;
    [None] when an entry would replace a node of the other kind. *)
Fixpoint graft (entries : list (string * node)) (d : string)
    (files : gmap string node) : option (gmap string node) :=
  match entries with
  | [] => Some files
  | (rel, n) :: rest =>
      let target := below d ++ rel in
      match files !! target, n with
      | Some Dir, File _ | Some (File _), Dir => None
      | _, _ =>
          match make_missing (ancestors target) files with
          | None => None
          | Some files' => graft rest d (<[target := n]> files')
          end
      end
  end.

(** [shutil.copytree(src, dst)]: [os.listdir(src)], [os.makedirs(dst)],
    then the copies, whose failures are raised together as
    [shutil.Error]. *)
Definition copytree (src dst : string) : io unit := fun st =>
  let s := abspath src in
  let d := abspath dst in
  match lookup_path (fs st) src with
  | Some Dir =>
      if String.eqb dst "" then (inl OSError, st)
      else
        match make_missing (map abspath (parent_prefixes dst)) (fs st) with
        | None => (inl OSError, st)
        | Some files =>
            match files !! d with
            | Some _ => (inl OSError, st)
            | None =>
                match graft (subtree (fs st) s) d (<[d := Dir]> files) with
                | None => (inl ShutilError, st)
                | Some files' => (inr tt, record (Copytree s d) files' st)
                end
            end
        end
  | _ => (inl OSError, st)
  end.

(** [open(path, 'w')] followed by writing [c] and closing. *)
Definition write_file (path : string) (c : content) : io unit := fun st =>
  let target := abspath path in
  if searchable (fs st) path && negb (posixpath.endswith_sep path) then
    match fs st !! target, fs st !! posixpath.dirname target with
    | Some Dir, _ => (inl IOError, st)
    | _, Some Dir =>
        (inr tt, record (Wrote target c) (<[target := File c]> (fs st)) st)
    | _, _ => (inl IOError, st)
    end
  else (inl IOError, st).

(** [shutil.make_archive(base_name, 'gztar', root_dir=root_dir)]: the
    archive is [os.path.abspath(base_name) + '.tar.gz'] and holds the tree
    below [root_dir], which [os.chdir] enters. *)
Definition make_archive (base_name root_dir : string) : io string := fun st =>
  let target := abspath base_name ++ ".tar.gz" in
  let root := abspath root_dir in
  match lookup_path (fs st) root_dir, fs st !! target with
  | Some Dir, Some Dir => (inl IOError, st)
  | Some Dir, _ =>
      match make_missing (ancestors target) (fs st) with
      | None => (inl OSError, st)
      | Some files =>
          (inr target,
           record (MadeArchive target root)
                  (<[target := File (TarGz (subtree (fs st) root))]> files) st)
      end
  | _, _ => (inl OSError, st)
  end.

(** [tarfile.open(archive_uri)], [extractall(workspace_dir)], [close()] *)
Definition extract_archive (workspace_dir archive_uri : string) : io unit :=
  fun st =>
  let d := abspath workspace_dir in
  match lookup_path (fs st) archive_uri with
  | Some (File (TarGz members)) =>
      match make_missing (ancestors d ++ [d])%list (fs st) with
      | None => (inl OSError, st)
      | Some files =>
          match graft members d files with
          | None => (inl IOError, st)
          | Some files' =>
              (inr tt, record (Extracted (abspath archive_uri) d) files' st)
          end
      end
  | Some (File _) => (inl ValueError, st)     (* tarfile.ReadError *)
  | _ => (inl IOError, st)
  end.

(** [json.load(open(path))] *)
Definition json_load (path : string) : io value := fun st =>
  match lookup_path (fs st) path with
  | Some (File (Json v)) => (inr v, st)
  | Some (File _) => (inl ValueError, st)
  | _ => (inl IOError, st)
  end.

End Primitives.

(** * cli.py on the file system: [write_console_files] *)

(** A file object: the name it was opened under and its mode. *)
Inductive open_mode : Type := ReadMode | WriteMode.

Record file_object : Type := {
  file_name : string;
  file_mode : open_mode
}.

Section ConsoleFiles.
Variable os : OS.

(** [template % mapping] on a [str]: the text, or the exception the
    conversion raises. *)
Variable percent : string -> list (string * string) -> exn + string.

(** [open(name)]: the mode defaults to ['r'], for which the file must
    exist. *)
Definition open_ (name : string) : io file_object := fun st =>
  match lookup_path os (fs st) name with
  | Some (File _) => (inr {| file_name := name; file_mode := ReadMode |}, st)
  | _ => (inl IOError, st)
  end.

(** [f.write(text)]: a file that is not open for writing raises
    [IOError]. *)
Definition file_write (f : file_object) (text : string) : io unit :=
  match file_mode f with
  | ReadMode => stop_with IOError
  | WriteMode => write_file os (file_name f) (Bytes text)
  end.

(** The loop [for model_name in list_models()]. *)
Fixpoint console_files (content_template filename_template extension : string)
    (models : list string) : io unit :=
  match models with
  | [] => mret tt
  | model_name :: rest =>
      match percent filename_template
                    [("modelname", model_name); ("ext", extension)] with
      | inl e => stop_with e
      | inr console_filepath =>
          console_file ← open_ console_filepath;
          match percent content_template [("model", model_name)] with
          | inl e => stop_with e
          | inr text =>
              file_write console_file text;;
              (* console_file.close() *)
              console_files content_template filename_template extension rest
          end
      end
  end.

Definition write_console_files (out_dir extension : string) : io unit :=
  let content_template := "invest %(model)s" ++ newline in
  let filename_template :=
    posixpath.join out_dir "invest_%(modelname)s_.%(ext)s" in
  console_files content_template filename_template extension
                (cli.list_models cli._MODEL_UIS).
End ConsoleFiles.

(** * scenarios.py *)
Module scenarios.

(** *** [format_dictionary(input_dict, types_lookup)]

    [types_lookup] maps [str] and [unicode] to one function in both callers;
    that function is [handler].  [types] is the lookup [types[v.__class__]]
    followed by the call: it raises [KeyError] for a class that is not in
    the table, and every caller catches [KeyError] and keeps the value. *)
Section FormatDictionary.
Context {S : Type}.
Variable handler : string -> comp S exn string.

Definition or_verbatim (c : comp S exn value) (v : value) : comp S exn value :=
  fun st =>
    match c st with
    | (inl KeyError, st') => (inr v, st')
    | r => r
    end.

Section Loops.
Variable types : value -> comp S exn value.

Fixpoint format_dict (parameter new_dict : list (string * value))
  : comp S exn (list (string * value)) :=
  match parameter with
  | [] => mret new_dict
  | (key, v) :: rest =>
      x ← or_verbatim (types v) v;
      format_dict rest (dict_set new_dict key x)
  end.

Fixpoint format_list (parameter new_list : list value)
  : comp S exn (list value) :=
  match parameter with
  | [] => mret new_list
  | item :: rest =>
      x ← or_verbatim (types item) item;
      format_list rest (new_list ++ [x])%list
  end.
End Loops.

Fixpoint types (v : value) : comp S exn value :=
  match v with
  | VDict parameter => VDict <$> format_dict types parameter []
  | VList parameter => VList <$> format_list types parameter []
  | VStr s => VStr <$> handler s
  | _ => stop_with KeyError
  end.

Definition format_dictionary (input_dict : list (string * value))
  : comp S exn (list (string * value)) :=
  format_dict types input_dict [].
End FormatDictionary.

(** *** [collect_parameters(parameters, archive_uri)] *)
Section Scenarios.
Variable os : OS.

(** Reading the file system, and letting a GIS driver write to it. *)
Definition probe {A : Type} (f : gmap string node -> A) : io A :=
  fun st => (inr (f (fs st)), st).

Definition driver_call (f : gmap string node -> exn + gmap string node)
    (e : fs_event) : io unit := fun st =>
  match f (fs st) with
  | inl err => (inl err, st)
  | inr files => (inr tt, record e files st)
  end.

Definition make_random_dir (workspace seed_string prefix : string)
    (make_dir : bool) : io string :=
  let new_dirname := prefix ++ random_name os seed_string in
  let raster_dir := posixpath.join workspace new_dirname in
  (if make_dir then mkdir os raster_dir else mret tt);;
  mret raster_dir.

(** The state of one call: the file system and the closure variable
    [files_found], which starts empty in every call. *)
Record collecting : Type := {
  files_found : gmap string string;
  outside : state
}.

Section Closure.
Variables temp_workspace data_dir : string.

Definition get_multi_part_gdal (filepath : string) : io string :=
  dataset ← probe (fun files => gdal_Open (gis os) files filepath);
  if dataset : bool then
    new_path ← mkdtemp os "raster_" (Some data_dir);
    driver_call (fun files => driver_CreateCopy (gis os) files filepath new_path)
                (CreateCopy filepath new_path);;
    mret new_path
  else stop_with AttributeError.

Definition get_multi_part_ogr (filepath : string) : io string :=
  vector ← probe (fun files => ogr_Open (gis os) files filepath);
  match vector with
  | Some _ =>
      new_path ← mkdtemp os "vector_" (Some data_dir);
      driver_call
        (fun files => driver_CopyDataSource (gis os) files filepath new_path)
        (CopyDataSource filepath new_path);;
      mret new_path
  | None => stop_with AttributeError
  end.

(** [try: return get_multi_part_ogr(filepath)] with [except NotAVector: pass] *)
Definition unless_NotAVector (c : io string) : io (option string) := fun st =>
  match c st with
  | (inl NotAVector, st') => (inr None, st')
  | (inl e, st') => (inl e, st')
  | (inr new_path, st') => (inr (Some new_path), st')
  end.

Definition get_multi_part (filepath : string) : io (option string) :=
  raster_obj ← probe (fun files => gdal_Open (gis os) files filepath);
  if raster_obj : bool then Some <$> get_multi_part_gdal filepath
  else
    vector_obj ← probe (fun files => ogr_Open (gis os) files filepath);
    match vector_obj with
    | Some driver_name =>
        if negb (String.eqb driver_name "CSV")
        then unless_NotAVector (get_multi_part_ogr filepath)
        else mret None
    | None => mret None
    end.

(** The body of the [try] in [get_if_file]: the value [return_path] has
    when the body completes. *)
Definition stage (parameter : string) : io (option string) :=
  multi_part_folder ← get_multi_part parameter;
  match multi_part_folder with
  | Some folder => mret (Some folder)
  | None =>
      is_file ← probe (fun files => isfile os files parameter);
      if is_file : bool then
        let new_filename := posixpath.basename parameter in
        copyfile os parameter (posixpath.join temp_workspace new_filename);;
        mret (Some new_filename)
      else
        is_dir ← probe (fun files => isdir os files parameter);
        if is_dir : bool then
          let folder_name := posixpath.basename parameter in
          new_foldername ←
            make_random_dir temp_workspace folder_name "data_" false;
          copytree os parameter new_foldername;;
          mret (Some new_foldername)
        else mret None
  end.

Definition get_if_file (parameter : string) : comp collecting exn string :=
  fun c =>
  match files_found c !! abspath os parameter with
  | Some uri => (inr uri, c)
  | None =>
      let '(r, st') := stage parameter (outside c) in
      let unchanged := {| files_found := files_found c; outside := st' |} in
      match r with
      | inr (Some return_path) =>
          (inr return_path,
           {| files_found :=
                <[abspath os parameter := return_path]> (files_found c);
              outside := st' |})
      | inr None | inl TypeError => (inr parameter, unchanged)
      | inl e => (inl e, unchanged)
      end
  end.
End Closure.

(** Running the walk with its own [files_found]. *)
Definition with_files_found {A : Type} (found : gmap string string)
    (c : comp collecting exn A) : io A := fun st =>
  let '(r, c') := c {| files_found := found; outside := st |} in
  (r, outside c').

(** The keys set aside before the walk, each with its [restore_key]. *)
Definition reserved_keys : list (string * bool) :=
  [("workspace_dir", false); ("suffix", true); ("results_suffix", true)].

Fixpoint set_aside (keys : list (string * bool))
    (parameters ignored_keys : list (string * value))
  : list (string * value) * list (string * value) :=
  match keys with
  | [] => (parameters, ignored_keys)
  | (key, restore_key) :: rest =>
      match dict_get parameters key with
      | Some v =>
          set_aside rest (dict_del parameters key)
            (if restore_key : bool then (ignored_keys ++ [(key, v)])%list
             else ignored_keys)
      | None => set_aside rest parameters ignored_keys
      end
  end.

Fixpoint restore (ignored_keys new_args : list (string * value))
  : list (string * value) :=
  match ignored_keys with
  | [] => new_args
  | (key, v) :: rest => restore rest (dict_set new_args key v)
  end.

(** [archive_uri[:-7]] when [archive_uri[-7:] == '.tar.gz'] *)
Definition strip_tar_gz (archive_uri : string) : string :=
  let n := String.length archive_uri in
  if (7 <=? n)%nat && String.eqb (String.substring (n - 7) 7 archive_uri) ".tar.gz"
  then String.substring 0 (n - 7) archive_uri
  else archive_uri.

Definition collect_parameters (parameters : list (string * value))
    (archive_uri : string) : io unit :=
  temp_workspace ← mkdtemp os "scenario_" None;
  let data_dir := posixpath.join temp_workspace "data" in
  makedirs os data_dir;;
  let '(parameters', ignored_keys) := set_aside reserved_keys parameters [] in
  new_args ←
    with_files_found ∅
      (format_dictionary (get_if_file temp_workspace data_dir) parameters');
  let new_args := restore ignored_keys new_args in
  write_file os (posixpath.join temp_workspace "parameters.json")
             (Json (VDict new_args));;
  make_archive os (strip_tar_gz archive_uri) temp_workspace;;
  mret tt.

(** *** [extract_parameters_archive(workspace_dir, archive_uri, input_folder)] *)

Definition _get_if_uri (input_folder parameter : string) : io string :=
  let temp_file_path := posixpath.join input_folder parameter in
  found ← probe (fun files => exists_ os files temp_file_path);
  if (found : bool) && negb (Nat.eqb (String.length parameter) 0)
  then mret temp_file_path
  else mret parameter.

Definition extract_parameters_archive (workspace_dir archive_uri : string)
    (input_folder : option string) : io (list (string * value)) :=
  input_folder ←
    match input_folder with
    | Some folder => mret folder
    | None => mkdtemp os "tmp" None
    end;
  extract_archive os input_folder archive_uri;;
  arguments ← json_load os (posixpath.join input_folder "parameters.json");
  match arguments with
  | VDict arguments_dict =>
      formatted_args ← format_dictionary (_get_if_uri input_folder) arguments_dict;
      mret (dict_set formatted_args "workspace_dir" (VStr workspace_dir))
  | _ => stop_with AttributeError     (* no iteritems *)
  end.

End Scenarios.
End scenarios.

(** * Observing an archiving call *)

(** The parameters document of a call: the mapping that the last write of a
    JSON mapping wrote. *)
Fixpoint parameters_document (events : list fs_event)
  : option (list (string * value)) :=
  match events with
  | [] => None
  | e :: rest =>
      match parameters_document rest with
      | Some d => Some d
      | None =>
          match e with
          | Wrote _ (Json (VDict d)) => Some d
          | _ => None
          end
      end
  end.

(** The calls of [shutil.copyfile], as (source, destination). *)
Definition copyfile_calls (events : list fs_event) : list (string * string) :=
  omap (fun e => match e with Copyfile s d => Some (s, d) | _ => None end)
       events.

(** The calls that stage data: all but the writing of the parameters
    document, the making of the archive and extractions. *)
Definition staged_calls (events : list fs_event) : list fs_event :=
  List.filter (fun e => match e with
                        | Wrote _ _ | MadeArchive _ _ | Extracted _ _ => false
                        | _ => true
                        end) events.

(** How many times [shutil.copyfile] copied the file [src]. *)
Fixpoint copies_of (src : string) (events : list fs_event) : nat :=
  match events with
  | [] => 0
  | Copyfile s _ :: rest =>
      (if String.eqb s src then 1 else 0) + copies_of src rest
  | _ :: rest => copies_of src rest
  end.

(** A place in an argument tree: the keys and indices that lead to it. *)
Inductive step : Type :=
| Key (k : string)
| Index (i : nat).

Fixpoint get_at (v : value) (place : list step) : option value :=
  match place with
  | [] => Some v
  | Key k :: rest =>
      match v with
      | VDict d =>
          match dict_get d k with
          | Some x => get_at x rest
          | None => None
          end
      | _ => None
      end
  | Index i :: rest =>
      match v with
      | VList l =>
          match l !! i with
          | Some x => get_at x rest
          | None => None
          end
      | _ => None
      end
  end.

(** A value is well formed when no mapping in it repeats a key (as in any
    Python [dict]). *)
Fixpoint distinct (keys : list string) : bool :=
  match keys with
  | [] => true
  | k :: rest => negb (existsb (String.eqb k) rest) && distinct rest
  end.

Fixpoint well_formed (v : value) : bool :=
  match v with
  | VDict d =>
      distinct (map fst d) && forallb (fun item => well_formed (snd item)) d
  | VList l => forallb well_formed l
  | _ => true
  end.

(** [rewritten R v v']: [v'] is [v] with every string [s] replaced by a
    string [r] such that [R s r], everything else being as it was. *)
Inductive rewritten (R : string -> string -> Prop) : value -> value -> Prop :=
| rewritten_none : rewritten R VNone VNone
| rewritten_bool b : rewritten R (VBool b) (VBool b)
| rewritten_int z : rewritten R (VInt z) (VInt z)
| rewritten_str s r : R s r -> rewritten R (VStr s) (VStr r)
| rewritten_list l l' :
    Forall2 (rewritten R) l l' -> rewritten R (VList l) (VList l')
| rewritten_dict d d' :
    Forall2 (fun item item' =>
               fst item = fst item' /\ rewritten R (snd item) (snd item'))
            d d' ->
    rewritten R (VDict d) (VDict d').

(** The reserved keys of [collect_parameters]. *)
Definition reserved (k : string) : bool :=
  existsb (fun entry => String.eqb (fst entry) k) scenarios.reserved_keys.

(** A GIS library whose drivers leave every regular file a regular file. *)
Definition keeps_files (g : GIS) : Prop :=
  forall files files' filepath new_path,
    (driver_CreateCopy g files filepath new_path = inr files'
     \/ driver_CopyDataSource g files filepath new_path = inr files') ->
    forall p c, files !! p = Some (File c) ->
                exists c', files' !! p = Some (File c').

(** Neither GDAL nor OGR (other than as CSV) opens a name of the file [p]. *)
Definition not_a_dataset (os : OS) (p : string) : Prop :=
  forall files s,
    abspath os s = p ->
    gdal_Open (gis os) files s = false
    /\ (ogr_Open (gis os) files s = None
        \/ ogr_Open (gis os) files s = Some "CSV").

(** ** Predicates on states and computations *)

(** Regular files stay regular files (their content may change). *)
Definition files_kept (files files' : gmap string node) : Prop :=
  forall p c, files !! p = Some (File c) -> exists c', files' !! p = Some (File c').

(** Directories stay directories. *)
Definition dirs_kept (files files' : gmap string node) : Prop :=
  forall p, files !! p = Some Dir -> files' !! p = Some Dir.

(** From [st] to [st'] regular files are kept and [src] is not copied. *)
Definition undisturbed (src : string) (st st' : state) : Prop :=
  files_kept (fs st) (fs st')
  /\ copies_of src (log st') = copies_of src (log st).

(** A computation that, however it ends, leaves the state undisturbed. *)
Definition quiet {A : Type} (src : string) (m : io A) : Prop :=
  forall st r st', m st = (r, st') -> undisturbed src st st'.

(** A Hoare-style reading of the walk over one value [v]: from a state
    that satisfies [Inv], formatting [v] with [handler] re-establishes
    [Inv], moves the state up in [le], and replaces every string [s] by an
    [r] with [R c_end s r] in every later state [c_end]. *)
Definition walks {S : Type} (handler : string -> comp S exn string)
    (Inv : S -> Prop) (le : S -> S -> Prop)
    (R : S -> string -> string -> Prop) (v : value) : Prop :=
  well_formed v = true ->
  forall c v' c',
    Inv c ->
    scenarios.or_verbatim (scenarios.types handler v) v c = (inr v', c') ->
    Inv c' /\ le c c'
    /\ forall c_end, le c' c_end -> rewritten (R c_end) v v'.

(** The invariant of the archiving walk for a file [src] copied
    [copies_before] times before the call, whose file system was [files]
    then: no directory has gone since, [src] is a regular file, and either
    it has no entry in [files_found] and has not been copied again, or it
    has one, a relative path, and has been copied exactly once. *)
Definition stages_at_most_once (files : gmap string node) (src : string)
    (copies_before : nat) (c : scenarios.collecting) : Prop :=
  dirs_kept files (fs (scenarios.outside c))
  /\ (exists content, fs (scenarios.outside c) !! src = Some (File content))
  /\ ((scenarios.files_found c !! src = None
       /\ copies_of src (log (scenarios.outside c)) = copies_before)
      \/ (exists r, scenarios.files_found c !! src = Some r
                    /\ posixpath.isabs r = false
                    /\ copies_of src (log (scenarios.outside c))
                       = S copies_before)).

(** The entry of [src] in [files_found], once made, stays. *)
Definition finds_sooner (src : string) (c c' : scenarios.collecting) : Prop :=
  forall r, scenarios.files_found c !! src = Some r ->
            scenarios.files_found c' !! src = Some r.

(** A string that names the regular file [src] when the file system is
    [files] is replaced by the entry of [src]. *)
Definition replaces_by_found (os : OS) (files : gmap string node)
    (src : string) (c : scenarios.collecting) (s r : string) : Prop :=
  abspath os s = src -> isfile os files s = true ->
  scenarios.files_found c !! src = Some r.

(** ** Predicates on runs of [main] *)

(** An event other than a call of a model function by a name that is not
    [execute]. *)
Definition calls_only_execute (e : cli.event) : Prop :=
  match e with
  | cli.Call _ attr _ => attr = "execute"
  | _ => True
  end.

(** A computation of [main] that, however it ends, adds only such events
    to the trace. *)
Definition adds_only {A : Type} (P : cli.event -> Prop)
    (m : comp cli.world cli.stop A) : Prop :=
  forall w r w',
    m w = (r, w') ->
    exists added, cli.trace w' = (cli.trace w ++ added)%list /\ Forall P added.

(** A computation of [main] that, when it stops, stops in a way that
    satisfies [Q]. *)
Definition ends_only {A : Type} (Q : cli.stop -> Prop)
    (m : comp cli.world cli.stop A) : Prop :=
  forall w r w', m w = (r, w') ->
    match r with inl s => Q s | inr _ => True end.

Definition confined {A : Type} (P : cli.event -> Prop) (Q : cli.stop -> Prop)
    (m : comp cli.world cli.stop A) : Prop :=
  adds_only P m /\ ends_only Q m.

(** An event other than a call of a model function. *)
Definition no_call (e : cli.event) : Prop :=
  match e with cli.Call _ _ _ => False | _ => True end.

(** An event other than a call of a model function with arguments whose
    [workspace_dir] is not [ws]. *)
Definition calls_within (ws : value) (e : cli.event) : Prop :=
  match e with
  | cli.Call _ _ model_args => dict_get model_args "workspace_dir" = Some ws
  | _ => True
  end.

(** Events among which every call of a model function is handed, as its
    [workspace_dir], a workspace that [utils.prepare_workspace] has been
    entered with, and that satisfies [W]. *)
Definition runs_prepared (W : value -> Prop) (added : list cli.event) : Prop :=
  forall owner attr model_args,
    In (cli.Call owner attr model_args) added ->
    exists ws name,
      In (cli.EnterWorkspace ws name) added
      /\ dict_get model_args "workspace_dir" = Some ws
      /\ W ws.

Definition prepares {A : Type} (W : value -> Prop)
    (m : comp cli.world cli.stop A) : Prop :=
  forall w r w',
    m w = (r, w') ->
    exists added,
      cli.trace w' = (cli.trace w ++ added)%list /\ runs_prepared W added.

(** ** Values and what the walk makes of them *)

(** The strings that occur in a value, in the order of the walk. *)
Fixpoint strings_of (v : value) : list string :=
  match v with
  | VStr s => [s]
  | VList l => flat_map strings_of l
  | VDict d => flat_map (fun item => strings_of (snd item)) d
  | _ => []
  end.

(** [v] with every string [s] replaced by [f s]. *)
Fixpoint map_strings (f : string -> string) (v : value) : value :=
  match v with
  | VStr s => VStr (f s)
  | VList l => VList (map (map_strings f) l)
  | VDict d => VDict (map (fun item => (fst item, map_strings f (snd item))) d)
  | _ => v
  end.

(** [None], booleans and numbers: the values the walk has no function for. *)
Definition scalar (v : value) : bool :=
  match v with
  | VNone | VBool _ | VInt _ => true
  | _ => false
  end.

(** [types_lookup={}], the default of [format_dictionary]: no function for
    [str], so that [types[value.__class__]] raises [KeyError] for a
    string. *)
Definition no_handler {S : Type} : string -> comp S exn string :=
  fun _ => stop_with KeyError.

(** What [_get_if_uri] makes of a string when the file system is [files]. *)
Definition relocated (os : OS) (files : gmap string node)
    (input_folder parameter : string) : string :=
  if exists_ os files (posixpath.join input_folder parameter)
     && negb (Nat.eqb (String.length parameter) 0)
  then posixpath.join input_folder parameter
  else parameter.

(** ** What an archiving call leaves in place *)

(** A GIS library whose drivers leave every directory a directory. *)
Definition keeps_dirs (g : GIS) : Prop :=
  forall files files' filepath new_path,
    (driver_CreateCopy g files filepath new_path = inr files'
     \/ driver_CopyDataSource g files filepath new_path = inr files') ->
    dirs_kept files files'.

(** An event that stages nothing but what one of the [named] strings
    names. *)
Definition stages_only (os : OS) (named : string -> Prop) (e : fs_event)
  : Prop :=
  match e with
  | Copyfile src _ | Copytree src _ =>
      exists s, named s /\ src = abspath os s
  | CreateCopy filepath _ | CopyDataSource filepath _ => named filepath
  | _ => True
  end.

(** From [st] to [st'] directories stay and what is logged satisfies [P]. *)
Definition evolves (P : fs_event -> Prop) (st st' : state) : Prop :=
  dirs_kept (fs st) (fs st')
  /\ exists added, log st' = (log st ++ added)%list /\ Forall P added.

Definition evolving {A : Type} (P : fs_event -> Prop) (m : io A) : Prop :=
  forall st r st', m st = (r, st') -> evolves P st st'.

(** A computation that, however it ends, keeps every regular file. *)
Definition keeping {A : Type} (m : io A) : Prop :=
  forall st r st', m st = (r, st') -> files_kept (fs st) (fs st').

(** * Sample runs

    Concrete environments and inputs on which the embedded code is
    evaluated below. *)
Module samples.
Import cli.

(** A model module that defines both [validate] and [execute]; its
    [validate] returns one warning. *)
Definition carbon_module : ModelModule :=
  {| module_name := "natcap.invest.carbon";
     module_attrs :=
       [("validate", fun _ => inr ["carbon_pools_path: file not found"]);
        ("execute", fun _ => inr [])] |}.

Definition carbon_args : list (string * value) :=
  [("lulc_cur_path", VStr "/data/lulc.tif"); ("workspace_dir", VStr "/ws")].

Definition carbon_paramset : ParameterSet :=
  {| paramset_args := carbon_args; paramset_name := "carbon" |}.

(** A [scenarios] module that does define [read_parameter_set]: it loads
    [carbon_paramset] from ["carbon.json"] and raises [IOError] otherwise. *)
Definition scenarios_with_reader : ScenariosModule :=
  {| read_parameter_set :=
       Some (fun path =>
               match path with
               | Some "carbon.json" => inr carbon_paramset
               | _ => inl IOError
               end) |}.

(** A ParameterSet without a [workspace_dir], and a reader that loads it. *)
Definition bare_paramset : ParameterSet :=
  {| paramset_args := [("lulc_cur_path", VStr "/data/lulc.tif")];
     paramset_name := "carbon" |}.

Definition scenarios_with_bare_reader : ScenariosModule :=
  {| read_parameter_set := Some (fun _ => inr bare_paramset) |}.

(** A machine on which the UI imports, [/ws] holds a file from an earlier
    run, the working directory [/home/user/empty] is empty, and the
    standard output is not a terminal. *)
Definition machine (scenarios : ScenariosModule) : Environment :=
  {| import_ui := None;
     import_scenarios := inr scenarios;
     import_module := fun name =>
       if String.eqb name "natcap.invest.carbon" then inr carbon_module
       else inl ImportError;
     prepare_workspace := fun _ _ => None;
     os_getcwd := "/home/user/empty";
     os_path_abspath := posixpath.abspath "/home/user/empty";
     os_path_exists := fun path =>
       String.eqb path "/ws" || String.eqb path "/home/user/empty";
     os_listdir := fun path =>
       if String.eqb path "/ws" then inr ["carbon_old.tif"]
       else if String.eqb path "/home/user/empty" then inr []
       else inl OSError;
     stdout_isatty := false;
     import_ui_class := fun _ => None;
     load_scenario := fun _ => None;
     run_dialog_error := false;
     app_exitcode := 0 |}.

(** The same machine without the GUI toolkit. *)
Definition machine_without_ui : Environment :=
  let env := machine scenarios_with_reader in
  {| import_ui := Some ImportError;
     import_scenarios := import_scenarios env;
     import_module := import_module env;
     prepare_workspace := prepare_workspace env;
     os_getcwd := os_getcwd env;
     os_path_abspath := os_path_abspath env;
     os_path_exists := os_path_exists env;
     os_listdir := os_listdir env;
     stdout_isatty := stdout_isatty env;
     import_ui_class := import_ui_class env;
     load_scenario := load_scenario env;
     run_dialog_error := run_dialog_error env;
     app_exitcode := app_exitcode env |}.

(** [invest --headless -s carbon.json carbon] *)
Definition headless_carbon : CommandLine :=
  {| flag_headless := true;
     flag_scenario := Some "carbon.json";
     flag_workspace := None;
     flag_quickrun := false;
     flag_overwrite := false;
     flag_no_validate := false |}.

(** [invest --headless carbon], without [-s] *)
Definition headless_carbon_no_scenario : CommandLine :=
  {| flag_headless := true;
     flag_scenario := None;
     flag_workspace := None;
     flag_quickrun := false;
     flag_overwrite := false;
     flag_no_validate := false |}.

(** [invest --headless -s carbon.json -w /ws carbon] *)
Definition headless_carbon_in_ws : CommandLine :=
  {| flag_headless := true;
     flag_scenario := Some "carbon.json";
     flag_workspace := Some "/ws";
     flag_quickrun := false;
     flag_overwrite := false;
     flag_no_validate := false |}.

(** *** Archiving *)

(** No GDAL or OGR driver recognises anything. *)
Definition no_gis : GIS :=
  {| gdal_Open := fun _ _ => false;
     ogr_Open := fun _ _ => None;
     driver_CreateCopy := fun _ _ _ => inl TypeError;
     driver_CopyDataSource := fun _ _ _ => inl NotAVector |}.

Definition plain_os : OS :=
  {| getcwd := "/home/user";
     gettempdir := "/tmp";
     random_name := fun _ => "K3J9QZ";
     gis := no_gis |}.

(** Two tables with the same name in different directories. *)
Definition disk : state :=
  {| fs := list_to_map
             [("/", Dir); ("/tmp", Dir); ("/out", Dir); ("/home", Dir);
              ("/home/user", Dir); ("/x", Dir); ("/y", Dir);
              ("/x/f.csv", File (Bytes "crop,yield"));
              ("/y/f.csv", File (Bytes "pool,carbon"))];
     temp_count := 0;
     log := [] |}.

(** [disk] as an archiving call has it when its walk begins: the temporary
    workspace and its data folder made. *)
Definition prepared_disk : state :=
  snd (makedirs plain_os "/tmp/scenario_0/data"
         (snd (mkdtemp plain_os "scenario_" None disk))).

Definition same_basename_parameters : list (string * value) :=
  [("a", VStr "/x/f.csv"); ("b", VStr "/y/f.csv")].

Definition workspace_parameters : list (string * value) :=
  [("workspace_dir", VStr "/ws"); ("results_suffix", VStr "v2");
   ("a", VStr "/x/f.csv")].

Definition twice_referenced_parameters : list (string * value) :=
  [("a", VStr "/x/f.csv");
   ("nested", VDict [("tables", VList [VInt 1; VStr "/x/./f.csv"])]);
   ("suffix", VStr "v2")].

(** *** More runs of [main] *)

(** The machine of [machine], at a terminal. *)
Definition terminal (scenarios : ScenariosModule) : Environment :=
  let env := machine scenarios in
  {| import_ui := import_ui env;
     import_scenarios := import_scenarios env;
     import_module := import_module env;
     prepare_workspace := prepare_workspace env;
     os_getcwd := os_getcwd env;
     os_path_abspath := os_path_abspath env;
     os_path_exists := os_path_exists env;
     os_listdir := os_listdir env;
     stdout_isatty := true;
     import_ui_class := import_ui_class env;
     load_scenario := load_scenario env;
     run_dialog_error := run_dialog_error env;
     app_exitcode := app_exitcode env |}.

(** [invest --headless -s carbon.json -w /ws --overwrite carbon] *)
Definition overwriting_carbon_in_ws : CommandLine :=
  {| flag_headless := true;
     flag_scenario := Some "carbon.json";
     flag_workspace := Some "/ws";
     flag_quickrun := false;
     flag_overwrite := true;
     flag_no_validate := false |}.

(** [invest habitat_suitability] *)
Definition habitat_suitability_gui : CommandLine :=
  {| flag_headless := false;
     flag_scenario := None;
     flag_workspace := None;
     flag_quickrun := false;
     flag_overwrite := false;
     flag_no_validate := false |}.

(** *** More archiving *)

(** The disk after [twice_referenced_parameters] has been archived. *)
Definition archived_disk : state :=
  snd (scenarios.collect_parameters plain_os twice_referenced_parameters
         "/out/scenario.tar.gz" disk).

(** GDAL opens [/x/dem.tif]; its [CreateCopy], handed a path in the place
    of a dataset, raises [TypeError]. *)
Definition raster_gis : GIS :=
  {| gdal_Open := fun _ path => String.eqb path "/x/dem.tif";
     ogr_Open := fun _ _ => None;
     driver_CreateCopy := fun _ _ _ => inl TypeError;
     driver_CopyDataSource := fun _ _ _ => inl NotAVector |}.

Definition raster_os : OS :=
  {| getcwd := "/home/user";
     gettempdir := "/tmp";
     random_name := fun _ => "K3J9QZ";
     gis := raster_gis |}.

(** GDAL opens [/x/dem.tif] as before and OGR opens [/x/roads.shp] with
    its shapefile driver, whose [CopyDataSource] writes the layer into the
    folder it is given. *)
Definition datasets_gis : GIS :=
  {| gdal_Open := fun _ path => String.eqb path "/x/dem.tif";
     ogr_Open := fun _ path =>
       if String.eqb path "/x/roads.shp" then Some "ESRI Shapefile" else None;
     driver_CreateCopy := fun _ _ _ => inl TypeError;
     driver_CopyDataSource := fun files _ new_path =>
       inr (<[new_path ++ "/roads.shp" := File (Bytes "shp")]> files) |}.

Definition datasets_os : OS :=
  {| getcwd := "/home/user";
     gettempdir := "/tmp";
     random_name := fun _ => "K3J9QZ";
     gis := datasets_gis |}.

(** The disk of [disk] with a raster and a shapefile in [/x]. *)
Definition datasets_disk : state :=
  {| fs := <["/x/dem.tif" := File (Bytes "II*")]>
             (<["/x/roads.shp" := File (Bytes "shp")]> (fs disk));
     temp_count := 0;
     log := [] |}.

(** Each of the two is referenced twice. *)
Definition datasets_parameters : list (string * value) :=
  [("dem", VStr "/x/dem.tif"); ("dem_again", VStr "/x/dem.tif");
   ("roads", VStr "/x/roads.shp"); ("roads_again", VStr "/x/roads.shp")].

(** Two strings with the [abspath] of [/x/f.csv]; the first goes through
    the file itself. *)
Definition unresolved_reference_parameters : list (string * value) :=
  [("a", VStr "/x/f.csv/../f.csv"); ("b", VStr "/x/f.csv")].

(** A call under way: its temporary workspace [/tmp/scenario_0] exists,
    nothing has been staged yet, and the disk holds a raster and two
    folders called [tables]. *)
Definition staging : scenarios.collecting :=
  {| scenarios.files_found := ∅;
     scenarios.outside :=
       {| fs := list_to_map
                  [("/", Dir); ("/tmp", Dir); ("/tmp/scenario_0", Dir);
                   ("/tmp/scenario_0/data", Dir); ("/home", Dir);
                   ("/home/user", Dir); ("/a", Dir); ("/b", Dir); ("/x", Dir);
                   ("/a/tables", Dir);
                   ("/a/tables/crops.csv", File (Bytes "crop,yield"));
                   ("/b/tables", Dir);
                   ("/x/dem.tif", File (Bytes "II*"))];
          temp_count := 1;
          log := [] |} |}.

End samples.

(** * Properties of computations *)

Lemma bind_inr {S E A B : Type} (m : comp S E A) (f : A -> comp S E B)
    st y st' :
  (m ≫= f) st = (inr y, st') ->
  exists x st1, m st = (inr x, st1) /\ f x st1 = (inr y, st').
Proof.
  unfold mbind, comp_bind. destruct (m st) as [[e|x] st1]; [done|]. eauto.
Qed.

Lemma bind_cases {S E A B : Type} (m : comp S E A) (f : A -> comp S E B)
    st r st' :
  (m ≫= f) st = (r, st') ->
  (exists e, r = inl e /\ m st = (inl e, st'))
  \/ exists x st1, m st = (inr x, st1) /\ f x st1 = (r, st').
Proof.
  unfold mbind, comp_bind. destruct (m st) as [[e|x] st1].
  - intros [= <- <-]. eauto.
  - eauto.
Qed.

Lemma fmap_inr {S E A B : Type} (g : A -> B) (m : comp S E A) st y st' :
  (g <$> m) st = (inr y, st') ->
  exists x, m st = (inr x, st') /\ y = g x.
Proof.
  unfold fmap, comp_fmap. destruct (m st) as [[e|x] st1]; [done|].
  intros [= <- <-]. eauto.
Qed.

Lemma fmap_cases {S E A B : Type} (g : A -> B) (m : comp S E A) st r st' :
  (g <$> m) st = (r, st') ->
  (exists e, r = inl e /\ m st = (inl e, st'))
  \/ exists x, m st = (inr x, st') /\ r = inr (g x).
Proof.
  unfold fmap, comp_fmap. destruct (m st) as [[e|x] st1]; intros [= <- <-]; eauto.
Qed.

(** * Properties of cli.py *)
Import cli samples.

(** ** Model resolution *)

Lemma add_aliases_lookup modelname als known known' :
  add_aliases modelname als known = inr known' ->
  forall a m,
    known' !! a = Some m <->
    known !! a = Some m \/ (m = modelname /\ In a als).
Proof.
  revert known. induction als as [|alias rest IH]; intros known H a m.
  - simpl in H. injection H as <-. simpl. tauto.
  - simpl in H. destruct (known !! alias) eqn:Hfree; [discriminate|].
    rewrite (IH _ H a m). simpl.
    destruct (decide (alias = a)) as [->|Hne].
    + rewrite lookup_insert_eq. rewrite Hfree.
      split; [intros [[= ->]|[-> ?]]; auto | intros [?|[-> [?|?]]]; auto;
              discriminate].
    + rewrite lookup_insert_ne by done. tauto.
Qed.

Lemma collect_aliases_lookup items known known' :
  collect_aliases items known = inr known' ->
  forall a m,
    known' !! a = Some m <->
    known !! a = Some m \/
    exists meta, In (m, meta) items /\ In a (aliases meta).
Proof.
  revert known. induction items as [|[modelname meta] rest IH];
    intros known H a m.
  - simpl in H. injection H as <-. simpl. split; [auto|].
    intros [?|(? & [] & _)]; auto.
  - simpl in H.
    destruct (add_aliases modelname (aliases meta) known) as [e|known1] eqn:H1;
      [discriminate|].
    rewrite (IH _ H a m), (add_aliases_lookup _ _ _ _ H1 a m). simpl.
    split.
    + intros [[?|[-> ?]]|(meta' & ? & ?)]; eauto 6.
    + intros [?|(meta' & [[= -> ->]|?] & ?)]; eauto 6.
Qed.

(** The aliases of the program's catalogue pass the assertion. *)
Lemma model_aliases_distinct :
  exists known_aliases, collect_aliases _MODEL_UIS ∅ = inr known_aliases.
Proof. vm_compute. eauto. Qed.

(** The five cases of the resolution, for any catalogue whose aliases pass
    the assertion. *)
Lemma SelectModelAction_call_cases MODEL_UIS values known_aliases :
  values <> "" ->
  collect_aliases MODEL_UIS ∅ = inr known_aliases ->
  let known_models := list_models MODEL_UIS in
  let matching_models :=
    filter (fun m => String.prefix values m = true) known_models in
  let exact_matches := filter (fun m => m = values) known_models in
  let alias_of m :=
    exists meta, In (m, meta) MODEL_UIS /\ In values (aliases meta) in
  let result := SelectModelAction_call MODEL_UIS (Some values) in
  (forall m, matching_models = [m] -> result = SetModel m)
  /\ (length matching_models <> 1%nat ->
      forall m, exact_matches = [m] -> result = SetModel m)
  /\ (length matching_models <> 1%nat -> length exact_matches <> 1%nat ->
      forall m, alias_of m -> result = SetModel m)
  /\ (length matching_models <> 1%nat -> length exact_matches <> 1%nat ->
      (forall m, ~ alias_of m) ->
      (matching_models = [] ->
       result = ParserExit
                  (StatusStr ("Error: '" ++ values ++ "' not a known model"))
                  None)
      /\ (matching_models <> [] ->
          result = ParserExit
                     (StatusStr
                        ("Model string '" ++ values ++ "' is ambiguous:"
                           ++ newline ++ "    "
                           ++ String.concat " " matching_models))
                     None)).
Proof.
  intros Hne Hka known_models matching_models exact_matches alias_of result.
  assert (Hres : result =
    if Nat.eqb (length matching_models) 1 then
      match matching_models with
      | m :: _ => SetModel m | [] => ActionRaised KeyError end
    else if Nat.eqb (length exact_matches) 1 then
      match exact_matches with
      | m :: _ => SetModel m | [] => ActionRaised KeyError end
    else match known_aliases !! values with
         | Some m => SetModel m
         | None =>
             if Nat.eqb (length matching_models) 0
             then ParserExit (StatusStr (unknown_model_message values)) None
             else ParserExit
                    (StatusStr
                       (ambiguous_model_message values matching_models)) None
         end).
  { subst result. unfold SelectModelAction_call.
    destruct (String.eqb_spec values "") as [->|_]; [done|].
    rewrite Hka. reflexivity. }
  assert (Hnone : (forall m, ~ alias_of m) -> known_aliases !! values = None).
  { intros Hno. destruct (known_aliases !! values) as [m|] eqn:Hlook; [|done].
    exfalso. apply (Hno m).
    apply (collect_aliases_lookup _ _ _ Hka values m) in Hlook.
    destruct Hlook as [Hempty|?]; [|done].
    by rewrite lookup_empty in Hempty. }
  split; [|split; [|split]].
  - intros m Hm. rewrite Hres, Hm. reflexivity.
  - intros Hlen m Hm. rewrite Hres.
    apply Nat.eqb_neq in Hlen. rewrite Hlen, Hm. reflexivity.
  - intros Hlen Hex m Hm. rewrite Hres.
    apply Nat.eqb_neq in Hlen, Hex. rewrite Hlen, Hex.
    assert (known_aliases !! values = Some m) as ->; [|done].
    apply (collect_aliases_lookup _ _ _ Hka values m). right. exact Hm.
  - intros Hlen Hex Hno. rewrite Hres.
    apply Nat.eqb_neq in Hlen, Hex. rewrite Hlen, Hex, (Hnone Hno).
    split; intros Hm.
    + rewrite Hm. reflexivity.
    + destruct matching_models; [done|reflexivity].
Qed.

(** C3.  For every non-empty token, [SelectModelAction] over the program's
    catalogue selects, in this order: the one identifier that starts with
    the token; else the one identifier equal to it; else the model the token
    is an alias of; and when none applies it leaves through [parser.exit]
    with the "not a known model" text naming the token if no identifier
    starts with it, and with the "ambiguous" text listing every identifier
    that starts with it otherwise.  So ["cbc"] selects coastal_blue_carbon
    (its alias) and ["coastal_blue_carbon_preprocessor"] selects itself. *)
Theorem resolution_order (values : string) :
  values <> "" ->
  let known_models := list_models _MODEL_UIS in
  let matching_models :=
    filter (fun m => String.prefix values m = true) known_models in
  let exact_matches := filter (fun m => m = values) known_models in
  let alias_of m :=
    exists meta, In (m, meta) _MODEL_UIS /\ In values (aliases meta) in
  let result := SelectModelAction_call _MODEL_UIS (Some values) in
  (forall m, matching_models = [m] -> result = SetModel m)
  /\ (length matching_models <> 1%nat ->
      forall m, exact_matches = [m] -> result = SetModel m)
  /\ (length matching_models <> 1%nat -> length exact_matches <> 1%nat ->
      forall m, alias_of m -> result = SetModel m)
  /\ (length matching_models <> 1%nat -> length exact_matches <> 1%nat ->
      (forall m, ~ alias_of m) ->
      (matching_models = [] ->
       result = ParserExit
                  (StatusStr ("Error: '" ++ values ++ "' not a known model"))
                  None)
      /\ (matching_models <> [] ->
          result = ParserExit
                     (StatusStr
                        ("Model string '" ++ values ++ "' is ambiguous:"
                           ++ newline ++ "    "
                           ++ String.concat " " matching_models))
                     None))
  /\ SelectModelAction_call _MODEL_UIS (Some "cbc")
     = SetModel "coastal_blue_carbon"
  /\ SelectModelAction_call _MODEL_UIS (Some "coastal_blue_carbon_preprocessor")
     = SetModel "coastal_blue_carbon_preprocessor".
Proof.
  intros Hne. destruct model_aliases_distinct as [known_aliases Hka].
  pose proof (SelectModelAction_call_cases _MODEL_UIS values known_aliases
                Hne Hka) as (H1 & H2 & H3 & H4).
  repeat split; try assumption; intros; by apply H4.
Qed.

Lemma resolution_order_witness :
  "cbc" <> ""
  /\ SelectModelAction_call _MODEL_UIS (Some "cbc") = SetModel "coastal_blue_carbon".
Proof.
  split; [discriminate|].
  refine (proj1 (proj2 (proj2 (resolution_order "cbc" _))) _ _
            "coastal_blue_carbon" _).
  - discriminate.
  - vm_compute. discriminate.
  - vm_compute. discriminate.
  - exists (_UIMETA "natcap.invest.coastal_blue_carbon.coastal_blue_carbon"
                    (Some "cbc.CoastalBlueCarbon") ["cbc"]).
    split; [right; left; reflexivity | left; reflexivity].
Defined.

(** ** The dispatcher *)

(** [str] has no attribute [validate]. *)
Lemma getattr_str_validate (target_mod : string) :
  getattr (PyStr target_mod) "validate" = inl AttributeError.
Proof. reflexivity. Qed.

(** Whatever the model module defines, the validation step only logs that
    there is no validation function. *)
Lemma validation_only_warns target_mod paramset w :
  validation target_mod paramset w
  = (inr tt,
     {| trace := trace w ++
          [LogWarn (paramset_name paramset
                      ++ " does not have a defined validation function.")];
        stdin := stdin w |}).
Proof. reflexivity. Qed.

(** [--no-validate] stores [True] in a destination whose default is [True]. *)
Lemma validate_always_set cl modelname :
  validate (parse_options cl modelname) = true.
Proof. unfold parse_options, store_true. simpl. by destruct (flag_no_validate cl). Qed.

(** No run of [main] calls a function of a model module other than
    [execute]: in particular [validate] is never called. *)
Section OnlyExecute.
Variable P : event -> Prop.

Lemma adds_only_ret {A : Type} (x : A) : adds_only P (mret x).
Proof.
  intros w r w' [= <- <-]. exists []. by rewrite app_nil_r.
Qed.

Lemma adds_only_stop {A : Type} (s : stop) :
  adds_only P (stop_with s : run A).
Proof.
  intros w r w' [= <- <-]. exists []. by rewrite app_nil_r.
Qed.

Lemma adds_only_emit e : P e -> adds_only P (emit e).
Proof.
  intros He w r w' [= <- <-]. exists [e]. split; [done|]. by constructor.
Qed.

Lemma adds_only_bind {A B : Type} (m : run A) (f : A -> run B) :
  adds_only P m -> (forall x, adds_only P (f x)) -> adds_only P (m ≫= f).
Proof.
  intros Hm Hf w r w' H. apply bind_cases in H.
  destruct H as [(e & -> & H)|(x & w1 & H1 & H2)]; [by eapply Hm|].
  destruct (Hm _ _ _ H1) as (a1 & E1 & F1).
  destruct (Hf x _ _ _ H2) as (a2 & E2 & F2).
  exists (a1 ++ a2)%list. split.
  - by rewrite E2, E1, app_assoc.
  - by apply Forall_app.
Qed.

Hypothesis prompts : forall prompt, P (RawInput prompt).

Lemma adds_only_raw_input prompt : adds_only P (raw_input prompt).
Proof.
  intros w r w'. unfold raw_input.
  destruct (stdin w); intros [= <- <-]; exists [RawInput prompt];
    (split; [done|by constructor]).
Qed.

Lemma ask_until_answer_adds user_response lines tr r w' :
  ask_until_answer user_response lines tr = (r, w') ->
  exists added, trace w' = (tr ++ added)%list /\ Forall P added.
Proof.
  revert user_response tr. induction lines as [|line rest IH];
    intros user_response tr; simpl;
    destruct (String.eqb user_response "y" || String.eqb user_response "n").
  - intros [= <- <-]. exists []. by rewrite app_nil_r.
  - intros [= <- <-]. eexists. split; [done|]. by constructor.
  - intros [= <- <-]. exists []. by rewrite app_nil_r.
  - intros H. apply IH in H as (added & -> & Hadded).
    eexists. split; [by rewrite <- app_assoc|].
    constructor; [apply prompts|done].
Qed.

Lemma adds_only_reprompt user_response : adds_only P (reprompt user_response).
Proof. intros w r w' H. by apply ask_until_answer_adds in H. Qed.

Hypothesis workspace_events :
  forall ws name, P (EnterWorkspace ws name) /\ P LeaveWorkspace.

Lemma adds_only_with_prepare_workspace {A : Type} env ws name (body : run A) :
  adds_only P body -> adds_only P (with_prepare_workspace env ws name body).
Proof.
  intros Hbody w r w'. unfold with_prepare_workspace.
  destruct (prepare_workspace env ws name).
  - intros [= <- <-]. exists []. by rewrite app_nil_r.
  - destruct (body _) as [r1 w1] eqn:Hrun. intros [= <- <-].
    destruct (Hbody _ _ _ Hrun) as (added & E & F). simpl in *.
    exists ([EnterWorkspace ws name] ++ added ++ [LeaveWorkspace])%list.
    split.
    + rewrite E. by rewrite <- !app_assoc.
    + apply Forall_app. split; [constructor; [apply workspace_events|done]|].
      apply Forall_app. split; [done|].
      constructor; [apply (workspace_events ws name)|done].
Qed.

End OnlyExecute.

Lemma main_calls_only_execute env args :
  adds_only calls_only_execute (main env args).
Proof.
  assert (Hemit : forall e, calls_only_execute e ->
                            adds_only calls_only_execute (emit e))
    by apply adds_only_emit.
  assert (Hcall : forall m args0,
             adds_only calls_only_execute
               (match getattr (PyModule m) "execute" with
                | inl e => stop_with (Uncaught e)
                | inr f =>
                    r ← call f args0;
                    match r with
                    | inl e => stop_with (Uncaught e)
                    | inr _ => mret tt
                    end
                end)).
  { intros m args0. unfold getattr.
    destruct (dict_get (module_attrs m) "execute"); [|apply adds_only_stop].
    apply adds_only_bind.
    - apply adds_only_bind; [by apply Hemit|]. intros _. apply adds_only_ret.
    - intros [e|l]; [apply adds_only_stop|apply adds_only_ret]. }
  unfold main.
  destruct (import_ui env) as [[]|]; try apply adds_only_stop.
  { apply adds_only_bind; [by apply Hemit|]. intros _. apply adds_only_stop. }
  apply adds_only_bind; [by apply Hemit|]. intros _.
  destruct (headless args).
  - unfold headless_run.
    destruct (import_scenarios env) as [e|scenarios]; [apply adds_only_stop|].
    apply adds_only_bind; [by apply Hemit|]. intros _.
    destruct (dict_get _MODEL_UIS (model args)) as [meta|];
      [|apply adds_only_stop].
    destruct (import_module env (pyname meta)) as [e|model_module];
      [apply adds_only_stop|].
    apply adds_only_bind; [by apply Hemit|]. intros _.
    apply adds_only_bind; [by apply Hemit|]. intros _.
    destruct (read_parameter_set scenarios) as [reader|];
      [|apply adds_only_stop].
    apply adds_only_bind; [by apply Hemit|]. intros _.
    destruct (reader (scenario args)) as [e|paramset]; [apply adds_only_stop|].
    apply adds_only_bind.
    { destruct (truthy (workspace args)); [apply adds_only_ret|].
      destruct (dict_get _ _); [apply adds_only_ret|apply adds_only_stop]. }
    intros [ws paramset'].
    apply adds_only_with_prepare_workspace; [done|].
    apply adds_only_bind; [by apply Hemit|]. intros _.
    apply adds_only_bind.
    { destruct (negb (validate args)); [by apply Hemit|].
      intros w r w' H. rewrite validation_only_warns in H.
      injection H as <- <-. eexists. split; [done|]. by constructor. }
    intros _. apply adds_only_bind; [|intros _; apply Hcall].
    unfold confirm_overwrite.
    destruct (os_path_exists env _); [|apply adds_only_ret].
    destruct (os_listdir env _) as [e|entries]; [apply adds_only_stop|].
    destruct (_ && _); [|apply adds_only_ret].
    apply adds_only_bind.
    { destruct (negb (stdout_isatty env)); [apply adds_only_ret|].
      apply adds_only_bind; [by apply adds_only_raw_input|]. intros first.
      apply adds_only_bind; [by apply adds_only_reprompt|]. intros answer.
      apply adds_only_ret. }
    intros [|]; [apply adds_only_stop|by apply Hemit].
  - unfold interactive_run.
    destruct (dict_get _MODEL_UIS (model args)) as [meta|];
      [|apply adds_only_stop].
    destruct (gui meta) as [gui_class|]; [|apply adds_only_stop].
    destruct (import_ui_class env gui_class); [apply adds_only_stop|].
    apply adds_only_bind.
    { destruct (truthy (scenario args)) as [s|]; [|apply adds_only_ret].
      apply adds_only_bind; [by apply Hemit|]. intros _.
      destruct (load_scenario env s); [apply adds_only_stop|apply adds_only_ret]. }
    intros _. apply adds_only_bind.
    { destruct (truthy (workspace args)); [by apply Hemit|apply adds_only_ret]. }
    intros _. apply adds_only_bind; [by apply Hemit|]. intros _.
    apply adds_only_bind; [by apply Hemit|]. intros _.
    destruct (run_dialog_error env); [apply adds_only_stop|].
    destruct (negb _); [apply adds_only_stop|apply adds_only_ret].
Qed.

(** Whatever the environment and the options, no [validate] is called. *)
Lemma validate_is_never_called env args lines owner model_args :
  ~ In (Call owner "validate" model_args)
       (trace (snd (run_main env args lines))).
Proof.
  unfold run_main.
  destruct (main env args {| trace := []; stdin := lines |}) as [r w'] eqn:H.
  destruct (main_calls_only_execute env args _ _ _ H) as (added & E & Hall).
  simpl in *. rewrite E. intros Hin. rewrite List.Forall_forall in Hall.
  apply Hall in Hin. discriminate.
Qed.

(** C9.  Whenever the GUI toolkit cannot be imported, [main] prints the
    message and returns 3, in headless mode as in interactive mode, before
    anything else is imported or run. *)
Theorem ui_import_failure_returns_3 env args lines :
  import_ui env = Some ImportError ->
  run_main env args lines
  = (inl (Returned 3),
     {| trace := [Print ui_not_installed]; stdin := lines |}).
Proof. intros H. unfold run_main, main. rewrite H. reflexivity. Qed.

Lemma ui_import_failure_returns_3_witness :
  run_main machine_without_ui (parse_options headless_carbon "carbon") []
  = (inl (Returned 3), {| trace := [Print ui_not_installed]; stdin := [] |}).
Proof.
  exact (ui_import_failure_returns_3 machine_without_ui
           (parse_options headless_carbon "carbon") [] eq_refl).
Defined.

(** C6.  In a headless run whose ParameterSet loads without a
    [workspace_dir] key and that has no [--workspace], [main] leaves through
    [parser.exit(3, ...)] with the "Workspace not defined" text; up to then
    it has imported the UI, [scenarios] and the model module and read the
    ParameterSet: the workspace is not prepared and no function of the model
    is called. *)
Theorem missing_workspace_exits_3
    env args lines scenarios reader meta model_module paramset :
  headless args = true ->
  workspace args = None ->
  import_ui env = None ->
  import_scenarios env = inr scenarios ->
  dict_get _MODEL_UIS (model args) = Some meta ->
  import_module env (pyname meta) = inr model_module ->
  read_parameter_set scenarios = Some reader ->
  reader (scenario args) = inr paramset ->
  dict_get (paramset_args paramset) "workspace_dir" = None ->
  run_main env args lines
  = (inl (SystemExit (StatusInt 3) (Some workspace_not_defined)),
     {| trace :=
          [ImportedUI; ImportedScenarios; ImportedModule (pyname meta);
           LogInfo ("imported target " ++ module_name model_module);
           ReadParameterSet (scenario args)];
        stdin := lines |}).
Proof.
  intros Hh Hw Hui Hsc Hmeta Hmod Hreader Hps Hnone.
  unfold run_main, main. rewrite Hui, Hh. unfold headless_run.
  rewrite Hsc, Hmeta, Hmod, Hreader, Hps, Hw. simpl truthy. cbv beta iota.
  rewrite Hnone. reflexivity.
Qed.

Lemma missing_workspace_exits_3_witness :
  run_main (machine scenarios_with_bare_reader)
           (parse_options headless_carbon "carbon") []
  = (inl (SystemExit (StatusInt 3) (Some workspace_not_defined)),
     {| trace :=
          [ImportedUI; ImportedScenarios;
           ImportedModule "natcap.invest.carbon";
           LogInfo "imported target natcap.invest.carbon";
           ReadParameterSet (Some "carbon.json")];
        stdin := [] |}).
Proof.
  exact (missing_workspace_exits_3
           (machine scenarios_with_bare_reader)
           (parse_options headless_carbon "carbon") []
           scenarios_with_bare_reader (fun _ => inr bare_paramset)
           (_UIMETA "natcap.invest.carbon" (Some "carbon.Carbon") [])
           carbon_module bare_paramset
           eq_refl eq_refl eq_refl eq_refl eq_refl eq_refl eq_refl eq_refl
           eq_refl).
Defined.

(** C4, at [invest --headless -s carbon.json carbon]: the model module
    defines [validate] and [--no-validate] is not given, yet the run never
    calls it.  [getattr] is applied to the module's dotted name, a [str],
    so the dispatcher logs that there is no validation function and goes on
    to [execute]. *)
Theorem headless_run_never_calls_validate :
  dict_has (module_attrs carbon_module) "validate" = true
  /\ run_main (machine scenarios_with_reader)
              (parse_options headless_carbon "carbon") []
     = (inr tt,
        {| trace :=
             [ImportedUI; ImportedScenarios;
              ImportedModule "natcap.invest.carbon";
              LogInfo "imported target natcap.invest.carbon";
              ReadParameterSet (Some "carbon.json");
              EnterWorkspace (VStr "/ws") "carbon";
              LogArgs carbon_args;
              LogWarn "carbon does not have a defined validation function.";
              Call "natcap.invest.carbon" "execute" carbon_args;
              LeaveWorkspace];
           stdin := [] |}).
Proof. split; reflexivity. Qed.

(** C5, at the same command line: [/ws], the workspace the ParameterSet
    names, exists and holds a file, [--overwrite] is not given and the
    standard output is not a terminal; the overwrite check looks at the
    working directory instead (there is no [--workspace]), finds it empty,
    and [execute] is called. *)
Theorem nonempty_workspace_overwritten_unasked :
  let env := machine scenarios_with_reader in
  let args := parse_options headless_carbon "carbon" in
  let outcome := run_main env args [] in
  dict_get carbon_args "workspace_dir" = Some (VStr "/ws")
  /\ os_path_exists env "/ws" = true
  /\ os_listdir env "/ws" = inr ["carbon_old.tif"]
  /\ overwrite args = false
  /\ stdout_isatty env = false
  /\ fst outcome = inr tt
  /\ In (Call "natcap.invest.carbon" "execute" carbon_args)
        (trace (snd outcome)).
Proof. vm_compute. repeat split; auto 12. Qed.

(** With [--workspace] the check does look at the workspace: a non-empty
    one, no [--overwrite] and no terminal end the run with status 2 before
    [execute]. *)
Lemma overwrite_denied_for_workspace_flag :
  run_main (machine scenarios_with_reader)
           (parse_options headless_carbon_in_ws "carbon") []
  = (inl (SystemExit (StatusInt 2) (Some use_workspace_aborting)),
     {| trace :=
          [ImportedUI; ImportedScenarios;
           ImportedModule "natcap.invest.carbon";
           LogInfo "imported target natcap.invest.carbon";
           ReadParameterSet (Some "carbon.json");
           EnterWorkspace (VStr "/ws") "carbon";
           LogArgs carbon_args;
           LogWarn "carbon does not have a defined validation function.";
           LeaveWorkspace];
        stdin := [] |}).
Proof. reflexivity. Qed.

(** C8, at [invest --headless carbon]: with [scenarios.py] as it stands the
    lookup of [read_parameter_set] raises [AttributeError], which nobody
    catches; and with a [scenarios] module that defines the function,
    [main] passes [None] on and lets what the function raises escape.  In
    neither case does the dispatcher say that the scenario is missing. *)
Theorem headless_run_without_scenario_crashes :
  let args := parse_options headless_carbon_no_scenario "carbon" in
  let imported :=
    [ImportedUI; ImportedScenarios; ImportedModule "natcap.invest.carbon";
     LogInfo "imported target natcap.invest.carbon"] in
  scenario args = None
  /\ run_main (machine scenarios_py) args []
     = (inl (Uncaught AttributeError),
        {| trace := imported; stdin := [] |})
  /\ run_main (machine scenarios_with_reader) args []
     = (inl (Uncaught IOError),
        {| trace := imported ++ [ReadParameterSet None]; stdin := [] |}).
Proof. repeat split. Qed.

(** With [scenarios.py] as it stands, a headless run that gets as far as
    loading the ParameterSet stops there, scenario or not. *)
Lemma read_parameter_set_is_missing env args lines meta model_module :
  headless args = true ->
  import_ui env = None ->
  import_scenarios env = inr scenarios_py ->
  dict_get _MODEL_UIS (model args) = Some meta ->
  import_module env (pyname meta) = inr model_module ->
  fst (run_main env args lines) = inl (Uncaught AttributeError).
Proof.
  intros Hh Hui Hsc Hmeta Hmod.
  unfold run_main, main. rewrite Hui, Hh. unfold headless_run.
  rewrite Hsc, Hmeta, Hmod. reflexivity.
Qed.

(** * Properties of scenarios.py *)
Import scenarios.

(** ** Evaluations *)

(** Strings that the system does not resolve name nothing, whatever their
    [abspath] is: the empty string, a file followed by a slash, and paths
    that go through a file or through a directory that does not exist. *)
Lemma unresolved_paths_name_nothing :
  abspath plain_os "" = "/home/user"
  /\ abspath plain_os "/x/f.csv/" = "/x/f.csv"
  /\ abspath plain_os "/x/f.csv/../f.csv" = "/x/f.csv"
  /\ abspath plain_os "/x/nope/../f.csv" = "/x/f.csv"
  /\ isdir plain_os (fs disk) "/home/user" = true
  /\ isfile plain_os (fs disk) "/x/f.csv" = true
  /\ isfile plain_os (fs disk) "/x/../x/./f.csv" = true
  /\ Forall (fun path => exists_ plain_os (fs disk) path = false)
            [""; "/x/f.csv/"; "/x/f.csv/../f.csv"; "/x/nope/../f.csv"].
Proof. vm_compute. repeat split; repeat constructor. Qed.

(** C10.  The archiving call on [disk] whose ParameterSet names the two
    regular files [/x/f.csv] and [/y/f.csv], neither of them a GDAL or OGR
    dataset.  Before the call nothing is logged and neither the staged file
    nor the archive exists.  The call succeeds; it copies both files, one
    after the other, to the same place in the staging directory and writes
    the basename for both entries, and the archive it makes holds one
    [f.csv], with the content of the file copied last.  Step by step, on
    the disk as the call has prepared it: [get_if_file] on the first string
    stages the content of [/x/f.csv], and on the second replaces it by the
    content of [/y/f.csv]. *)
Theorem same_basename_files_collapse :
  let archived :=
    collect_parameters plain_os same_basename_parameters
      "/out/scenario.tar.gz" disk in
  let first :=
    get_if_file plain_os "/tmp/scenario_0" "/tmp/scenario_0/data" "/x/f.csv"
      {| files_found := ∅; outside := prepared_disk |} in
  let second :=
    get_if_file plain_os "/tmp/scenario_0" "/tmp/scenario_0/data" "/y/f.csv"
      (snd first) in
  same_basename_parameters = [("a", VStr "/x/f.csv"); ("b", VStr "/y/f.csv")]
  /\ isfile plain_os (fs disk) "/x/f.csv" = true
  /\ isfile plain_os (fs disk) "/y/f.csv" = true
  /\ fs disk !! "/x/f.csv" = Some (File (Bytes "crop,yield"))
  /\ fs disk !! "/y/f.csv" = Some (File (Bytes "pool,carbon"))
  /\ (forall files path,
        gdal_Open (gis plain_os) files path = false
        /\ ogr_Open (gis plain_os) files path = None)
  /\ posixpath.basename "/x/f.csv" = posixpath.basename "/y/f.csv"
  /\ log disk = []
  /\ fs disk !! "/tmp/scenario_0/f.csv" = None
  /\ fs disk !! "/out/scenario.tar.gz" = None
  /\ fst archived = inr tt
  /\ log (snd archived)
     = [Mkdir "/tmp/scenario_0"; Mkdir "/tmp/scenario_0/data";
        Copyfile "/x/f.csv" "/tmp/scenario_0/f.csv";
        Copyfile "/y/f.csv" "/tmp/scenario_0/f.csv";
        Wrote "/tmp/scenario_0/parameters.json"
          (Json (VDict [("a", VStr "f.csv"); ("b", VStr "f.csv")]));
        MadeArchive "/out/scenario.tar.gz" "/tmp/scenario_0"]
  /\ parameters_document (log (snd archived))
     = Some [("a", VStr "f.csv"); ("b", VStr "f.csv")]
  /\ fs (snd archived) !! "/tmp/scenario_0/f.csv"
     = Some (File (Bytes "pool,carbon"))
  /\ fs (snd archived) !! "/out/scenario.tar.gz"
     = Some (File (TarGz
          [("f.csv", File (Bytes "pool,carbon"));
           ("data", Dir);
           ("parameters.json",
            File (Json (VDict [("a", VStr "f.csv"); ("b", VStr "f.csv")])))]))
  /\ log prepared_disk = [Mkdir "/tmp/scenario_0"; Mkdir "/tmp/scenario_0/data"]
  /\ fs prepared_disk !! "/tmp/scenario_0/f.csv" = None
  /\ fst first = inr "f.csv"
  /\ fs (outside (snd first)) !! "/tmp/scenario_0/f.csv"
     = Some (File (Bytes "crop,yield"))
  /\ fst second = inr "f.csv"
  /\ fs (outside (snd second)) !! "/tmp/scenario_0/f.csv"
     = Some (File (Bytes "pool,carbon"))
  /\ Bytes "pool,carbon" <> Bytes "crop,yield".
Proof.
  intros archived first second.
  repeat split; try discriminate; vm_compute; reflexivity.
Qed.


(** C1, at the ParameterSet of two files named [f.csv]: archiving and then
    extracting succeeds, and the entry ["a"], which named [/x/f.csv], comes
    back naming a file whose content is that of [/y/f.csv]. *)
Theorem round_trip_confuses_same_basename_files :
  let archived :=
    collect_parameters plain_os same_basename_parameters
      "/out/scenario.tar.gz" disk in
  let extracted :=
    extract_parameters_archive plain_os "/ws" "/out/scenario.tar.gz" None
      (snd archived) in
  dict_get same_basename_parameters "a" = Some (VStr "/x/f.csv")
  /\ fs disk !! "/x/f.csv" = Some (File (Bytes "crop,yield"))
  /\ fst archived = inr tt
  /\ fst extracted
     = inr [("a", VStr "/tmp/tmp1/f.csv"); ("b", VStr "/tmp/tmp1/f.csv");
            ("workspace_dir", VStr "/ws")]
  /\ fs (snd extracted) !! "/tmp/tmp1/f.csv"
     = Some (File (Bytes "pool,carbon"))
  /\ Bytes "pool,carbon" <> Bytes "crop,yield".
Proof. vm_compute. repeat split; discriminate. Qed.

(** Against C7 as stated: [workspace_dir] is in the input and is not in the
    parameters document. *)
Lemma workspace_dir_is_not_restored :
  let done :=
    collect_parameters plain_os workspace_parameters
      "/out/scenario.tar.gz" disk in
  dict_get workspace_parameters "workspace_dir" = Some (VStr "/ws")
  /\ fst done = inr tt
  /\ parameters_document (log (snd done))
     = Some [("a", VStr "f.csv"); ("results_suffix", VStr "v2")]
  /\ dict_get [("a", VStr "f.csv"); ("results_suffix", VStr "v2")]
              "workspace_dir" = None.
Proof. vm_compute. repeat split. Qed.

(** ** Dictionaries *)
Section DictFacts.
Context {A : Type}.
Implicit Types (d : list (string * A)) (k : string) (v : A).

Lemma dict_get_set_eq d k v : dict_get (dict_set d k v) k = Some v.
Proof.
  induction d as [|[k' v'] d IH]; simpl.
  - by rewrite String.eqb_refl.
  - destruct (String.eqb k' k) eqn:E; simpl; rewrite E; auto.
Qed.

Lemma dict_get_set_ne d k k' v :
  k <> k' -> dict_get (dict_set d k v) k' = dict_get d k'.
Proof.
  intros Hne. induction d as [|[k0 v0] d IH]; simpl.
  - apply String.eqb_neq in Hne. by rewrite Hne.
  - destruct (String.eqb_spec k0 k) as [->|Hk]; simpl.
    + apply String.eqb_neq in Hne. by rewrite Hne.
    + by rewrite IH.
Qed.

Lemma dict_get_del_ne d k k' :
  k <> k' -> dict_get (dict_del d k) k' = dict_get d k'.
Proof.
  intros Hne. induction d as [|[k0 v0] d IH]; simpl; [done|].
  destruct (String.eqb_spec k0 k) as [->|Hk]; simpl.
  - apply String.eqb_neq in Hne. by rewrite Hne.
  - by rewrite IH.
Qed.

Lemma dict_get_None_del d k k' :
  dict_get d k' = None -> dict_get (dict_del d k) k' = None.
Proof.
  induction d as [|[k0 v0] d IH]; simpl; [done|].
  destruct (String.eqb_spec k0 k') as [->|Hk']; [done|].
  intros H. destruct (String.eqb_spec k0 k) as [->|Hk]; simpl; [done|].
  apply String.eqb_neq in Hk'. rewrite Hk'. auto.
Qed.

Lemma dict_get_not_in d k :
  existsb (String.eqb k) (map fst d) = false -> dict_get d k = None.
Proof.
  induction d as [|[k0 v0] d IH]; simpl; [done|].
  rewrite orb_false_iff. intros [Hk Hrest].
  rewrite String.eqb_sym, Hk. auto.
Qed.

Lemma dict_get_del_eq d k :
  distinct (map fst d) = true -> dict_get (dict_del d k) k = None.
Proof.
  induction d as [|[k0 v0] d IH]; simpl; [done|].
  rewrite andb_true_iff, negb_true_iff. intros [Hfresh Hd].
  destruct (String.eqb_spec k0 k) as [->|Hk]; simpl.
  - by apply dict_get_not_in.
  - apply String.eqb_neq in Hk. rewrite Hk. auto.
Qed.

Lemma dict_get_in d k :
  dict_get d k = None -> existsb (String.eqb k) (map fst d) = false.
Proof.
  induction d as [|[k0 v0] d IH]; simpl; [done|].
  destruct (String.eqb_spec k0 k) as [->|Hk]; [done|].
  intros H. rewrite (IH H), orb_false_r.
  apply String.eqb_neq. congruence.
Qed.

Lemma dict_set_fresh d k v :
  dict_get d k = None -> dict_set d k v = (d ++ [(k, v)])%list.
Proof.
  induction d as [|[k0 v0] d IH]; simpl; [done|].
  destruct (String.eqb k0 k); [done|]. intros H. by rewrite IH.
Qed.

Lemma dict_get_app d d' k :
  dict_get (d ++ d')%list k =
  match dict_get d k with Some v => Some v | None => dict_get d' k end.
Proof.
  induction d as [|[k0 v0] d IH]; simpl; [done|].
  by destruct (String.eqb k0 k).
Qed.

Lemma distinct_del d k :
  distinct (map fst d) = true -> distinct (map fst (dict_del d k)) = true.
Proof.
  induction d as [|[k0 v0] d IH]; simpl; [done|].
  rewrite andb_true_iff, negb_true_iff. intros [Hfresh Hd].
  destruct (String.eqb k0 k); [done|]. simpl.
  rewrite (IH Hd), andb_true_r, negb_true_iff.
  apply dict_get_in. apply dict_get_None_del. by apply dict_get_not_in.
Qed.

Lemma forallb_del (P : A -> bool) d k :
  forallb (fun item => P (snd item)) d = true ->
  forallb (fun item => P (snd item)) (dict_del d k) = true.
Proof.
  induction d as [|[k0 v0] d IH]; simpl; [done|].
  rewrite andb_true_iff. intros [Hv Hd].
  destruct (String.eqb k0 k); [done|]. simpl. rewrite Hv. auto.
Qed.
End DictFacts.

(** ** The event log *)

Lemma parameters_document_snoc events e :
  parameters_document (events ++ [e])%list =
  match e with
  | Wrote _ (Json (VDict d)) => Some d
  | _ => parameters_document events
  end.
Proof.
  induction events as [|e0 events IH]; simpl.
  - by destruct e as [| | | | |? [? | [] |?]| |].
  - rewrite IH. destruct e as [| | | | |? [? | [] |?]| |]; try done.
Qed.

Lemma copies_of_app src events events' :
  copies_of src (events ++ events')%list
  = (copies_of src events + copies_of src events')%nat.
Proof.
  induction events as [|e events IH]; simpl; [done|].
  destruct e; simpl; rewrite ?IH; lia.
Qed.


(** ** Path resolution *)

Lemma dirs_kept_refl files : dirs_kept files files.
Proof. by intros p. Qed.

Lemma dirs_kept_trans f1 f2 f3 :
  dirs_kept f1 f2 -> dirs_kept f2 f3 -> dirs_kept f1 f3.
Proof. intros H1 H2 p Hp. auto. Qed.

Lemma dirs_kept_insert files d n :
  (files !! d = Some Dir -> n = Dir) -> dirs_kept files (<[d := n]> files).
Proof.
  intros Hn p Hp. destruct (decide (d = p)) as [<-|Hne].
  - rewrite lookup_insert_eq. f_equal. auto.
  - by rewrite lookup_insert_ne.
Qed.

Lemma make_missing_dirs_kept dirs files files' :
  make_missing dirs files = Some files' -> dirs_kept files files'.
Proof.
  revert files. induction dirs as [|d dirs IH]; intros files; simpl.
  - intros [= <-]. apply dirs_kept_refl.
  - destruct (files !! d) as [[|c]|] eqn:Hd; [apply IH|done|].
    intros H. apply IH in H. eapply dirs_kept_trans; [|exact H].
    apply dirs_kept_insert. by rewrite Hd.
Qed.

Lemma graft_dirs_kept entries d files files' :
  graft entries d files = Some files' -> dirs_kept files files'.
Proof.
  revert files. induction entries as [|[rel n] entries IH]; intros files; simpl.
  - intros [= <-]. apply dirs_kept_refl.
  - set (target := below d ++ rel).
    intros H.
    assert (Hn : files !! target = Some Dir -> n = Dir).
    { intros Ht. rewrite Ht in H. by destruct n. }
    assert (H' : exists files1, make_missing (ancestors target) files = Some files1
                                /\ graft entries d (<[target := n]> files1)
                                   = Some files').
    { destruct (files !! target) as [[|c]|], n;
        try discriminate;
        (destruct (make_missing (ancestors target) files) as [files1|];
         [eauto|discriminate]). }
    destruct H' as (files1 & Hmk & Hrest).
    apply IH in Hrest. apply make_missing_dirs_kept in Hmk.
    intros p Hp. apply Hrest.
    destruct (decide (target = p)) as [<-|Hne].
    + rewrite lookup_insert_eq. f_equal. auto.
    + rewrite lookup_insert_ne by done. auto.
Qed.

Section Paths.
Variable os : OS.

Lemma lookup_path_Some files path n :
  lookup_path os files path = Some n ->
  searchable os files path = true /\ files !! abspath os path = Some n.
Proof.
  unfold lookup_path. destruct (searchable os files path); [|done].
  destruct (files !! abspath os path) as [[|c]|]; [done| |done].
  by destruct (posixpath.endswith_sep path).
Qed.

Lemma isdir_spec files path :
  isdir os files path = true
  <-> searchable os files path = true /\ files !! abspath os path = Some Dir.
Proof.
  unfold isdir, lookup_path. destruct (searchable os files path);
    [|by split; [|intros []]].
  destruct (files !! abspath os path) as [[|c]|];
    [done|split; [|by intros []]|by split; [|intros []]].
  by destruct (posixpath.endswith_sep path).
Qed.

Lemma isfile_spec files path :
  isfile os files path = true
  <-> searchable os files path = true
      /\ posixpath.endswith_sep path = false
      /\ exists c, files !! abspath os path = Some (File c).
Proof.
  unfold isfile, lookup_path. destruct (searchable os files path);
    [|by split; [|intros []]].
  destruct (files !! abspath os path) as [[|c]|].
  - split; [done|]. by intros (_ & _ & c & [=]).
  - destruct (posixpath.endswith_sep path).
    + split; [done|]. by intros (_ & [=] & _).
    + split; [eauto|done].
  - split; [done|]. by intros (_ & _ & c & [=]).
Qed.

Lemma searchable_kept files files' path :
  dirs_kept files files' ->
  searchable os files path = true -> searchable os files' path = true.
Proof.
  unfold searchable. intros Hkept.
  rewrite !andb_true_iff, !forallb_forall. intros [Hpath Hall].
  split; [done|]. intros d Hd. specialize (Hall d Hd). unfold is_dir_at in *.
  destruct (files !! abspath os d) as [[|c]|] eqn:Hdir; try done.
  by rewrite (Hkept _ Hdir).
Qed.

Lemma isdir_kept files files' path :
  dirs_kept files files' ->
  isdir os files path = true -> isdir os files' path = true.
Proof.
  intros Hkept. rewrite !isdir_spec. intros [Hs Hd].
  split; [by eapply searchable_kept|by apply Hkept].
Qed.

Lemma isfile_kept files files' path :
  files_kept files files' -> dirs_kept files files' ->
  isfile os files path = true -> isfile os files' path = true.
Proof.
  intros Hfiles Hdirs. rewrite !isfile_spec. intros (Hs & Hsep & c & Hc).
  split; [by eapply searchable_kept|]. split; [done|]. by eapply Hfiles.
Qed.

(** A directory made where the path leads is what the path names. *)
Lemma made_dir_resolves files path :
  searchable os files path = true ->
  isdir os (<[abspath os path := Dir]> files) path = true.
Proof.
  intros Hs. apply isdir_spec. split; [|apply lookup_insert_eq].
  eapply searchable_kept; [|exact Hs]. by apply dirs_kept_insert.
Qed.

Lemma make_missing_made dirs files files' :
  make_missing dirs files = Some files' ->
  forall d, In d dirs -> files' !! d = Some Dir.
Proof.
  revert files. induction dirs as [|d0 dirs IH]; intros files; simpl; [done|].
  destruct (files !! d0) as [[|c]|] eqn:Hd0; [|done|].
  - intros H d [<-|Hd]; [|by eapply IH].
    by apply (make_missing_dirs_kept _ _ _ H).
  - intros H d [<-|Hd]; [|by eapply IH].
    apply (make_missing_dirs_kept _ _ _ H), lookup_insert_eq.
Qed.

Lemma make_missing_searchable path files files' :
  String.eqb path "" = false ->
  make_missing (map (abspath os) (parent_prefixes path)) files = Some files' ->
  searchable os files' path = true.
Proof.
  intros Hpath Hmk. unfold searchable. rewrite Hpath. simpl.
  apply forallb_forall. intros d Hd. unfold is_dir_at.
  by rewrite (make_missing_made _ _ _ Hmk (abspath os d)) by by apply in_map.
Qed.

End Paths.

(** ** What the file-system calls leave alone *)

Lemma files_kept_refl files : files_kept files files.
Proof. intros p c H. eauto. Qed.

Lemma files_kept_trans f1 f2 f3 :
  files_kept f1 f2 -> files_kept f2 f3 -> files_kept f1 f3.
Proof. intros H12 H23 p c H. destruct (H12 p c H) as [c' H']. eauto. Qed.

Lemma files_kept_insert_file files d c :
  files_kept files (<[d := File c]> files).
Proof.
  intros p c0 H. destruct (decide (d = p)) as [->|Hne].
  - rewrite lookup_insert_eq. eauto.
  - rewrite lookup_insert_ne by done. eauto.
Qed.

Lemma files_kept_insert_fresh files d n :
  files !! d = None -> files_kept files (<[d := n]> files).
Proof.
  intros Hfree p c H. destruct (decide (d = p)) as [->|Hne]; [congruence|].
  rewrite lookup_insert_ne by done. eauto.
Qed.

Lemma files_kept_insert_dir files d :
  files !! d = Some Dir -> files_kept files (<[d := Dir]> files).
Proof.
  intros Hdir p c H. destruct (decide (d = p)) as [->|Hne]; [congruence|].
  rewrite lookup_insert_ne by done. eauto.
Qed.

Lemma make_missing_kept dirs files files' :
  make_missing dirs files = Some files' -> files_kept files files'.
Proof.
  revert files. induction dirs as [|d dirs IH]; simpl; intros files H.
  - injection H as <-. apply files_kept_refl.
  - destruct (files !! d) as [[|c]|] eqn:Hd; [auto|done|].
    eapply files_kept_trans; [|by apply IH].
    by apply files_kept_insert_fresh.
Qed.

Lemma graft_kept entries d files files' :
  graft entries d files = Some files' -> files_kept files files'.
Proof.
  revert files. induction entries as [|[rel n] entries IH]; simpl; intros files H.
  - injection H as <-. apply files_kept_refl.
  - set (target := (below d ++ rel)%string) in *.
    assert (Hstep : forall files1,
               make_missing (ancestors target) files = Some files1 ->
               (files !! target = None \/ files !! target = Some n
                \/ exists c c', files !! target = Some (File c) /\ n = File c') ->
               files_kept files (<[target := n]> files1)).
    { intros files1 Hmk Hcase. intros p c Hp.
      destruct (make_missing_kept _ _ _ Hmk p c Hp) as [c1 Hp1].
      destruct (decide (target = p)) as [<-|Hne].
      - rewrite lookup_insert_eq.
        destruct Hcase as [Hnone|[Hsame|(c0 & c' & _ & ->)]];
          [congruence | rewrite Hp in Hsame; injection Hsame as <-; eauto
          | eauto].
      - rewrite lookup_insert_ne by done. eauto. }
    destruct (files !! target) as [[|c]|] eqn:Ht; destruct n as [|c'];
      try discriminate;
      destruct (make_missing (ancestors target) files) as [files1|] eqn:Hmk;
      try discriminate;
      (eapply files_kept_trans; [apply (Hstep files1 eq_refl)|by apply IH]);
      eauto 6.
Qed.

Lemma undisturbed_refl src st : undisturbed src st st.
Proof. split; [apply files_kept_refl|done]. Qed.

Lemma undisturbed_trans src st1 st2 st3 :
  undisturbed src st1 st2 -> undisturbed src st2 st3 -> undisturbed src st1 st3.
Proof.
  intros [K12 C12] [K23 C23]. split; [by eapply files_kept_trans|congruence].
Qed.

Lemma undisturbed_record src e files st :
  files_kept (fs st) files ->
  copies_of src [e] = 0%nat ->
  undisturbed src st (record e files st).
Proof.
  intros Hk He. split; [done|]. simpl. rewrite copies_of_app, He. lia.
Qed.

Lemma quiet_ret {A : Type} src (x : A) : quiet src (mret x).
Proof. intros st r st' [= <- <-]. apply undisturbed_refl. Qed.

Lemma quiet_stop {A : Type} src (e : exn) : quiet src (stop_with e : io A).
Proof. intros st r st' [= <- <-]. apply undisturbed_refl. Qed.

Lemma quiet_bind {A B : Type} src (m : io A) (f : A -> io B) :
  quiet src m -> (forall x, quiet src (f x)) -> quiet src (m ≫= f).
Proof.
  intros Hm Hf st r st' H. apply bind_cases in H.
  destruct H as [(e & -> & H)|(x & st1 & H1 & H2)]; [by eapply Hm|].
  eapply undisturbed_trans; [by eapply Hm|by eapply Hf].
Qed.

Lemma quiet_fmap {A B : Type} src (g : A -> B) (m : io A) :
  quiet src m -> quiet src (g <$> m).
Proof.
  intros Hm st r st' H. apply fmap_cases in H.
  destruct H as [(e & -> & H)|(x & H & ->)]; by eapply Hm.
Qed.

Section QuietCalls.
Variable os : OS.
Variable src : string.

Lemma quiet_probe {A : Type} (f : gmap string node -> A) :
  quiet src (probe f).
Proof. intros st r st' [= <- <-]. apply undisturbed_refl. Qed.

Lemma quiet_mkdtemp_loop tries prefix dir :
  quiet src (mkdtemp_loop os tries prefix dir).
Proof.
  induction tries as [|tries IH]; intros st r st'; simpl.
  - intros [= <- <-]. apply undisturbed_refl.
  - set (file := posixpath.join dir (prefix ++ pretty (temp_count st))).
    destruct (searchable os (fs st) file);
      [|intros [= <- <-]; apply undisturbed_refl].
    destruct (fs st !! abspath os file) as [n|] eqn:Hfile.
    + intros H. apply IH in H. destruct H as [Hk Hc]. split; assumption.
    + destruct (fs st !! posixpath.dirname (abspath os file)) as [[|c]|];
        intros [= <- <-]; try apply undisturbed_refl.
      split; simpl.
      * by apply files_kept_insert_fresh.
      * rewrite copies_of_app. simpl. lia.
Qed.

Lemma quiet_mkdtemp prefix dir : quiet src (mkdtemp os prefix dir).
Proof. apply quiet_mkdtemp_loop. Qed.

Lemma quiet_makedirs path : quiet src (makedirs os path).
Proof.
  intros st r st'. unfold makedirs.
  destruct (String.eqb path ""); [intros [= <- <-]; apply undisturbed_refl|].
  destruct (make_missing _ (fs st)) as [files|] eqn:Hmk;
    [|intros [= <- <-]; apply undisturbed_refl].
  destruct (files !! abspath os path) eqn:Hfree;
    intros [= <- <-]; [apply undisturbed_refl|].
  apply undisturbed_record; [|done].
  eapply files_kept_trans; [by eapply make_missing_kept|].
  by apply files_kept_insert_fresh.
Qed.

Lemma quiet_mkdir path : quiet src (mkdir os path).
Proof.
  intros st r st'. unfold mkdir.
  destruct (searchable os (fs st) path);
    [|intros [= <- <-]; apply undisturbed_refl].
  destruct (fs st !! abspath os path) eqn:Hfree;
    [intros [= <- <-]; apply undisturbed_refl|].
  destruct (fs st !! posixpath.dirname (abspath os path)) as [[|c]|];
    intros [= <- <-]; try apply undisturbed_refl.
  apply undisturbed_record; [|done]. by apply files_kept_insert_fresh.
Qed.

Lemma quiet_copytree from to : quiet src (copytree os from to).
Proof.
  intros st r st'. unfold copytree.
  destruct (lookup_path os (fs st) from) as [[|c]|];
    try (intros [= <- <-]; apply undisturbed_refl).
  destruct (String.eqb to ""); [intros [= <- <-]; apply undisturbed_refl|].
  destruct (make_missing _ (fs st)) as [files|] eqn:Hmk;
    [|intros [= <- <-]; apply undisturbed_refl].
  destruct (files !! abspath os to) eqn:Hfree;
    [intros [= <- <-]; apply undisturbed_refl|].
  destruct (graft _ _ _) as [files'|] eqn:Hgraft;
    intros [= <- <-]; [|apply undisturbed_refl].
  apply undisturbed_record; [|done].
  eapply files_kept_trans; [by eapply make_missing_kept|].
  eapply files_kept_trans; [|by eapply graft_kept].
  by apply files_kept_insert_fresh.
Qed.

Lemma quiet_write_file path c : quiet src (write_file os path c).
Proof.
  intros st r st'. unfold write_file.
  destruct (_ && _); [|intros [= <- <-]; apply undisturbed_refl].
  destruct (fs st !! abspath os path) as [[|c0]|];
    destruct (fs st !! posixpath.dirname (abspath os path)) as [[|c1]|];
    intros [= <- <-]; try apply undisturbed_refl;
    (apply undisturbed_record; [apply files_kept_insert_file|done]).
Qed.

Lemma quiet_make_archive base_name root_dir :
  quiet src (make_archive os base_name root_dir).
Proof.
  intros st r st'. unfold make_archive.
  set (target := (abspath os base_name ++ ".tar.gz")%string).
  assert (Hgo : forall r st',
    match make_missing (ancestors target) (fs st) with
    | Some files =>
        (inr target,
         record (MadeArchive target (abspath os root_dir))
           (<[target := File (TarGz (subtree (fs st) (abspath os root_dir)))]>
              files) st)
    | None => (inl OSError, st)
    end = (r, st') -> undisturbed src st st').
  { clear r st'. intros r st'.
    destruct (make_missing (ancestors target) (fs st)) as [files|] eqn:Hmk;
      intros [= <- <-]; [|apply undisturbed_refl].
    apply undisturbed_record; [|done].
    eapply files_kept_trans; [by eapply make_missing_kept|].
    apply files_kept_insert_file. }
  destruct (lookup_path os (fs st) root_dir) as [[|c]|];
    try (intros [= <- <-]; apply undisturbed_refl).
  destruct (fs st !! target) as [[|c]|]; try apply Hgo.
  intros [= <- <-]; apply undisturbed_refl.
Qed.

Lemma quiet_driver_call f e :
  (forall files files', f files = inr files' -> files_kept files files') ->
  copies_of src [e] = 0%nat ->
  quiet src (driver_call f e).
Proof.
  intros Hf He st r st'. unfold driver_call.
  destruct (f (fs st)) as [err|files] eqn:Hcall; intros [= <- <-].
  - apply undisturbed_refl.
  - apply undisturbed_record; [by apply Hf|done].
Qed.

Lemma quiet_copyfile from to :
  abspath os from <> src -> quiet src (copyfile os from to).
Proof.
  intros Hne st r st'. unfold copyfile.
  destruct (lookup_path os (fs st) from) as [[|c]|];
    try (intros [= <- <-]; apply undisturbed_refl).
  destruct (_ && _); [intros [= <- <-]; apply undisturbed_refl|].
  destruct (_ && _); [|intros [= <- <-]; apply undisturbed_refl].
  destruct (fs st !! abspath os to) as [[|c0]|];
    destruct (fs st !! posixpath.dirname (abspath os to)) as [[|c1]|];
    intros [= <- <-]; try apply undisturbed_refl;
    (apply undisturbed_record; [apply files_kept_insert_file|]);
    simpl; apply String.eqb_neq in Hne; by rewrite Hne.
Qed.

(** Copying the file [src] itself: one more copy when it succeeds, nothing
    at all when it fails. *)
Lemma copyfile_of_src from to st r st' :
  abspath os from = src ->
  copyfile os from to st = (r, st') ->
  files_kept (fs st) (fs st')
  /\ ((r = inr tt /\ copies_of src (log st') = S (copies_of src (log st)))
      \/ (st' = st /\ (r = inl IOError \/ r = inl ShutilError))).
Proof.
  intros Hsrc. unfold copyfile. rewrite Hsrc.
  destruct (lookup_path os (fs st) from) as [[|c]|];
    try (intros [= <- <-]; split; [apply files_kept_refl|auto]).
  destruct (_ && _);
    [intros [= <- <-]; split; [apply files_kept_refl|auto]|].
  destruct (_ && _);
    [|intros [= <- <-]; split; [apply files_kept_refl|auto]].
  destruct (fs st !! abspath os to) as [[|c0]|];
    destruct (fs st !! posixpath.dirname (abspath os to)) as [[|c1]|];
    intros [= <- <-];
    try (split; [apply files_kept_refl|auto]);
    (split; [apply files_kept_insert_file|]); left; split; try done;
    simpl; rewrite copies_of_app; simpl; rewrite String.eqb_refl; lia.
Qed.

End QuietCalls.

(** ** Staging one value *)
Section Staging.
Variable os : OS.
Variables temp_workspace data_dir : string.
Variable src : string.
Hypothesis drivers_keep_files : keeps_files (gis os).

Lemma quiet_make_random_dir workspace seed_string prefix make_dir :
  quiet src (make_random_dir os workspace seed_string prefix make_dir).
Proof.
  unfold make_random_dir. apply quiet_bind.
  - destruct make_dir; [apply quiet_mkdir|apply quiet_ret].
  - intros _. apply quiet_ret.
Qed.

Lemma quiet_get_multi_part_gdal filepath :
  quiet src (get_multi_part_gdal os data_dir filepath).
Proof.
  unfold get_multi_part_gdal. apply quiet_bind; [apply quiet_probe|].
  intros [|]; [|apply quiet_stop].
  apply quiet_bind; [apply quiet_mkdtemp|]. intros new_path.
  apply quiet_bind; [|intros _; apply quiet_ret].
  apply quiet_driver_call; [|done].
  intros files files' H p c Hp.
  eapply (drivers_keep_files files files'); [left; exact H|exact Hp].
Qed.

Lemma quiet_get_multi_part_ogr filepath :
  quiet src (get_multi_part_ogr os data_dir filepath).
Proof.
  unfold get_multi_part_ogr. apply quiet_bind; [apply quiet_probe|].
  intros [driver_name|]; [|apply quiet_stop].
  apply quiet_bind; [apply quiet_mkdtemp|]. intros new_path.
  apply quiet_bind; [|intros _; apply quiet_ret].
  apply quiet_driver_call; [|done].
  intros files files' H p c Hp.
  eapply (drivers_keep_files files files'); [right; exact H|exact Hp].
Qed.

Lemma quiet_get_multi_part filepath :
  quiet src (get_multi_part os data_dir filepath).
Proof.
  unfold get_multi_part. apply quiet_bind; [apply quiet_probe|].
  intros [|]; [apply quiet_fmap, quiet_get_multi_part_gdal|].
  apply quiet_bind; [apply quiet_probe|].
  intros [driver_name|]; [|apply quiet_ret].
  destruct (negb _); [|apply quiet_ret].
  intros st r st'. unfold unless_NotAVector.
  destruct (get_multi_part_ogr os data_dir filepath st) as [[e|new_path] st1] eqn:H.
  - apply quiet_get_multi_part_ogr in H.
    destruct e; intros [= <- <-]; exact H.
  - apply quiet_get_multi_part_ogr in H. intros [= <- <-]; exact H.
Qed.

(** Staging a name of another file leaves [src] alone. *)
Lemma quiet_stage parameter :
  abspath os parameter <> src ->
  quiet src (stage os temp_workspace data_dir parameter).
Proof.
  intros Hne. unfold stage. apply quiet_bind; [apply quiet_get_multi_part|].
  intros [folder|]; [apply quiet_ret|].
  apply quiet_bind; [apply quiet_probe|]. intros [|].
  - apply quiet_bind; [by apply quiet_copyfile|]. intros _. apply quiet_ret.
  - apply quiet_bind; [apply quiet_probe|]. intros [|]; [|apply quiet_ret].
    apply quiet_bind; [apply quiet_make_random_dir|]. intros new_foldername.
    apply quiet_bind; [apply quiet_copytree|]. intros _. apply quiet_ret.
Qed.

(** Staging never loses a regular file, whatever is staged. *)
Lemma stage_keeps_files parameter st r st' :
  stage os temp_workspace data_dir parameter st = (r, st') ->
  files_kept (fs st) (fs st').
Proof.
  destruct (decide (abspath os parameter = src)) as [Heq|Hne];
    [|intros H; apply (quiet_stage parameter Hne) in H; apply H].
  unfold stage. intros H. apply bind_cases in H.
  destruct H as [(e & -> & H)|(multi & st1 & H1 & H)];
    [apply quiet_get_multi_part in H; apply H|].
  apply quiet_get_multi_part in H1. destruct H1 as [K1 _].
  eapply files_kept_trans; [exact K1|]. clear K1.
  destruct multi as [folder|]; [injection H as <- <-; apply files_kept_refl|].
  apply bind_cases in H.
  destruct H as [(e & -> & [=])|(is_file & st2 & [= <- <-] & H)].
  destruct (isfile os (fs st1) parameter).
  - apply bind_cases in H.
    destruct H as [(e & -> & H)|([] & st3 & H3 & [= <- <-])];
      by eapply copyfile_of_src.
  - revert H. apply (quiet_bind src); [apply quiet_probe|]. intros [|];
      [|apply quiet_ret].
    apply quiet_bind; [apply quiet_make_random_dir|]. intros new_foldername.
    apply quiet_bind; [apply quiet_copytree|]. intros _. apply quiet_ret.
Qed.

End Staging.

(** ** The walk of [format_dictionary] *)

(** Induction on values, with the hypothesis for every element of a list
    and every value of a mapping. *)
Lemma value_nested_ind (P : value -> Prop) :
  P VNone -> (forall b, P (VBool b)) -> (forall z, P (VInt z)) ->
  (forall s, P (VStr s)) ->
  (forall l, Forall P l -> P (VList l)) ->
  (forall d, Forall (fun item => P (snd item)) d -> P (VDict d)) ->
  forall v, P v.
Proof.
  intros HN HB HI HS HL HD. fix IH 1.
  intros [| b | z | s | l | d];
    [apply HN | apply HB | apply HI | apply HS | |].
  - apply HL.
    exact ((fix all (l : list value) : Forall P l :=
              match l with
              | [] => List.Forall_nil P
              | x :: rest => @List.Forall_cons _ P x rest (IH x) (all rest)
              end) l).
  - apply HD.
    exact ((fix all (d : list (string * value))
              : Forall (fun item => P (snd item)) d :=
              match d with
              | [] => List.Forall_nil _
              | (k, x) :: rest =>
                  @List.Forall_cons _ (fun item => P (snd item)) (k, x) rest
                                    (IH x) (all rest)
              end) d).
Qed.

Lemma existsb_eqb_false (k : string) (l : list string) :
  existsb (String.eqb k) l = false -> forall k', In k' l -> k <> k'.
Proof.
  induction l as [|k0 l IH]; simpl; [done|].
  rewrite orb_false_iff. intros [Hk Hl] k' [<-|Hin].
  - by apply String.eqb_neq.
  - by apply IH.
Qed.

Section Walk.
Context {S : Type}.
Variable handler : string -> comp S exn string.

Lemma or_verbatim_not_KeyError (m : comp S exn value) v c c' :
  or_verbatim m v c <> (inl KeyError, c').
Proof.
  unfold or_verbatim. destruct (m c) as [[[]|x] c1]; discriminate.
Qed.

Lemma format_dict_not_KeyError (types : value -> comp S exn value)
    parameter new_dict c c' :
  format_dict types parameter new_dict c <> (inl KeyError, c').
Proof.
  revert new_dict c. induction parameter as [|[key v] rest IH];
    intros new_dict c; simpl; [discriminate|].
  intros H. apply bind_cases in H.
  destruct H as [(e & [= <-] & H)|(x & c1 & _ & H)].
  - by apply or_verbatim_not_KeyError in H.
  - by apply IH in H.
Qed.

Lemma format_list_not_KeyError (types : value -> comp S exn value)
    parameter new_list c c' :
  format_list types parameter new_list c <> (inl KeyError, c').
Proof.
  revert new_list c. induction parameter as [|item rest IH];
    intros new_list c; simpl; [discriminate|].
  intros H. apply bind_cases in H.
  destruct H as [(e & [= <-] & H)|(x & c1 & _ & H)].
  - by apply or_verbatim_not_KeyError in H.
  - by apply IH in H.
Qed.

(** A Hoare-style rule for the walk: an invariant [Inv] of the state, an
    order [le] in which the state only grows, and a relation [R] between a
    string and what replaces it, which later states preserve. *)
Variable Inv : S -> Prop.
Variable le : S -> S -> Prop.
Variable R : S -> string -> string -> Prop.
Hypothesis le_refl : forall c, le c c.
Hypothesis le_trans : forall a b c, le a b -> le b c -> le a c.
Hypothesis R_mono : forall c c' s r, le c c' -> R c s r -> R c' s r.
Hypothesis handler_returns : forall s c r c',
  Inv c -> handler s c = (inr r, c') -> Inv c' /\ le c c' /\ R c' s r.
Hypothesis handler_KeyError : forall s c c',
  Inv c -> handler s c = (inl KeyError, c') -> Inv c' /\ le c c' /\ R c' s s.

(** What the rule gives for one value. *)
Local Abbreviation walked := (walks handler Inv le R).

Lemma format_dict_walked parameter :
  Forall (fun item => walked (snd item)) parameter ->
  distinct (map fst parameter) = true ->
  forallb (fun item => well_formed (snd item)) parameter = true ->
  forall new_dict c d' c',
    (forall k, In k (map fst parameter) -> dict_get new_dict k = None) ->
    Inv c ->
    format_dict (types handler) parameter new_dict c = (inr d', c') ->
    Inv c' /\ le c c'
    /\ exists d'',
        d' = (new_dict ++ d'')%list
        /\ forall c_end, le c' c_end ->
           Forall2 (fun item item' =>
                      fst item = fst item'
                      /\ rewritten (R c_end) (snd item) (snd item'))
                   parameter d''.
Proof.
  induction 1 as [|[key v] rest Hv Hrest IH]; simpl;
    intros Hkeys Hwf new_dict c d' c' Hfresh Hinv Hrun.
  - injection Hrun as <- <-. repeat split; auto.
    exists []. split; [by rewrite app_nil_r|]. constructor.
  - apply andb_true_iff in Hkeys as [Hkey Hkeys].
    apply negb_true_iff in Hkey.
    apply andb_true_iff in Hwf as [Hwfv Hwf].
    apply bind_inr in Hrun as (x & c1 & Hx & Hrun).
    destruct (Hv Hwfv c x c1 Hinv Hx) as (Hinv1 & Hle1 & Hrew).
    rewrite (dict_set_fresh new_dict key x) in Hrun by (apply Hfresh; auto).
    destruct (IH Hkeys Hwf (new_dict ++ [(key, x)])%list c1 d' c')
      as (Hinv' & Hle' & d'' & -> & Hall); auto.
    { intros k Hk. rewrite dict_get_app, Hfresh by auto. simpl.
      destruct (String.eqb_spec key k) as [->|]; [|done].
      by destruct (existsb_eqb_false _ _ Hkey k Hk). }
    repeat split; eauto.
    exists ((key, x) :: d''). split; [by rewrite <- app_assoc|].
    intros c_end Hend. constructor; [|by apply Hall].
    split; [done|]. simpl. apply Hrew. eauto.
Qed.

Lemma format_list_walked parameter :
  Forall walked parameter ->
  forallb well_formed parameter = true ->
  forall new_list c l' c',
    Inv c ->
    format_list (types handler) parameter new_list c = (inr l', c') ->
    Inv c' /\ le c c'
    /\ exists l'',
        l' = (new_list ++ l'')%list
        /\ forall c_end, le c' c_end ->
           Forall2 (rewritten (R c_end)) parameter l''.
Proof.
  induction 1 as [|item rest Hv Hrest IH]; simpl;
    intros Hwf new_list c l' c' Hinv Hrun.
  - injection Hrun as <- <-. repeat split; auto.
    exists []. split; [by rewrite app_nil_r|]. constructor.
  - apply andb_true_iff in Hwf as [Hwfv Hwf].
    apply bind_inr in Hrun as (x & c1 & Hx & Hrun).
    destruct (Hv Hwfv c x c1 Hinv Hx) as (Hinv1 & Hle1 & Hrew).
    destruct (IH Hwf (new_list ++ [x])%list c1 l' c')
      as (Hinv' & Hle' & l'' & -> & Hall); auto.
    repeat split; eauto.
    exists (x :: l''). split; [by rewrite <- app_assoc|].
    intros c_end Hend. constructor; [|by apply Hall].
    apply Hrew. eauto.
Qed.

Lemma every_value_walked v : walked v.
Proof.
  induction v as [| b | z | s | l IH | d IH] using value_nested_ind;
    intros Hwf c v' c' Hinv Hrun.
  - injection Hrun as <- <-. repeat split; auto. constructor.
  - injection Hrun as <- <-. repeat split; auto. constructor.
  - injection Hrun as <- <-. repeat split; auto. constructor.
  - unfold or_verbatim in Hrun. simpl in Hrun.
    unfold fmap, comp_fmap in Hrun.
    destruct (handler s c) as [[e|r] c1] eqn:Hh.
    + destruct e; try discriminate. injection Hrun as <- <-.
      destruct (handler_KeyError s c c1 Hinv Hh) as (? & ? & ?).
      repeat split; auto. intros c_end Hend. constructor. eauto.
    + injection Hrun as <- <-.
      destruct (handler_returns s c r c1 Hinv Hh) as (? & ? & ?).
      repeat split; auto. intros c_end Hend. constructor. eauto.
  - unfold or_verbatim in Hrun. simpl in Hrun.
    destruct ((VList <$> format_list (types handler) l []) c)
      as [[e|x] c1] eqn:Hl.
    + apply fmap_cases in Hl as [(e' & [= <-] & Hl)|(x & _ & [=])].
      destruct e; try discriminate.
      by apply format_list_not_KeyError in Hl.
    + injection Hrun as <- <-.
      apply fmap_inr in Hl as (l' & Hl & ->).
      destruct (format_list_walked l IH Hwf [] c l' c1 Hinv Hl)
        as (? & ? & l'' & -> & Hall).
      repeat split; auto. intros c_end Hend. constructor. by apply Hall.
  - unfold or_verbatim in Hrun. simpl in Hrun. simpl in Hwf.
    apply andb_true_iff in Hwf as [Hkeys Hwf].
    destruct ((VDict <$> format_dict (types handler) d []) c)
      as [[e|x] c1] eqn:Hd.
    + apply fmap_cases in Hd as [(e' & [= <-] & Hd)|(x & _ & [=])].
      destruct e; try discriminate.
      by apply format_dict_not_KeyError in Hd.
    + injection Hrun as <- <-.
      apply fmap_inr in Hd as (d' & Hd & ->).
      destruct (format_dict_walked d IH Hkeys Hwf [] c d' c1) as
        (? & ? & d'' & -> & Hall); auto.
      repeat split; auto. intros c_end Hend. constructor. by apply Hall.
Qed.

(** The rule for [format_dictionary]. *)
Lemma format_dictionary_walked input_dict c new_args c' :
  well_formed (VDict input_dict) = true ->
  Inv c ->
  format_dictionary handler input_dict c = (inr new_args, c') ->
  Inv c' /\ le c c' /\ rewritten (R c') (VDict input_dict) (VDict new_args).
Proof.
  intros Hwf Hinv Hrun. simpl in Hwf.
  apply andb_true_iff in Hwf as [Hkeys Hwf].
  destruct (format_dict_walked input_dict) with (new_dict := @nil (string * value))
    (c := c) (d' := new_args) (c' := c') as (? & ? & d'' & -> & Hall); auto.
  - apply Forall_forall. intros item _. apply every_value_walked.
  - repeat split; auto. constructor. by apply Hall.
Qed.

End Walk.

(** ** Places in a rewritten tree *)

Lemma rewritten_dict_get R d d' k x :
  Forall2 (fun item item' : string * value =>
             fst item = fst item' /\ rewritten R (snd item) (snd item')) d d' ->
  dict_get d k = Some x ->
  exists y, dict_get d' k = Some y /\ rewritten R x y.
Proof.
  induction 1 as [|[k0 v0] [k1 v1] d d' [Hk Hv] Hrest IH]; simpl; [done|].
  simpl in Hk, Hv. subst k1.
  destruct (String.eqb k0 k); [intros [= <-]; eauto|done].
Qed.

Lemma rewritten_get_at R place :
  forall v v' s,
    rewritten R v v' ->
    get_at v place = Some (VStr s) ->
    exists r, get_at v' place = Some (VStr r) /\ R s r.
Proof.
  induction place as [|[k|i] place IH]; intros v v' s Hrew; simpl.
  - intros [= ->]. inversion Hrew; subst. eauto.
  - destruct v as [| | | | |d]; try done.
    inversion Hrew as [| | | | |d0 d' Hall]; subst.
    destruct (dict_get d k) as [x|] eqn:Hx; [|done].
    destruct (rewritten_dict_get _ _ _ _ _ Hall Hx) as (y & -> & Hxy).
    by apply IH.
  - destruct v as [| | | |l|]; try done.
    inversion Hrew as [| | | |l0 l' Hall|]; subst.
    destruct (l !! i) as [x|] eqn:Hx; [|done].
    destruct (Forall2_lookup_l _ _ _ _ _ Hall Hx) as (y & -> & Hxy).
    by apply IH.
Qed.

(** ** Paths *)

Lemma split_parts_relative s :
  Forall (fun part => posixpath.isabs part = false) (posixpath.split s).
Proof.
  induction s as [|c s IH]; simpl.
  - by constructor.
  - destruct (Ascii.eqb_spec c "/") as [->|Hc].
    + by constructor.
    + assert (Hhead : forall part, posixpath.isabs (String c part) = false).
      { intros part. unfold posixpath.isabs.
        change (String.prefix "/" (String c part))
          with (if ascii_dec "/" c then String.prefix "" part else false).
        destruct (ascii_dec "/" c) as [E|]; [by destruct Hc|done]. }
      destruct (posixpath.split s) as [|part parts].
      * constructor; [apply Hhead|constructor].
      * inversion IH; subst. constructor; [apply Hhead|assumption].
Qed.

Lemma basename_relative s : posixpath.isabs (posixpath.basename s) = false.
Proof.
  unfold posixpath.basename.
  pose proof (split_parts_relative s) as H.
  induction H as [|part parts Hpart Hparts IH]; [done|].
  simpl. by destruct parts.
Qed.

(** ** The steps of [collect_parameters] *)

Lemma write_file_log os path c st r st' :
  write_file os path c st = (r, st') ->
  (r = inr tt /\ log st' = (log st ++ [Wrote (abspath os path) c])%list)
  \/ (st' = st /\ exists e, r = inl e).
Proof.
  unfold write_file.
  destruct (_ && _); [|intros [= <- <-]; eauto].
  destruct (fs st !! abspath os path) as [[|c0]|];
    destruct (fs st !! posixpath.dirname (abspath os path)) as [[|c1]|];
    intros [= <- <-]; eauto.
Qed.

Lemma make_archive_log os base_name root_dir st r st' :
  make_archive os base_name root_dir st = (r, st') ->
  (log st' = (log st ++ [MadeArchive (abspath os base_name ++ ".tar.gz")
                                     (abspath os root_dir)])%list)
  \/ st' = st.
Proof.
  unfold make_archive.
  destruct (lookup_path os (fs st) root_dir) as [[|c]|];
    try (intros [= <- <-]; by right).
  destruct (fs st !! (abspath os base_name ++ ".tar.gz")%string) as [[|c]|];
    try (intros [= <- <-]; by right);
    destruct (make_missing _ _) as [files|];
    intros [= <- <-]; try (by right); by left.
Qed.

Lemma reserved_false k :
  reserved k = false ->
  "workspace_dir" <> k /\ "suffix" <> k /\ "results_suffix" <> k.
Proof.
  unfold reserved, reserved_keys. cbn [existsb fst]. rewrite !orb_false_iff.
  intros (H1 & H2 & H3 & _).
  apply String.eqb_neq in H1, H2, H3. auto.
Qed.

Lemma reserved_true k :
  reserved k = true ->
  k = "workspace_dir" \/ k = "suffix" \/ k = "results_suffix".
Proof.
  unfold reserved, reserved_keys. cbn [existsb fst]. rewrite !orb_true_iff.
  intros [H|[H|[H|H]]]; try discriminate; apply String.eqb_eq in H; auto.
Qed.

(** What is set aside and what is put back. *)
Lemma set_aside_reserved parameters stripped ignored_keys :
  set_aside reserved_keys parameters [] = (stripped, ignored_keys) ->
  (forall k, reserved k = false -> dict_get stripped k = dict_get parameters k)
  /\ (distinct (map fst parameters) = true ->
      distinct (map fst stripped) = true
      /\ dict_get stripped "workspace_dir" = None)
  /\ (forall Q : value -> bool,
        forallb (fun item => Q (snd item)) parameters = true ->
        forallb (fun item => Q (snd item)) stripped = true)
  /\ (forall new_args,
        dict_get (restore ignored_keys new_args) "workspace_dir"
        = dict_get new_args "workspace_dir")
  /\ (forall new_args k, reserved k = false ->
        dict_get (restore ignored_keys new_args) k = dict_get new_args k)
  /\ (forall new_args v, dict_get parameters "suffix" = Some v ->
        dict_get (restore ignored_keys new_args) "suffix" = Some v)
  /\ (forall new_args v, dict_get parameters "results_suffix" = Some v ->
        dict_get (restore ignored_keys new_args) "results_suffix" = Some v).
Proof.
  intros H. unfold reserved_keys in H. simpl in H.
  destruct (dict_get parameters "workspace_dir") as [ws|] eqn:Hws;
    rewrite ?dict_get_del_ne in H by discriminate;
    destruct (dict_get parameters "suffix") as [suffix|] eqn:Hsuffix;
    rewrite ?dict_get_del_ne in H by discriminate;
    destruct (dict_get parameters "results_suffix") as [results|] eqn:Hresults;
    injection H as <- <-.
  all: split;
    [intros k Hk; apply reserved_false in Hk as (? & ? & ?);
     by rewrite ?dict_get_del_ne by done|].
  all: split;
    [intros Hd; split;
     [by repeat apply distinct_del|
      rewrite ?dict_get_del_ne by discriminate;
      first [by apply dict_get_del_eq | exact Hws]]|].
  all: split; [intros Q HQ; by repeat apply forallb_del|].
  all: split;
    [intros new_args; simpl;
     by rewrite ?dict_get_set_ne by discriminate|].
  all: split;
    [intros new_args k Hk; apply reserved_false in Hk as (? & ? & ?); simpl;
     by rewrite ?dict_get_set_ne by done|].
  all: split; intros new_args v Hv; simpl;
    rewrite ?dict_get_set_ne by discriminate;
    rewrite ?dict_get_set_eq; congruence.
Qed.

Lemma format_dict_keeps_keys {S : Type} (types : value -> comp S exn value)
    parameter new_dict c d' c' k :
  format_dict types parameter new_dict c = (inr d', c') ->
  dict_get new_dict k = None ->
  dict_get parameter k = None ->
  dict_get d' k = None.
Proof.
  revert new_dict c. induction parameter as [|[key v] rest IH];
    intros new_dict c; simpl.
  - by intros [= <- <-].
  - intros H Hnew Hk. apply bind_inr in H as (x & c1 & _ & H).
    destruct (String.eqb_spec key k) as [->|Hne]; [done|].
    apply (IH _ _ H); [|done]. by rewrite dict_get_set_ne.
Qed.

(** A successful call, step by step. *)
Lemma collect_parameters_steps os parameters archive_uri st st' :
  collect_parameters os parameters archive_uri st = (inr tt, st') ->
  exists temp_workspace st1 st2 new_args c3 st4,
    let data_dir := posixpath.join temp_workspace "data" in
    let stripped := fst (set_aside reserved_keys parameters []) in
    let ignored_keys := snd (set_aside reserved_keys parameters []) in
    mkdtemp os "scenario_" None st = (inr temp_workspace, st1)
    /\ makedirs os data_dir st1 = (inr tt, st2)
    /\ format_dictionary (get_if_file os temp_workspace data_dir) stripped
         {| files_found := ∅; outside := st2 |} = (inr new_args, c3)
    /\ write_file os (posixpath.join temp_workspace "parameters.json")
         (Json (VDict (restore ignored_keys new_args))) (outside c3)
       = (inr tt, st4)
    /\ (exists archive,
          make_archive os (strip_tar_gz archive_uri) temp_workspace st4
          = (inr archive, st')).
Proof.
  unfold collect_parameters. intros H.
  apply bind_inr in H as (temp_workspace & st1 & Htmp & H).
  apply bind_inr in H as ([] & st2 & Hdata & H).
  destruct (set_aside reserved_keys parameters []) as [stripped ignored] eqn:Hs.
  apply bind_inr in H as (new_args & st3 & Hwalk & H).
  apply bind_inr in H as ([] & st4 & Hwrite & H).
  apply bind_inr in H as (archive & st5 & Harchive & [= <-]).
  unfold with_files_found in Hwalk.
  destruct (format_dictionary _ _ _) as [rw c3] eqn:Hfd.
  injection Hwalk as -> <-.
  exists temp_workspace, st1, st2, new_args, c3, st4. simpl.
  repeat split; eauto.
Qed.

(** ** Reserved keys and the walk *)

Lemma dict_del_set_eq {A : Type} (d : list (string * A)) k v :
  dict_has d k = true -> dict_del (dict_set d k v) k = dict_del d k.
Proof.
  unfold dict_has. induction d as [|[k0 v0] d IH]; simpl; [done|].
  destruct (String.eqb k0 k) eqn:E; simpl; rewrite E; [done|].
  intros H. by rewrite IH.
Qed.

Lemma dict_del_set_ne {A : Type} (d : list (string * A)) k k' v :
  k <> k' -> dict_del (dict_set d k v) k' = dict_set (dict_del d k') k v.
Proof.
  intros Hne. induction d as [|[k0 v0] d IH]; simpl.
  - apply String.eqb_neq in Hne. by rewrite Hne.
  - destruct (String.eqb_spec k0 k) as [->|Hk]; simpl.
    + apply String.eqb_neq in Hne. rewrite Hne. simpl.
      by rewrite String.eqb_refl.
    + destruct (String.eqb_spec k0 k') as [->|Hk']; [done|]. simpl.
      apply String.eqb_neq in Hk. by rewrite Hk, IH.
Qed.

Lemma set_aside_fst_acc keys parameters acc acc' :
  fst (set_aside keys parameters acc) = fst (set_aside keys parameters acc').
Proof.
  revert parameters acc acc'.
  induction keys as [|[key restore_key] keys IH]; intros parameters acc acc';
    simpl; [done|].
  destruct (dict_get parameters key); apply IH.
Qed.

(** The mapping that is walked does not depend on the value held under a
    key that is set aside. *)
Lemma set_aside_dict_set keys k v' :
  forall parameters acc acc',
    In k (map fst keys) ->
    dict_has parameters k = true ->
    fst (set_aside keys (dict_set parameters k v') acc)
    = fst (set_aside keys parameters acc').
Proof.
  induction keys as [|[key restore_key] keys IH];
    intros parameters acc acc' Hin Hhas; simpl; [done|].
  destruct (String.eqb_spec key k) as [->|Hne].
  - rewrite dict_get_set_eq, dict_del_set_eq by done.
    unfold dict_has in Hhas.
    destruct (dict_get parameters k); [|done]. apply set_aside_fst_acc.
  - rewrite dict_get_set_ne by done.
    destruct Hin as [Hin|Hin]; [by destruct Hne|].
    destruct (dict_get parameters key).
    + rewrite dict_del_set_ne by done. apply IH; [done|].
      unfold dict_has. rewrite dict_get_del_ne by done. exact Hhas.
    + by apply IH.
Qed.

Lemma staged_calls_snoc events e :
  staged_calls (events ++ [e])%list
  = (staged_calls events ++ staged_calls [e])%list.
Proof. apply List.filter_app. Qed.

(** Writing the document and making the archive stage nothing. *)
Lemma document_and_archive_stage_nothing os path c base_name root_dir st r st' :
  (write_file os path c;; make_archive os base_name root_dir;; mret tt) st
  = (r, st') ->
  staged_calls (log st') = staged_calls (log st).
Proof.
  intros H. apply bind_cases in H.
  destruct H as [(e & -> & H)|([] & st1 & Hw & H)].
  - apply write_file_log in H as [[[=] _]|[-> _]]. done.
  - apply write_file_log in Hw as [[_ Hw]|[-> _]].
    + assert (staged_calls (log st1) = staged_calls (log st)) as <-.
      { rewrite Hw, staged_calls_snoc. simpl. apply app_nil_r. }
      apply bind_cases in H.
      destruct H as [(e & -> & H)|(a & st2 & Ha & [= <- <-])];
        [apply make_archive_log in H|apply make_archive_log in Ha].
      * destruct H as [-> | ->]; [|done].
        rewrite staged_calls_snoc. simpl. apply app_nil_r.
      * destruct Ha as [-> | ->]; [|done].
        rewrite staged_calls_snoc. simpl. apply app_nil_r.
    + apply bind_cases in H.
      destruct H as [(e & -> & H)|(a & st2 & Ha & [= <- <-])];
        [apply make_archive_log in H|apply make_archive_log in Ha].
      * destruct H as [-> | ->]; [|done].
        rewrite staged_calls_snoc. simpl. apply app_nil_r.
      * destruct Ha as [-> | ->]; [|done].
        rewrite staged_calls_snoc. simpl. apply app_nil_r.
Qed.

(** Two computations that start with the same step and are compared by a
    reflexive relation on the states they reach. *)
Lemma bind_same {S E A B : Type} (Q : S -> S -> Prop)
    (m : comp S E A) (f g : A -> comp S E B) st r1 s1 r2 s2 :
  (forall s, Q s s) ->
  (m ≫= f) st = (r1, s1) ->
  (m ≫= g) st = (r2, s2) ->
  (forall x st0, f x st0 = (r1, s1) -> g x st0 = (r2, s2) -> Q s1 s2) ->
  Q s1 s2.
Proof.
  unfold mbind, comp_bind. intros Hrefl.
  destruct (m st) as [[e|x] st0].
  - intros [= <- <-] [= <- <-] _. apply Hrefl.
  - intros H1 H2 H. by apply (H x st0).
Qed.

(** [collect_parameters], with the pair that [set_aside] returns spelled
    out. *)
Lemma collect_parameters_unfold os parameters archive_uri :
  collect_parameters os parameters archive_uri =
  (temp_workspace ← mkdtemp os "scenario_" None;
   makedirs os (posixpath.join temp_workspace "data");;
   new_args ←
     with_files_found ∅
       (format_dictionary
          (get_if_file os temp_workspace (posixpath.join temp_workspace "data"))
          (fst (set_aside reserved_keys parameters [])));
   write_file os (posixpath.join temp_workspace "parameters.json")
     (Json (VDict (restore (snd (set_aside reserved_keys parameters []))
                           new_args)));;
   make_archive os (strip_tar_gz archive_uri) temp_workspace;;
   mret tt).
Proof.
  unfold collect_parameters.
  destruct (set_aside reserved_keys parameters []). reflexivity.
Qed.

(** Two ParameterSets that agree once the reserved keys are set aside have
    the same data staged, however the two calls end. *)
Lemma same_walk_same_staging os parameters1 parameters2 archive_uri st
    r1 st1 r2 st2 :
  fst (set_aside reserved_keys parameters1 [])
  = fst (set_aside reserved_keys parameters2 []) ->
  collect_parameters os parameters1 archive_uri st = (r1, st1) ->
  collect_parameters os parameters2 archive_uri st = (r2, st2) ->
  staged_calls (log st1) = staged_calls (log st2).
Proof.
  intros Hsame H1 H2. rewrite collect_parameters_unfold in H1, H2.
  rewrite <- Hsame in H2.
  apply (bind_same (fun a b => staged_calls (log a) = staged_calls (log b))
           _ _ _ _ _ _ _ _ (fun _ => eq_refl) H1 H2).
  clear H1 H2. intros temp_workspace sa H1 H2.
  apply (bind_same (fun a b => staged_calls (log a) = staged_calls (log b))
           _ _ _ _ _ _ _ _ (fun _ => eq_refl) H1 H2).
  clear H1 H2. intros [] sb H1 H2.
  apply (bind_same (fun a b => staged_calls (log a) = staged_calls (log b))
           _ _ _ _ _ _ _ _ (fun _ => eq_refl) H1 H2).
  clear H1 H2. intros new_args sc H1 H2.
  apply document_and_archive_stage_nothing in H1.
  apply document_and_archive_stage_nothing in H2.
  by rewrite H1, H2.
Qed.

(** C7, as the code has it.  When an archiving call succeeds on a
    ParameterSet (a mapping with distinct keys), its parameters document
    holds [suffix] and [results_suffix] with the very values the input had
    for them, whatever these are, and holds no [workspace_dir]: that key is
    removed and not put back.  And the three keys take no part in the walk:
    replacing the value under one of them, by a path to an existing file or
    anything else, leaves the staged data the same. *)
Theorem reserved_keys_are_set_aside os parameters archive_uri st st' :
  distinct (dict_keys parameters) = true ->
  collect_parameters os parameters archive_uri st = (inr tt, st') ->
  exists new_args,
    parameters_document (log st') = Some new_args
    /\ (forall v, dict_get parameters "suffix" = Some v ->
                  dict_get new_args "suffix" = Some v)
    /\ (forall v, dict_get parameters "results_suffix" = Some v ->
                  dict_get new_args "results_suffix" = Some v)
    /\ dict_get new_args "workspace_dir" = None
    /\ (forall k v' r2 st2,
          reserved k = true ->
          dict_has parameters k = true ->
          collect_parameters os (dict_set parameters k v') archive_uri st
          = (r2, st2) ->
          staged_calls (log st2) = staged_calls (log st')).
Proof.
  intros Hdistinct Hrun.
  destruct (collect_parameters_steps _ _ _ _ _ Hrun)
    as (temp_workspace & st1 & st2 & walked_args & c3 & st4
        & _ & _ & Hwalk & Hwrite & archive & Harchive).
  destruct (set_aside reserved_keys parameters []) as [stripped ignored] eqn:Hs.
  simpl in Hwalk, Hwrite.
  destruct (set_aside_reserved _ _ _ Hs)
    as (_ & Hkeys & _ & Hws & _ & Hsuffix & Hresults).
  destruct (Hkeys Hdistinct) as [_ Hnone].
  exists (restore ignored walked_args).
  apply write_file_log in Hwrite as [[_ Hlog4]|[_ [e [=]]]].
  assert (Hlog : parameters_document (log st')
                 = Some (restore ignored walked_args)).
  { apply make_archive_log in Harchive as [-> | ->].
    - by rewrite parameters_document_snoc, Hlog4, parameters_document_snoc.
    - by rewrite Hlog4, parameters_document_snoc. }
  split; [exact Hlog|]. split; [auto|]. split; [auto|]. split.
  - rewrite Hws.
    by apply (format_dict_keeps_keys _ _ _ _ _ _ _ Hwalk).
  - intros k v' r2 st2' Hk Hhas Hrun2.
    apply (same_walk_same_staging os (dict_set parameters k v') parameters
             archive_uri st r2 st2' (inr tt) st'); [|done|done].
    apply set_aside_dict_set; [|done].
    apply reserved_true in Hk as [-> | [-> | ->]]; simpl; auto.
Qed.

Lemma reserved_keys_are_set_aside_witness :
  exists new_args,
    parameters_document
      (log (snd (collect_parameters plain_os workspace_parameters
                   "/out/scenario.tar.gz" disk))) = Some new_args
    /\ dict_get new_args "results_suffix" = Some (VStr "v2")
    /\ dict_get new_args "workspace_dir" = None.
Proof.
  destruct (reserved_keys_are_set_aside plain_os workspace_parameters
              "/out/scenario.tar.gz" disk
              (snd (collect_parameters plain_os workspace_parameters
                      "/out/scenario.tar.gz" disk)))
    as (new_args & Hdoc & _ & Hresults & Hws & _).
  - vm_compute. reflexivity.
  - vm_compute. reflexivity.
  - exists new_args. split; [exact Hdoc|]. split; [|exact Hws].
    apply Hresults. reflexivity.
Defined.

(** * Further properties of cli.py *)

(** ** Every name of the catalogue selects its model *)

Lemma insert_sorted_In x y l : In y (insert_sorted x l) <-> y = x \/ In y l.
Proof.
  induction l as [|z l IH]; simpl; [intuition|].
  destruct (String.leb x z); simpl; [intuition|]. rewrite IH. intuition.
Qed.

Lemma sorted_In y l : In y (sorted l) <-> In y l.
Proof.
  induction l as [|x l IH]; simpl; [done|].
  rewrite insert_sorted_In, IH. intuition.
Qed.

Lemma insert_sorted_NoDup x l :
  ~ In x l -> NoDup l -> NoDup (insert_sorted x l).
Proof.
  induction l as [|z l IH]; simpl; intros Hx Hl.
  - constructor; [by intros ?%elem_of_nil|constructor].
  - destruct (String.leb x z).
    + constructor; [|done]. rewrite list_elem_of_In. simpl. tauto.
    + apply NoDup_cons in Hl as [Hz Hl]. rewrite list_elem_of_In in Hz.
      constructor.
      * rewrite list_elem_of_In, insert_sorted_In. intros [->|?]; tauto.
      * apply IH; tauto.
Qed.

Lemma sorted_NoDup l : NoDup l -> NoDup (sorted l).
Proof.
  induction 1 as [|x l Hx Hl IH]; simpl; [constructor|].
  apply insert_sorted_NoDup; [|done].
  rewrite sorted_In. by rewrite <- list_elem_of_In.
Qed.

Lemma distinct_NoDup keys : distinct keys = true -> NoDup keys.
Proof.
  induction keys as [|k keys IH]; simpl; [constructor|].
  rewrite andb_true_iff, negb_true_iff. intros [Hk Hkeys].
  constructor; [|auto]. rewrite list_elem_of_In. intros Hin.
  by destruct (existsb_eqb_false _ _ Hk k Hin).
Qed.

Lemma filter_eq_NoDup (v : string) l :
  NoDup l -> In v l -> filter (fun m => m = v) l = [v].
Proof.
  induction 1 as [|x l Hx Hl IH]; simpl; [done|].
  intros [->|Hin].
  - rewrite filter_cons_True by done. f_equal.
    apply elem_of_nil_inv. intros y [-> Hy]%list_elem_of_filter. done.
  - rewrite filter_cons_False; [auto|]. intros ->.
    apply Hx. by apply list_elem_of_In.
Qed.

Lemma prefix_refl s : String.prefix s s = true.
Proof.
  induction s as [|c s IH]; simpl; [done|].
  by destruct (ascii_dec c c).
Qed.

(** X1.  In a catalogue whose aliases do not clash, the full name of a
    model always selects that model, also when other names start with it
    (as [fisheries_hst] starts with [fisheries]): the unique-prefix test
    fails then, and the exact match decides. *)
Theorem identifier_selects_its_model MODEL_UIS known_aliases modelname :
  distinct (dict_keys MODEL_UIS) = true ->
  collect_aliases MODEL_UIS ∅ = inr known_aliases ->
  In modelname (dict_keys MODEL_UIS) ->
  modelname <> "" ->
  SelectModelAction_call MODEL_UIS (Some modelname) = SetModel modelname.
Proof.
  intros Hd Ha Hin Hne.
  assert (Hk : In modelname (list_models MODEL_UIS))
    by (by apply sorted_In).
  assert (Hexact : filter (fun m => m = modelname) (list_models MODEL_UIS)
                   = [modelname]).
  { apply filter_eq_NoDup; [|done]. by apply sorted_NoDup, distinct_NoDup. }
  destruct (SelectModelAction_call_cases MODEL_UIS modelname known_aliases
              Hne Ha) as (Hunique & Hexact' & _).
  destruct (decide (length (filter (fun m => String.prefix modelname m = true)
                                   (list_models MODEL_UIS)) = 1%nat))
    as [Hone|Hmany].
  - destruct (filter _ _) as [|m [|]] eqn:E in Hone; try done.
    rewrite (Hunique m E). f_equal.
    assert (Hm : modelname ∈ [m]).
    { rewrite <- E. apply list_elem_of_filter. split; [apply prefix_refl|].
      by apply list_elem_of_In. }
    by apply list_elem_of_singleton in Hm.
  - by apply Hexact'.
Qed.

Lemma identifier_selects_its_model_witness :
  SelectModelAction_call _MODEL_UIS (Some "fisheries") = SetModel "fisheries".
Proof.
  eapply (identifier_selects_its_model _MODEL_UIS _ "fisheries").
  - vm_compute. reflexivity.
  - vm_compute. reflexivity.
  - vm_compute. tauto.
  - discriminate.
Defined.

Lemma dict_get_key {A : Type} (d : list (string * A)) k :
  In k (dict_keys d) -> exists v, dict_get d k = Some v.
Proof.
  induction d as [|[k' v] d IH]; simpl; [done|].
  destruct (String.eqb_spec k' k) as [->|Hne]; [eauto|].
  intros [?|?]; [done|auto].
Qed.

(** X3.  The name that [SelectModelAction] stores is always a key of the
    catalogue, whatever was typed: the lookup [_MODEL_UIS[args.model]] that
    [main] starts with cannot raise [KeyError]. *)
Theorem selected_model_is_in_the_catalogue MODEL_UIS values modelname :
  SelectModelAction_call MODEL_UIS values = SetModel modelname ->
  exists meta, dict_get MODEL_UIS modelname = Some meta.
Proof.
  intros H. apply dict_get_key.
  assert (Hfilter : forall (P : string -> Prop) `{!forall x, Decision (P x)} rest,
             filter P (list_models MODEL_UIS) = modelname :: rest ->
             In modelname (dict_keys MODEL_UIS)).
  { intros P ? rest E. apply sorted_In, list_elem_of_In.
    assert (Hm : modelname ∈ filter P (list_models MODEL_UIS))
      by (rewrite E; left).
    by apply list_elem_of_filter in Hm as [_ Hm]. }
  unfold SelectModelAction_call in H.
  destruct values as [values|]; [|done].
  destruct (String.eqb values ""); [done|].
  destruct (collect_aliases MODEL_UIS ∅) as [e|known_aliases] eqn:Ha; [done|].
  destruct (Nat.eqb _ 1).
  { destruct (filter _ _) as [|m rest] eqn:E; [done|].
    injection H as ->. by eapply Hfilter. }
  destruct (Nat.eqb _ 1).
  { destruct (filter (fun model => model = values) _) as [|m rest] eqn:E;
      [done|].
    injection H as ->. by eapply Hfilter. }
  destruct (known_aliases !! values) as [m|] eqn:Hm.
  - injection H as ->.
    apply (collect_aliases_lookup _ _ _ Ha) in Hm as [Hm|(meta & Hin & _)].
    + by rewrite lookup_empty in Hm.
    + apply in_map_iff. by exists (modelname, meta).
  - by destruct (Nat.eqb _ 0).
Qed.

Lemma selected_model_is_in_the_catalogue_witness :
  exists meta, dict_get _MODEL_UIS "coastal_blue_carbon" = Some meta.
Proof.
  apply (selected_model_is_in_the_catalogue _MODEL_UIS (Some "cbc")).
  vm_compute. reflexivity.
Defined.

(** X2.  Every alias listed in [_MODEL_UIS] selects the model it is listed
    under: none of them is taken by the prefix or exact-match tests that
    come first. *)
Theorem every_alias_selects_its_model modelname meta alias :
  In (modelname, meta) _MODEL_UIS ->
  In alias (aliases meta) ->
  SelectModelAction_call _MODEL_UIS (Some alias) = SetModel modelname.
Proof.
  intros Hm Ha.
  assert (H : Forall (fun item =>
                Forall (fun a => SelectModelAction_call _MODEL_UIS (Some a)
                                 = SetModel (fst item))
                       (aliases (snd item))) _MODEL_UIS).
  { repeat first [apply List.Forall_nil | apply List.Forall_cons];
      vm_compute; reflexivity. }
  rewrite List.Forall_forall in H. specialize (H _ Hm).
  rewrite List.Forall_forall in H. exact (H _ Ha).
Qed.

Lemma every_alias_selects_its_model_witness :
  SelectModelAction_call _MODEL_UIS (Some "hra")
  = SetModel "habitat_risk_assessment".
Proof.
  apply (every_alias_selects_its_model "habitat_risk_assessment"
           (_UIMETA "natcap.invest.habitat_risk_assessment.hra"
                    (Some "hra.HabitatRiskAssessment") ["hra"]) "hra").
  - vm_compute. tauto.
  - vm_compute. tauto.
Defined.

(** X4.  The level set on the log handler lies between [logging.DEBUG]
    and [logging.CRITICAL] whatever the options.  With [--debug] it is
    [DEBUG]; without, every [-v] lowers it by 10 from [CRITICAL], and four
    of them reach [DEBUG], below which it does not go. *)
Theorem handler_level_is_clamped (flag_debug : bool) (verbosity : nat) :
  (DEBUG <= handler_level flag_debug verbosity <= CRITICAL)%Z
  /\ handler_level true verbosity = DEBUG
  /\ handler_level false verbosity
     = (CRITICAL - 10 * Z.of_nat (Nat.min verbosity 4))%Z
  /\ (handler_level flag_debug verbosity = DEBUG
      <-> flag_debug = true \/ 4 <= verbosity).
Proof.
  unfold handler_level, CRITICAL, DEBUG.
  destruct flag_debug; repeat split; intros; try lia; intuition (try done; lia).
Qed.
(** ** The overwrite prompt *)

Section Prompt.
Local Abbreviation again := (RawInput "Response must be either 'y' or 'n': ").

Lemma ask_until_answer_now user_response lines tr :
  is_answer user_response = true ->
  ask_until_answer user_response lines tr
  = (inr user_response, {| trace := tr; stdin := lines |}).
Proof.
  unfold is_answer. intros H. destruct lines; simpl; by rewrite H.
Qed.

Lemma ask_until_answer_skips garbage : forall user_response answer rest tr,
  is_answer user_response = false ->
  Forall (fun line => is_answer line = false) garbage ->
  is_answer answer = true ->
  ask_until_answer user_response (garbage ++ answer :: rest)%list tr
  = (inr answer,
     {| trace := (tr ++ repeat again (S (length garbage)))%list;
        stdin := rest |}).
Proof.
  induction garbage as [|g garbage IH]; intros ur answer rest tr Hur Hg Ha.
  - simpl app. unfold is_answer in Hur. simpl. rewrite Hur.
    by rewrite ask_until_answer_now.
  - apply Forall_cons in Hg as [Hg Hrest].
    unfold is_answer in Hur. simpl. rewrite Hur.
    rewrite IH by done. f_equal. f_equal.
    rewrite <- app_assoc. done.
Qed.

Lemma ask_until_answer_runs_out lines : forall user_response tr,
  is_answer user_response = false ->
  Forall (fun line => is_answer line = false) lines ->
  ask_until_answer user_response lines tr
  = (inl (Uncaught EOFError),
     {| trace := (tr ++ repeat again (S (length lines)))%list;
        stdin := [] |}).
Proof.
  induction lines as [|g lines IH]; intros ur tr Hur Hg;
    unfold is_answer in Hur; simpl; rewrite Hur; [done|].
  apply Forall_cons in Hg as [Hg Hrest].
  rewrite IH by done. f_equal. f_equal. by rewrite <- app_assoc.
Qed.

(** X5.  The overwrite prompt, for a workspace that exists and is not
    empty, without [--overwrite], at a terminal.  Lines other than [y] and
    [n] are asked again, one prompt each; the first [y] lets the run go on
    with a warning, the first [n] ends it with exit status 2, what follows
    the answer is left unread, and an input that runs out before an answer
    ends the run with an uncaught [EOFError]. *)
Theorem prompt_takes_the_first_answer env args_workspace args entries w :
  os_path_exists env args_workspace = true ->
  os_listdir env args_workspace = inr entries ->
  entries <> [] ->
  overwrite args = false ->
  stdout_isatty env = true ->
  let asked :=
    RawInput ("Workspace exists: " ++ os_path_abspath env args_workspace
                ++ newline ++ "    Overwrite? (y/n) ") in
  let overwriting :=
    LogWarn ("Overwriting the workspace per user input "
               ++ os_path_abspath env args_workspace) in
  (forall garbage rest,
      Forall (fun line => is_answer line = false) garbage ->
      stdin w = (garbage ++ "y" :: rest)%list ->
      confirm_overwrite env args_workspace args w
      = (inr tt,
         {| trace := (trace w ++ asked :: repeat again (length garbage)
                        ++ [overwriting])%list;
            stdin := rest |}))
  /\ (forall garbage rest,
        Forall (fun line => is_answer line = false) garbage ->
        stdin w = (garbage ++ "n" :: rest)%list ->
        confirm_overwrite env args_workspace args w
        = (inl (SystemExit (StatusInt 2) (Some use_workspace_aborting)),
           {| trace := (trace w ++ asked :: repeat again (length garbage))%list;
              stdin := rest |}))
  /\ (Forall (fun line => is_answer line = false) (stdin w) ->
      confirm_overwrite env args_workspace args w
      = (inl (Uncaught EOFError),
         {| trace := (trace w ++ asked :: repeat again (length (stdin w)))%list;
            stdin := [] |})).
Proof.
  intros Hex Hls Hne Hov Htty asked overwriting.
  assert (Hstart :
    confirm_overwrite env args_workspace args w
    = (overwrite_denied ←
         (first ← raw_input ("Workspace exists: "
                               ++ os_path_abspath env args_workspace
                               ++ newline ++ "    Overwrite? (y/n) ");
          user_response ← reprompt first;
          mret (String.eqb user_response "n"));
       if (overwrite_denied : bool) then
         stop_with (SystemExit (StatusInt 2) (Some use_workspace_aborting))
       else emit overwriting) w).
  { unfold confirm_overwrite. rewrite Hex, Hls, Hov, Htty.
    destruct entries; done. }
  assert (Hanswer : forall answer garbage rest,
    is_answer answer = true ->
    Forall (fun line => is_answer line = false) garbage ->
    stdin w = (garbage ++ answer :: rest)%list ->
    (first ← raw_input ("Workspace exists: "
                          ++ os_path_abspath env args_workspace
                          ++ newline ++ "    Overwrite? (y/n) ");
     reprompt first) w
    = (inr answer,
       {| trace := (trace w ++ asked :: repeat again (length garbage))%list;
          stdin := rest |})).
  { intros answer garbage rest Ha Hg Hin.
    unfold mbind, comp_bind, raw_input, reprompt. rewrite Hin.
    destruct garbage as [|g garbage]; simpl.
    - by rewrite ask_until_answer_now.
    - apply Forall_cons in Hg as [Hg Hrest].
      rewrite ask_until_answer_skips by done. f_equal. f_equal.
      by rewrite <- app_assoc. }
  split; [|split].
  - intros garbage rest Hg Hin. rewrite Hstart.
    specialize (Hanswer "y" garbage rest eq_refl Hg Hin).
    unfold mbind, comp_bind in *.
    destruct (raw_input _ w) as [[s|first] w1]; [done|].
    rewrite Hanswer. simpl. unfold emit. simpl. f_equal. f_equal.
    rewrite <- app_assoc. done.
  - intros garbage rest Hg Hin. rewrite Hstart.
    specialize (Hanswer "n" garbage rest eq_refl Hg Hin).
    unfold mbind, comp_bind in *.
    destruct (raw_input _ w) as [[s|first] w1]; [done|].
    rewrite Hanswer. done.
  - intros Hg. rewrite Hstart.
    unfold mbind, comp_bind, raw_input, reprompt.
    destruct (stdin w) as [|g lines]; [done|]. simpl.
    apply Forall_cons in Hg as [Hg Hrest].
    rewrite ask_until_answer_runs_out by done. f_equal. f_equal.
    by rewrite <- app_assoc.
Qed.

End Prompt.

Lemma prompt_takes_the_first_answer_witness :
  confirm_overwrite (terminal scenarios_with_reader) "/ws"
    (parse_options headless_carbon_in_ws "carbon")
    {| trace := []; stdin := ["maybe"; "n"; "y"] |}
  = (inl (SystemExit (StatusInt 2) (Some use_workspace_aborting)),
     {| trace :=
          [RawInput ("Workspace exists: /ws" ++ newline
                       ++ "    Overwrite? (y/n) ");
           RawInput "Response must be either 'y' or 'n': "];
        stdin := ["y"] |}).
Proof.
  apply (proj1 (proj2
    (prompt_takes_the_first_answer (terminal scenarios_with_reader) "/ws"
       (parse_options headless_carbon_in_ws "carbon") ["carbon_old.tif"]
       {| trace := []; stdin := ["maybe"; "n"; "y"] |}
       eq_refl eq_refl ltac:(discriminate) eq_refl eq_refl)) ["maybe"] ["y"]).
  - repeat constructor.
  - reflexivity.
Defined.

(** ** What a run adds and how it ends *)

Section Confined.
Variable P : event -> Prop.
Variable Q : stop -> Prop.

Lemma confined_ret {A : Type} (x : A) : confined P Q (mret x).
Proof. split; [apply adds_only_ret|]. by intros w r w' [= <- <-]. Qed.

Lemma confined_stop {A : Type} (s : stop) :
  Q s -> confined P Q (stop_with s : run A).
Proof. split; [apply adds_only_stop|]. by intros w r w' [= <- <-]. Qed.

Lemma confined_emit e : P e -> confined P Q (emit e).
Proof. split; [by apply adds_only_emit|]. by intros w r w' [= <- <-]. Qed.

Lemma confined_bind {A B : Type} (m : run A) (f : A -> run B) :
  confined P Q m -> (forall x, confined P Q (f x)) -> confined P Q (m ≫= f).
Proof.
  intros [Hm Hm'] Hf. split.
  - apply adds_only_bind; [done|]. intros x. apply Hf.
  - intros w r w' H. apply bind_cases in H.
    destruct H as [(e & -> & H)|(x & w1 & H1 & H2)].
    + apply (Hm' _ _ _ H).
    + apply (proj2 (Hf x) _ _ _ H2).
Qed.

Lemma confined_with_prepare_workspace {A : Type} env ws name (body : run A) :
  P (EnterWorkspace ws name) -> P LeaveWorkspace ->
  (forall e, Q (Uncaught e)) ->
  confined P Q body ->
  confined P Q (with_prepare_workspace env ws name body).
Proof.
  intros Henter Hleave Hraise [Hbody Hbody']. split.
  - intros w r w'. unfold with_prepare_workspace.
    destruct (prepare_workspace env ws name).
    + intros [= <- <-]. exists []. by rewrite app_nil_r.
    + destruct (body _) as [r1 w1] eqn:Hrun. intros [= <- <-].
      destruct (Hbody _ _ _ Hrun) as (added & E & F). simpl in *.
      exists ([EnterWorkspace ws name] ++ added ++ [LeaveWorkspace])%list.
      split; [rewrite E; by rewrite <- !app_assoc|].
      apply Forall_app. split; [by constructor|].
      apply Forall_app. split; [done|by constructor].
  - intros w r w'. unfold with_prepare_workspace.
    destruct (prepare_workspace env ws name).
    + intros [= <- <-]. apply Hraise.
    + destruct (body _) as [r1 w1] eqn:Hrun. intros [= <- <-].
      apply (Hbody' _ _ _ Hrun).
Qed.

Lemma confined_validation target_mod paramset :
  (forall text, P (LogWarn text)) ->
  confined P Q (validation target_mod paramset).
Proof.
  intros Hwarn. split; intros w r w' H; rewrite validation_only_warns in H;
    injection H as <- <-; [|done].
  eexists. split; [done|]. by constructor.
Qed.

Lemma confined_execute model_module final_args :
  (forall owner, P (Call owner "execute" final_args)) ->
  (forall e, Q (Uncaught e)) ->
  confined P Q
    (match getattr (PyModule model_module) "execute" with
     | inl e => stop_with (Uncaught e)
     | inr f =>
         r ← call f final_args;
         match r with
         | inl e => stop_with (Uncaught e)
         | inr _ => mret tt
         end
     end).
Proof.
  intros Hcall Hraise. unfold getattr.
  destruct (dict_get (module_attrs model_module) "execute");
    [|by apply confined_stop].
  apply confined_bind.
  - apply confined_bind; [by apply confined_emit|]. intros _.
    apply confined_ret.
  - intros [e|l]; [by apply confined_stop|apply confined_ret].
Qed.
End Confined.

Lemma overwrite_flag_confines env args :
  overwrite args = true ->
  confined (fun e => forall prompt, e <> RawInput prompt)
           (fun s => headless args = true ->
                     forall message, s <> SystemExit (StatusInt 2) message)
           (main env args).
Proof.
  intros Hov.
  set (P := fun e : event => forall prompt, e <> RawInput prompt).
  set (Q := fun s => headless args = true ->
                     forall message, s <> SystemExit (StatusInt 2) message).
  assert (Hemit : forall e, P e -> confined P Q (emit e))
    by apply confined_emit.
  assert (Hstop : forall (A : Type) s,
             (forall message, s <> SystemExit (StatusInt 2) message) ->
             confined P Q (stop_with s : run A)).
  { intros A s Hs. apply confined_stop. by intros _. }
  assert (Hraise : forall e, Q (Uncaught e)) by done.
  unfold main.
  destruct (import_ui env) as [[]|]; try by apply Hstop.
  { apply confined_bind; [by apply Hemit|]. intros _. by apply Hstop. }
  apply confined_bind; [by apply Hemit|]. intros _.
  destruct (headless args) eqn:Hh.
  - unfold headless_run.
    destruct (import_scenarios env) as [e|scenarios]; [by apply Hstop|].
    apply confined_bind; [by apply Hemit|]. intros _.
    destruct (dict_get _MODEL_UIS (model args)) as [meta|];
      [|by apply Hstop].
    destruct (import_module env (pyname meta)) as [e|model_module];
      [by apply Hstop|].
    apply confined_bind; [by apply Hemit|]. intros _.
    apply confined_bind; [by apply Hemit|]. intros _.
    destruct (read_parameter_set scenarios) as [reader|];
      [|by apply Hstop].
    apply confined_bind; [by apply Hemit|]. intros _.
    destruct (reader (scenario args)) as [e|paramset]; [by apply Hstop|].
    apply confined_bind.
    { destruct (truthy (workspace args)); [apply confined_ret|].
      destruct (dict_get _ _); [apply confined_ret|by apply Hstop]. }
    intros [ws paramset'].
    apply confined_with_prepare_workspace; [done..|].
    apply confined_bind; [by apply Hemit|]. intros _.
    apply confined_bind.
    { destruct (negb (validate args)); [by apply Hemit|].
      by apply confined_validation. }
    intros _. apply confined_bind; [|intros _; by apply confined_execute].
    unfold confirm_overwrite. rewrite Hov.
    destruct (os_path_exists env _); [|apply confined_ret].
    destruct (os_listdir env _) as [e|entries]; [by apply Hstop|].
    simpl negb. rewrite andb_false_r. apply confined_ret.
  - assert (Hany : forall (A : Type) s, confined P Q (stop_with s : run A)).
    { intros A s. apply confined_stop. intros ?. done. }
    unfold interactive_run.
    destruct (dict_get _MODEL_UIS (model args)) as [meta|]; [|apply Hany].
    destruct (gui meta) as [gui_class|]; [|apply Hany].
    destruct (import_ui_class env gui_class); [apply Hany|].
    apply confined_bind.
    { destruct (truthy (scenario args)) as [s|]; [|apply confined_ret].
      apply confined_bind; [by apply Hemit|]. intros _.
      destruct (load_scenario env s); [apply Hany|apply confined_ret]. }
    intros _. apply confined_bind.
    { destruct (truthy (workspace args)); [by apply Hemit|apply confined_ret]. }
    intros _. apply confined_bind; [by apply Hemit|]. intros _.
    apply confined_bind; [by apply Hemit|]. intros _.
    destruct (run_dialog_error env); [apply Hany|].
    destruct (negb _); [apply Hany|apply confined_ret].
Qed.

(** X6.  With [--overwrite] no run asks anything, and a headless run does
    not end with exit status 2, whatever the workspace holds. *)
Theorem overwrite_flag_never_prompts env args lines :
  overwrite args = true ->
  (forall prompt, ~ In (RawInput prompt) (trace (snd (run_main env args lines))))
  /\ (headless args = true ->
      forall message,
        fst (run_main env args lines)
        <> inl (SystemExit (StatusInt 2) message)).
Proof.
  intros Hov. destruct (overwrite_flag_confines env args Hov) as [Hadds Hends].
  unfold run_main.
  destruct (main env args {| trace := []; stdin := lines |}) as [r w'] eqn:H.
  simpl. split.
  - intros prompt Hin.
    destruct (Hadds _ _ _ H) as (added & E & Hall). simpl in E.
    rewrite E in Hin. rewrite List.Forall_forall in Hall.
    by apply (Hall _ Hin prompt).
  - intros Hh message ->. by apply (Hends _ _ _ H Hh message).
Qed.

Lemma overwrite_flag_never_prompts_witness :
  (forall prompt,
      ~ In (RawInput prompt)
           (trace (snd (run_main (terminal scenarios_with_reader)
                          (parse_options overwriting_carbon_in_ws "carbon")
                          ["n"]))))
  /\ fst (run_main (terminal scenarios_with_reader)
            (parse_options overwriting_carbon_in_ws "carbon") ["n"])
     = inr tt.
Proof.
  split.
  - apply (overwrite_flag_never_prompts (terminal scenarios_with_reader)
             (parse_options overwriting_carbon_in_ws "carbon") ["n"]).
    reflexivity.
  - vm_compute. reflexivity.
Defined.

(** X8.  A model whose catalogue entry has no GUI class
    ([habitat_suitability] is one) cannot be started without [--headless]:
    [_import_ui_class] calls [split] on [None], and the run ends with an
    uncaught [AttributeError] right after the UI toolkit is imported. *)
Theorem model_without_gui_crashes env args lines meta :
  import_ui env = None ->
  headless args = false ->
  dict_get _MODEL_UIS (model args) = Some meta ->
  gui meta = None ->
  run_main env args lines
  = (inl (Uncaught AttributeError),
     {| trace := [ImportedUI]; stdin := lines |}).
Proof.
  intros Hui Hh Hmeta Hgui. unfold run_main, main. rewrite Hui, Hh.
  unfold interactive_run. rewrite Hmeta, Hgui. reflexivity.
Qed.

Lemma model_without_gui_crashes_witness :
  SelectModelAction_call _MODEL_UIS (Some "habitat_suitability")
  = SetModel "habitat_suitability"
  /\ run_main (machine scenarios_with_reader)
       (parse_options habitat_suitability_gui "habitat_suitability") []
     = (inl (Uncaught AttributeError),
        {| trace := [ImportedUI]; stdin := [] |}).
Proof.
  split; [vm_compute; reflexivity|].
  exact (model_without_gui_crashes (machine scenarios_with_reader)
           (parse_options habitat_suitability_gui "habitat_suitability") []
           (_UIMETA "natcap.invest.habitat_suitability" None ["hs"])
           eq_refl eq_refl eq_refl eq_refl).
Defined.

(** ** The workspace of a call *)

Lemma adds_only_confirm_overwrite (P : event -> Prop) env args_workspace args :
  (forall prompt, P (RawInput prompt)) ->
  (forall text, P (LogWarn text)) ->
  adds_only P (confirm_overwrite env args_workspace args).
Proof.
  intros Hprompt Hwarn. unfold confirm_overwrite.
  destruct (os_path_exists env _); [|apply adds_only_ret].
  destruct (os_listdir env _) as [e|entries]; [apply adds_only_stop|].
  destruct (_ && _); [|apply adds_only_ret].
  apply adds_only_bind.
  { destruct (negb (stdout_isatty env)); [apply adds_only_ret|].
    apply adds_only_bind; [by apply adds_only_raw_input|]. intros first.
    apply adds_only_bind; [by apply adds_only_reprompt|]. intros answer.
    apply adds_only_ret. }
  intros [|]; [apply adds_only_stop|by apply adds_only_emit].
Qed.

Section Prepared.
Variable W : value -> Prop.

Lemma runs_prepared_no_call added :
  Forall no_call added -> runs_prepared W added.
Proof.
  intros Hall owner attr model_args Hin.
  rewrite List.Forall_forall in Hall. destruct (Hall _ Hin).
Qed.

Lemma prepares_no_call {A : Type} (m : run A) :
  adds_only no_call m -> prepares W m.
Proof.
  intros Hm w r w' H. destruct (Hm _ _ _ H) as (added & E & Hall).
  exists added. split; [done|]. by apply runs_prepared_no_call.
Qed.

Lemma prepares_bind {A B : Type} (Post : A -> Prop) (m : run A)
    (f : A -> run B) :
  adds_only no_call m ->
  (forall w x w', m w = (inr x, w') -> Post x) ->
  (forall x, Post x -> prepares W (f x)) ->
  prepares W (m ≫= f).
Proof.
  intros Hm Hpost Hf w r w' H. apply bind_cases in H.
  destruct H as [(e & -> & H)|(x & w1 & H1 & H2)].
  { destruct (Hm _ _ _ H) as (added & E & Hall).
    exists added. split; [done|]. by apply runs_prepared_no_call. }
  destruct (Hm _ _ _ H1) as (a1 & E1 & F1).
  destruct (Hf x (Hpost _ _ _ H1) _ _ _ H2) as (a2 & E2 & G2).
  exists (a1 ++ a2)%list. split; [by rewrite E2, E1, app_assoc|].
  intros owner attr model_args Hin. apply in_app_or in Hin as [Hin|Hin].
  { rewrite List.Forall_forall in F1. destruct (F1 _ Hin). }
  destruct (G2 _ _ _ Hin) as (ws & name & Henter & Hget & Hw).
  exists ws, name. split; [apply in_or_app; by right|done].
Qed.

Lemma prepares_with_prepare_workspace {A : Type} env ws name (body : run A) :
  W ws ->
  adds_only (calls_within ws) body ->
  prepares W (with_prepare_workspace env ws name body).
Proof.
  intros Hw Hbody w r w'. unfold with_prepare_workspace.
  destruct (prepare_workspace env ws name).
  { intros [= <- <-]. exists []. split; [by rewrite app_nil_r|].
    intros ? ? ? []. }
  destruct (body _) as [r1 w1] eqn:Hrun. intros [= <- <-].
  destruct (Hbody _ _ _ Hrun) as (added & E & F). simpl in *.
  exists ([EnterWorkspace ws name] ++ added ++ [LeaveWorkspace])%list.
  split; [rewrite E; by rewrite <- !app_assoc|].
  intros owner attr model_args Hin. exists ws, name.
  split; [by left|]. split; [|done].
  assert (Hadded : In (Call owner attr model_args) added).
  { rewrite !in_app_iff in Hin. simpl in Hin. intuition discriminate. }
  rewrite List.Forall_forall in F. apply (F _ Hadded).
Qed.
End Prepared.

Lemma main_prepares env args :
  prepares (fun ws => forall w, truthy (workspace args) = Some w ->
                                ws = VStr (os_path_abspath env w))
           (main env args).
Proof.
  set (W := fun ws => forall w, truthy (workspace args) = Some w ->
                                ws = VStr (os_path_abspath env w)).
  assert (Hemit : forall e, no_call e -> adds_only no_call (emit e))
    by apply adds_only_emit.
  assert (Hskip : forall (A B : Type) (m : run A) (k : run B),
             adds_only no_call m -> prepares W k ->
             prepares W (m ≫= fun _ => k)).
  { intros A B m k Hm Hk.
    apply (prepares_bind W (fun _ => True)); [done|done|]. by intros _ _. }
  unfold main.
  destruct (import_ui env) as [[]|];
    try (apply prepares_no_call, adds_only_stop).
  { apply prepares_no_call, adds_only_bind; [by apply Hemit|].
    intros _. apply adds_only_stop. }
  apply Hskip; [by apply Hemit|].
  destruct (headless args).
  - unfold headless_run.
    destruct (import_scenarios env) as [e|scenarios];
      [apply prepares_no_call, adds_only_stop|].
    apply Hskip; [by apply Hemit|].
    destruct (dict_get _MODEL_UIS (model args)) as [meta|];
      [|apply prepares_no_call, adds_only_stop].
    destruct (import_module env (pyname meta)) as [e|model_module];
      [apply prepares_no_call, adds_only_stop|].
    apply Hskip; [by apply Hemit|].
    apply Hskip; [by apply Hemit|].
    destruct (read_parameter_set scenarios) as [reader|];
      [|apply prepares_no_call, adds_only_stop].
    apply Hskip; [by apply Hemit|].
    destruct (reader (scenario args)) as [e|paramset];
      [apply prepares_no_call, adds_only_stop|].
    apply (prepares_bind W
             (fun x => dict_get (paramset_args (snd x)) "workspace_dir"
                       = Some (fst x) /\ W (fst x))).
    { destruct (truthy (workspace args)); [apply adds_only_ret|].
      destruct (dict_get _ _); [apply adds_only_ret|apply adds_only_stop]. }
    { intros w [ws paramset'] w'. unfold W.
      destruct (truthy (workspace args)) as [given|].
      - intros [= <- <- <-]. simpl. split; [apply dict_get_set_eq|].
        by intros ? [= <-].
      - destruct (dict_get (paramset_args paramset) "workspace_dir")
          as [found|] eqn:Hfound; [|done].
        intros [= <- <- <-]. simpl. done. }
    intros [ws paramset'] [Hget Hws]. simpl in Hget, Hws.
    apply prepares_with_prepare_workspace; [done|].
    apply adds_only_bind; [by apply adds_only_emit|]. intros _.
    apply adds_only_bind.
    { destruct (negb (validate args)); [by apply adds_only_emit|].
      by apply (confined_validation _ (fun _ => True)). }
    intros _. apply adds_only_bind.
    { by apply adds_only_confirm_overwrite. }
    intros _. unfold dict_has. rewrite Hget.
    by apply (confined_execute _ (fun _ => True)).
  - apply prepares_no_call. unfold interactive_run.
    destruct (dict_get _MODEL_UIS (model args)) as [meta|];
      [|apply adds_only_stop].
    destruct (gui meta) as [gui_class|]; [|apply adds_only_stop].
    destruct (import_ui_class env gui_class); [apply adds_only_stop|].
    apply adds_only_bind.
    { destruct (truthy (scenario args)) as [s|]; [|apply adds_only_ret].
      apply adds_only_bind; [by apply Hemit|]. intros _.
      destruct (load_scenario env s); [apply adds_only_stop|apply adds_only_ret]. }
    intros _. apply adds_only_bind.
    { destruct (truthy (workspace args)); [by apply Hemit|apply adds_only_ret]. }
    intros _. apply adds_only_bind; [by apply Hemit|]. intros _.
    apply adds_only_bind; [by apply Hemit|]. intros _.
    destruct (run_dialog_error env); [apply adds_only_stop|].
    destruct (negb _); [apply adds_only_stop|apply adds_only_ret].
Qed.

(** X7.  Whenever a function of the model is called, its arguments hold
    a [workspace_dir], and it is the workspace that
    [utils.prepare_workspace] was entered with; when [--workspace] is given
    it is the absolute path of that option, whatever the ParameterSet
    says. *)
Theorem execute_runs_in_the_prepared_workspace
    env args lines owner attr model_args :
  In (Call owner attr model_args) (trace (snd (run_main env args lines))) ->
  exists ws name,
    In (EnterWorkspace ws name) (trace (snd (run_main env args lines)))
    /\ dict_get model_args "workspace_dir" = Some ws
    /\ (forall w, truthy (workspace args) = Some w ->
                  ws = VStr (os_path_abspath env w)).
Proof.
  unfold run_main.
  destruct (main env args {| trace := []; stdin := lines |}) as [r w'] eqn:H.
  destruct (main_prepares env args _ _ _ H) as (added & E & Hgood).
  simpl in *. rewrite E. apply Hgood.
Qed.

Lemma execute_runs_in_the_prepared_workspace_witness :
  exists ws name,
    In (EnterWorkspace ws name)
       (trace (snd (run_main (terminal scenarios_with_reader)
                      (parse_options overwriting_carbon_in_ws "carbon") [])))
    /\ dict_get (dict_set carbon_args "workspace_dir" (VStr "/ws"))
                "workspace_dir" = Some ws
    /\ (forall w,
          truthy (workspace (parse_options overwriting_carbon_in_ws "carbon"))
          = Some w ->
          ws = VStr (os_path_abspath (terminal scenarios_with_reader) w)).
Proof.
  apply (execute_runs_in_the_prepared_workspace
           (terminal scenarios_with_reader)
           (parse_options overwriting_carbon_in_ws "carbon") []
           "natcap.invest.carbon" "execute").
  vm_compute. tauto.
Defined.

(** ** Console files *)

(** X9.  [write_console_files] writes nothing: it opens each console file
    with [open(path)], that is for reading, so that the first model either
    fails to open (the file is not there) or fails at [write].  The call
    always ends with an exception, [IOError] unless the formatting of a
    name failed before, and leaves the file system as it was. *)
Theorem write_console_files_writes_nothing os percent out_dir extension st :
  exists e,
    write_console_files os percent out_dir extension st = (inl e, st)
    /\ ((forall template mapping, exists text,
           percent template mapping = inr text) ->
        e = IOError).
Proof.
  unfold write_console_files.
  destruct (list_models _MODEL_UIS) as [|model_name rest] eqn:Hmodels;
    [by vm_compute in Hmodels|].
  simpl console_files.
  destruct (percent _ [("modelname", model_name); ("ext", extension)])
    as [e|console_filepath] eqn:Hname.
  { exists e. split; [done|]. intros Htotal.
    destruct (Htotal (posixpath.join out_dir "invest_%(modelname)s_.%(ext)s")
                [("modelname", model_name); ("ext", extension)]) as [text Ht].
    congruence. }
  unfold mbind, comp_bind, open_.
  destruct (lookup_path os (fs st) console_filepath) as [[|c]|];
    try (by exists IOError).
  destruct (percent _ [("model", model_name)]) as [e|text] eqn:Htext.
  - exists e. split; [done|]. intros Htotal.
    destruct (Htotal ("invest %(model)s" ++ newline) [("model", model_name)])
      as [text Ht].
    congruence.
  - by exists IOError.
Qed.

(** ** The listing of [--list] *)

Lemma append_assoc (a b c : string) : (a ++ b) ++ c = a ++ (b ++ c).
Proof.
  induction a as [|x a IH]; [done|].
  change (String x ((a ++ b) ++ c) = String x (a ++ (b ++ c))).
  by rewrite IH.
Qed.

Lemma insert_sorted_length x l :
  length (insert_sorted x l) = S (length l).
Proof.
  induction l as [|y l IH]; simpl; [done|].
  destruct (String.leb x y); simpl; [done|]. by rewrite IH.
Qed.

Lemma sorted_length l : length (sorted l) = length l.
Proof.
  induction l as [|x l IH]; simpl; [done|].
  by rewrite insert_sorted_length, IH.
Qed.

Lemma length_of_append (a b : string) :
  String.length (a ++ b) = (String.length a + String.length b)%nat.
Proof.
  induction a as [|x a IH]; [done|].
  change (S (String.length (a ++ b)) = S (String.length a + String.length b)).
  by rewrite IH.
Qed.

(** A line that ends with the three spaces of the template does not end
    with the notice. *)
Lemma padded_line_has_no_notice (padded head : string) :
  padded ++ "   " <> head ++ "(No GUI available)".
Proof.
  intros H.
  pose proof (f_equal String.length H) as Hlen.
  rewrite !length_of_append in Hlen.
  change (String.length "   ") with 3%nat in Hlen.
  change (String.length "(No GUI available)") with 18%nat in Hlen.
  pose proof (String.append_correct2 padded "   " 2) as H1.
  pose proof (String.append_correct2 head "(No GUI available)" 17) as H2.
  rewrite H in H1.
  replace (17 + String.length head)%nat
    with (2 + String.length padded)%nat in H2 by lia.
  rewrite <- H1 in H2. discriminate H2.
Qed.

Section ListingFacts.
Variable MODEL_UIS : list (string * UIMeta).

(** What a line of the listing says about a model. *)
Local Abbreviation describes line model_name :=
  (exists meta middle,
      dict_get MODEL_UIS model_name = Some meta
      /\ line = "    " ++ model_name ++ middle
                  ++ match gui meta with
                     | Some _ => ""
                     | None => "(No GUI available)"
                     end
      /\ ((exists head, line = head ++ "(No GUI available)")
          <-> gui meta = None)).

Lemma format_model_describes m1 m2 model_name :
  In model_name (dict_keys MODEL_UIS) ->
  exists line,
    format_model MODEL_UIS m1 m2 model_name = inr line
    /\ describes line model_name.
Proof.
  intros Hin. destruct (dict_get_key _ _ Hin) as [meta Hmeta].
  unfold format_model. rewrite Hmeta. eexists. split; [done|].
  exists meta.
  set (alias_string := if String.eqb _ "" then _ else _).
  exists (String.concat "" (repeat " " (m1 - String.length model_name))
            ++ " " ++ ljust alias_string m2 ++ "   ").
  split; [done|].
  split; [unfold ljust at 1; by rewrite !append_assoc|].
  set (padded := "    " ++ ljust model_name m1 ++ " " ++ ljust alias_string m2).
  destruct (gui meta) as [gui_class|].
  - split; [|done]. intros [head Hhead]. exfalso.
    apply (padded_line_has_no_notice padded head). rewrite <- Hhead.
    unfold padded. by rewrite !append_assoc.
  - split; [done|]. intros _. exists (padded ++ "   ").
    unfold padded. by rewrite !append_assoc.
Qed.

Lemma format_lines_describe m1 m2 model_names :
  Forall (fun model_name => In model_name (dict_keys MODEL_UIS)) model_names ->
  forall strings,
  exists lines,
    format_lines MODEL_UIS m1 m2 model_names strings
    = inr (strings ++ lines)%list
    /\ Forall2 (fun line model_name => describes line model_name)
               lines model_names.
Proof.
  induction 1 as [|model_name rest Hin Hrest IH]; intros strings.
  - exists []. split; [by rewrite app_nil_r|constructor].
  - destruct (format_model_describes m1 m2 model_name Hin)
      as (line & Hline & Hdesc).
    destruct (IH (strings ++ [line])%list) as (lines & Hlines & Hall).
    exists (line :: lines). simpl. rewrite Hline, Hlines.
    split; [by rewrite <- app_assoc|by constructor].
Qed.
End ListingFacts.

(** X22.  [--list] on a catalogue that is not empty: the action prints
    the heading, then leaves with status 0 and, as its message, one line
    per model in the order of [list_models]; each line starts with four
    spaces and the name of its model, and it ends with
    [(No GUI available)] when the model has no GUI class and in no other
    case. *)
Theorem list_shows_every_model MODEL_UIS w :
  MODEL_UIS <> [] ->
  exists strings,
    ListModelsAction_call MODEL_UIS w
    = (inl (SystemExit (StatusInt 0)
              (Some (String.concat newline strings ++ newline))),
       {| trace := (trace w ++ [Print "Available models:"])%list;
          stdin := stdin w |})
    /\ length strings = length MODEL_UIS
    /\ Forall2
         (fun line model_name =>
            exists meta middle,
              dict_get MODEL_UIS model_name = Some meta
              /\ line = "    " ++ model_name ++ middle
                          ++ match gui meta with
                             | Some _ => ""
                             | None => "(No GUI available)"
                             end
              /\ ((exists head, line = head ++ "(No GUI available)")
                  <-> gui meta = None))
         strings (list_models MODEL_UIS).
Proof.
  intros Hne.
  assert (Hkeys : Forall (fun model_name => In model_name (dict_keys MODEL_UIS))
                         (list_models MODEL_UIS)).
  { apply List.Forall_forall. intros model_name. apply sorted_In. }
  assert (Hlen : length (list_models MODEL_UIS) = length MODEL_UIS).
  { unfold list_models, dict_keys. by rewrite sorted_length, length_map. }
  unfold ListModelsAction_call, format_models, mbind, comp_bind, emit.
  destruct (max_length (map String.length (list_models MODEL_UIS)))
    as [e|m1] eqn:Hm1.
  { destruct (list_models MODEL_UIS); [by destruct MODEL_UIS|done]. }
  destruct (max_length (map _ MODEL_UIS)) as [e|m2] eqn:Hm2.
  { by destruct MODEL_UIS. }
  destruct (format_lines_describe MODEL_UIS m1 m2 _ Hkeys [])
    as (lines & Hlines & Hall).
  rewrite Hlines. exists lines. split; [done|].
  split; [|done]. by rewrite (Forall2_length _ _ _ Hall).
Qed.

Lemma list_shows_every_model_witness :
  exists strings,
    ListModelsAction_call _MODEL_UIS {| trace := []; stdin := [] |}
    = (inl (SystemExit (StatusInt 0)
              (Some (String.concat newline strings ++ newline))),
       {| trace := [Print "Available models:"]; stdin := [] |})
    /\ length strings = length _MODEL_UIS
    /\ Forall2
         (fun line model_name =>
            exists meta middle,
              dict_get _MODEL_UIS model_name = Some meta
              /\ line = "    " ++ model_name ++ middle
                          ++ match gui meta with
                             | Some _ => ""
                             | None => "(No GUI available)"
                             end
              /\ ((exists head, line = head ++ "(No GUI available)")
                  <-> gui meta = None))
         strings (list_models _MODEL_UIS).
Proof.
  apply (list_shows_every_model _MODEL_UIS {| trace := []; stdin := [] |}).
  discriminate.
Defined.

(** * Further properties of scenarios.py *)

(** ** A walk that only reads the state *)

Section ReadOnlyWalk.
Context {S : Type}.
Variable handler : string -> comp S exn string.
Variable c : S.
Variable f : string -> string.
Hypothesis handler_reads : forall s,
  handler s c = (inr (f s), c) \/ (handler s c = (inl KeyError, c) /\ f s = s).

Local Abbreviation mapped v :=
  (well_formed v = true ->
   or_verbatim (types handler v) v c = (inr (map_strings f v), c)).

Lemma format_dict_mapped parameter :
  Forall (fun item => mapped (snd item)) parameter ->
  distinct (map fst parameter) = true ->
  forallb (fun item => well_formed (snd item)) parameter = true ->
  forall new_dict,
    (forall k, In k (map fst parameter) -> dict_get new_dict k = None) ->
    format_dict (types handler) parameter new_dict c
    = (inr (new_dict
              ++ map (fun item => (fst item, map_strings f (snd item)))
                     parameter)%list, c).
Proof.
  induction 1 as [|[k v] rest Hv Hrest IH]; intros Hkeys Hwf new_dict Hfresh.
  - simpl. by rewrite app_nil_r.
  - simpl in Hkeys, Hwf.
    apply andb_true_iff in Hkeys as [Hk Hkeys].
    apply andb_true_iff in Hwf as [Hwfv Hwf].
    apply negb_true_iff in Hk.
    simpl format_dict. unfold mbind, comp_bind.
    simpl in Hv. rewrite (Hv Hwfv).
    rewrite dict_set_fresh by (apply Hfresh; by left).
    rewrite IH; [|done|done|].
    + simpl. by rewrite <- app_assoc.
    + intros k' Hk'. rewrite dict_get_app, Hfresh by (by right). simpl.
      destruct (String.eqb_spec k k') as [->|]; [|done].
      by destruct (existsb_eqb_false _ _ Hk k' Hk').
Qed.

Lemma format_list_mapped parameter :
  Forall (fun v => mapped v) parameter ->
  forallb well_formed parameter = true ->
  forall new_list,
    format_list (types handler) parameter new_list c
    = (inr (new_list ++ map (map_strings f) parameter)%list, c).
Proof.
  induction 1 as [|v rest Hv Hrest IH]; intros Hwf new_list.
  - simpl. by rewrite app_nil_r.
  - simpl in Hwf. apply andb_true_iff in Hwf as [Hwfv Hwf].
    simpl format_list. unfold mbind, comp_bind. rewrite (Hv Hwfv).
    rewrite IH by done. simpl. by rewrite <- app_assoc.
Qed.

Lemma every_value_mapped v : mapped v.
Proof.
  induction v as [| b | z | s | l IH | d IH] using value_nested_ind;
    intros Hwf; try reflexivity.
  - unfold or_verbatim. simpl. unfold fmap, comp_fmap.
    destruct (handler_reads s) as [->|[-> ->]]; done.
  - unfold or_verbatim. simpl. unfold fmap, comp_fmap.
    by rewrite format_list_mapped.
  - simpl in Hwf. apply andb_true_iff in Hwf as [Hkeys Hwf].
    unfold or_verbatim. simpl. unfold fmap, comp_fmap.
    by rewrite format_dict_mapped.
Qed.

Lemma format_dictionary_mapped input_dict :
  well_formed (VDict input_dict) = true ->
  format_dictionary handler input_dict c
  = (inr (map (fun item => (fst item, map_strings f (snd item))) input_dict),
     c).
Proof.
  intros Hwf. simpl in Hwf. apply andb_true_iff in Hwf as [Hkeys Hwf].
  unfold format_dictionary. rewrite format_dict_mapped; try done.
  apply Forall_forall. intros item _. apply every_value_mapped.
Qed.
End ReadOnlyWalk.

Lemma map_strings_id v : map_strings (fun s => s) v = v.
Proof.
  induction v as [| b | z | s | l IH | d IH] using value_nested_ind;
    try reflexivity; simpl; f_equal.
  - induction IH as [|x l Hx _ IHl]; simpl; [done|]. by rewrite Hx, IHl.
  - induction IH as [|[k x] l Hx _ IHl]; simpl; [done|].
    simpl in Hx. by rewrite Hx, IHl.
Qed.

(** X10.  [format_dictionary] with its default [types_lookup] returns a
    mapping equal to its input, at any depth of nesting, and leaves the
    state alone. *)
Theorem format_dictionary_without_handlers {S : Type}
    (input_dict : list (string * value)) (c : S) :
  well_formed (VDict input_dict) = true ->
  format_dictionary no_handler input_dict c = (inr input_dict, c).
Proof.
  intros Hwf.
  rewrite (format_dictionary_mapped no_handler c (fun s => s)); [|by right|done].
  f_equal. f_equal. induction input_dict as [|[k x] d IH]; [done|].
  simpl. rewrite map_strings_id. f_equal. apply IH.
  simpl in Hwf. simpl.
  apply andb_true_iff in Hwf as [[_ ?]%andb_true_iff [_ ?]%andb_true_iff].
  by apply andb_true_iff.
Qed.

Lemma format_dictionary_without_handlers_witness :
  format_dictionary no_handler twice_referenced_parameters disk
  = (inr twice_referenced_parameters, disk).
Proof.
  apply (format_dictionary_without_handlers twice_referenced_parameters disk).
  reflexivity.
Defined.

(** ** Relocation at extraction *)

Lemma _get_if_uri_reads os input_folder parameter st :
  _get_if_uri os input_folder parameter st
  = (inr (relocated os (fs st) input_folder parameter), st).
Proof.
  unfold _get_if_uri, relocated, probe, mbind, comp_bind.
  by destruct (_ && _).
Qed.

Lemma join_absolute a b : posixpath.isabs b = true -> posixpath.join a b = b.
Proof. unfold posixpath.join. by intros ->. Qed.

Lemma relocated_absolute os files input_folder parameter :
  posixpath.isabs parameter = true \/ parameter = "" ->
  relocated os files input_folder parameter = parameter.
Proof.
  unfold relocated. intros [H| ->].
  - rewrite join_absolute by done. by destruct (_ && _).
  - simpl. by rewrite andb_false_r.
Qed.

(** X13.  [_get_if_uri] returns an absolute path, and the empty string,
    as it is, whatever the input folder holds: [os.path.join] drops the
    folder in front of an absolute path. *)
Theorem absolute_paths_are_not_relocated os input_folder parameter st :
  posixpath.isabs parameter = true \/ parameter = "" ->
  _get_if_uri os input_folder parameter st = (inr parameter, st).
Proof.
  intros H. by rewrite _get_if_uri_reads, relocated_absolute.
Qed.

Lemma absolute_paths_are_not_relocated_witness :
  _get_if_uri plain_os "/tmp/tmp1" "/x/f.csv" disk = (inr "/x/f.csv", disk).
Proof.
  apply (absolute_paths_are_not_relocated plain_os "/tmp/tmp1" "/x/f.csv" disk).
  left. reflexivity.
Defined.


(** ** What every outcome of the walk preserves *)

Lemma in_strings_of_list x l s :
  In x l -> In s (strings_of x) -> In s (strings_of (VList l)).
Proof. intros Hx Hs. simpl. apply in_flat_map. eauto. Qed.

Lemma in_strings_of_dict (item : string * value) d s :
  In item d -> In s (strings_of (snd item)) -> In s (strings_of (VDict d)).
Proof. intros Hx Hs. simpl. apply in_flat_map. eauto. Qed.

Section EveryOutcome.
Context {S : Type}.
Variable handler : string -> comp S exn string.
Variable named : string -> Prop.
Variable step : S -> S -> Prop.
Hypothesis step_refl : forall c, step c c.
Hypothesis step_trans : forall a b c, step a b -> step b c -> step a c.
Hypothesis handler_steps : forall s c r c',
  named s -> handler s c = (r, c') -> step c c'.

Local Abbreviation steps v :=
  ((forall s, In s (strings_of v) -> named s) ->
   forall c r c', or_verbatim (types handler v) v c = (r, c') -> step c c').

Lemma or_verbatim_steps (m : comp S exn value) v c r c' :
  (forall r0 c0, m c = (r0, c0) -> step c c0) ->
  or_verbatim m v c = (r, c') -> step c c'.
Proof.
  intros Hm. unfold or_verbatim.
  destruct (m c) as [[e|x] c1] eqn:E; specialize (Hm _ _ eq_refl);
    [destruct e|]; by intros [= _ <-].
Qed.

Lemma format_dict_steps parameter :
  Forall (fun item => steps (snd item)) parameter ->
  (forall s, In s (strings_of (VDict parameter)) -> named s) ->
  forall new_dict c r c',
    format_dict (types handler) parameter new_dict c = (r, c') -> step c c'.
Proof.
  induction 1 as [|[k v] rest Hv Hrest IH]; intros Hnamed new_dict c r c'.
  - by intros [= _ <-].
  - simpl format_dict. intros H. apply bind_cases in H.
    assert (Hhead : forall r0 c0,
               or_verbatim (types handler v) v c = (r0, c0) -> step c c0).
    { intros r0 c0. apply Hv. intros s Hs. apply Hnamed.
      apply (in_strings_of_dict (k, v)); [by left|done]. }
    destruct H as [(e & -> & H)|(x & c1 & H1 & H2)]; [by eapply Hhead|].
    apply (step_trans _ c1); [by eapply Hhead|].
    eapply IH; [|done]. intros s Hs. apply Hnamed. simpl.
    apply in_or_app. by right.
Qed.

Lemma format_list_steps parameter :
  Forall (fun v => steps v) parameter ->
  (forall s, In s (strings_of (VList parameter)) -> named s) ->
  forall new_list c r c',
    format_list (types handler) parameter new_list c = (r, c') -> step c c'.
Proof.
  induction 1 as [|v rest Hv Hrest IH]; intros Hnamed new_list c r c'.
  - by intros [= _ <-].
  - simpl format_list. intros H. apply bind_cases in H.
    assert (Hhead : forall r0 c0,
               or_verbatim (types handler v) v c = (r0, c0) -> step c c0).
    { intros r0 c0. apply Hv. intros s Hs. apply Hnamed.
      apply (in_strings_of_list v); [by left|done]. }
    destruct H as [(e & -> & H)|(x & c1 & H1 & H2)]; [by eapply Hhead|].
    apply (step_trans _ c1); [by eapply Hhead|].
    eapply IH; [|done]. intros s Hs. apply Hnamed. simpl.
    apply in_or_app. by right.
Qed.

Lemma every_value_steps v : steps v.
Proof.
  induction v as [| b | z | s | l IH | d IH] using value_nested_ind;
    intros Hnamed c r c'; try by intros [= _ <-].
  - apply or_verbatim_steps. intros r0 c0 H. simpl in H.
    apply fmap_cases in H as [(e & _ & H)|(x & H & _)];
      (eapply handler_steps; [|done]); apply Hnamed; by left.
  - apply or_verbatim_steps. intros r0 c0 H. simpl in H.
    apply fmap_cases in H as [(e & _ & H)|(x & H & _)];
      by eapply format_list_steps.
  - apply or_verbatim_steps. intros r0 c0 H. simpl in H.
    apply fmap_cases in H as [(e & _ & H)|(x & H & _)];
      by eapply format_dict_steps.
Qed.

Lemma format_dictionary_steps input_dict c r c' :
  (forall s, In s (strings_of (VDict input_dict)) -> named s) ->
  format_dictionary handler input_dict c = (r, c') -> step c c'.
Proof.
  intros Hnamed. apply format_dict_steps; [|done].
  apply Forall_forall. intros item _. apply every_value_steps.
Qed.
End EveryOutcome.

(** X12.  What [extract_parameters_archive] returns when it returns: the
    mapping of [parameters.json] in the input folder (the one given, or a
    new temporary one), in which every string is replaced by its path in
    the input folder when that path exists and the string is not empty,
    everything else being kept, and [workspace_dir] is set to the workspace
    given, whatever the archive holds for it. *)
Theorem extraction_relocates_what_exists
    os workspace_dir archive_uri input_folder st args st' :
  extract_parameters_archive os workspace_dir archive_uri input_folder st
  = (inr args, st') ->
  exists folder arguments_dict,
    (forall given, input_folder = Some given -> folder = given)
    /\ lookup_path os (fs st') (posixpath.join folder "parameters.json")
       = Some (File (Json (VDict arguments_dict)))
    /\ dict_get args "workspace_dir" = Some (VStr workspace_dir)
    /\ (well_formed (VDict arguments_dict) = true ->
        args
        = dict_set
            (map (fun item =>
                    (fst item,
                     map_strings (relocated os (fs st') folder) (snd item)))
                 arguments_dict)
            "workspace_dir" (VStr workspace_dir)).
Proof.
  intros H. unfold extract_parameters_archive in H.
  apply bind_inr in H as (folder & st1 & Hfolder & H).
  apply bind_inr in H as ([] & st2 & Hextract & H).
  apply bind_inr in H as (arguments & st3 & Hload & H).
  unfold json_load in Hload.
  destruct (lookup_path os (fs st2) _) as [[|[data|document|members]]|] eqn:Hdoc;
    try discriminate.
  injection Hload as -> <-.
  destruct arguments as [| | | | |arguments_dict]; try discriminate.
  apply bind_inr in H as (formatted_args & st4 & Hwalk & [= <- <-]).
  assert (Hsame : st4 = st2).
  { symmetry.
    apply (format_dictionary_steps (_get_if_uri os folder) (fun _ => True)
             (fun c c' => c = c')) in Hwalk; try done.
    - by intros a b c -> ->.
    - intros s c r c' _. rewrite _get_if_uri_reads. by intros [= _ <-]. }
  subst st4. exists folder, arguments_dict.
  split; [|split; [done|split; [apply dict_get_set_eq|]]].
  - intros given ->. by injection Hfolder as ->.
  - intros Hwf.
    rewrite (format_dictionary_mapped (_get_if_uri os folder) st2
               (relocated os (fs st2) folder)) in Hwalk; [|..|done].
    + by injection Hwalk as <-.
    + intros s. left. apply _get_if_uri_reads.
Qed.

Lemma extraction_relocates_what_exists_witness :
  exists folder arguments_dict,
    (forall given, Some "/in" = Some given -> folder = given)
    /\ lookup_path plain_os
         (fs (snd (extract_parameters_archive plain_os "/ws"
                     "/out/scenario.tar.gz" (Some "/in") archived_disk)))
         (posixpath.join folder "parameters.json")
       = Some (File (Json (VDict arguments_dict)))
    /\ dict_get
         [("a", VStr "/in/f.csv");
          ("nested", VDict [("tables", VList [VInt 1; VStr "/in/f.csv"])]);
          ("suffix", VStr "v2"); ("workspace_dir", VStr "/ws")]
         "workspace_dir" = Some (VStr "/ws")
    /\ (well_formed (VDict arguments_dict) = true ->
        [("a", VStr "/in/f.csv");
         ("nested", VDict [("tables", VList [VInt 1; VStr "/in/f.csv"])]);
         ("suffix", VStr "v2"); ("workspace_dir", VStr "/ws")]
        = dict_set
            (map (fun item =>
                    (fst item,
                     map_strings
                       (relocated plain_os
                          (fs (snd (extract_parameters_archive plain_os "/ws"
                                      "/out/scenario.tar.gz" (Some "/in")
                                      archived_disk)))
                          folder)
                       (snd item)))
                 arguments_dict)
            "workspace_dir" (VStr "/ws")).
Proof.
  apply (extraction_relocates_what_exists plain_os "/ws"
           "/out/scenario.tar.gz" (Some "/in") archived_disk).
  vm_compute. reflexivity.
Defined.

(** ** Directories made from a seed *)

(** X14.  [make_random_dir] names the directory after its seed alone: a
    second call with the same workspace, seed and prefix finds the
    directory of the first and raises [OSError]. *)
Theorem make_random_dir_repeats_itself os workspace seed_string prefix st d st' :
  make_random_dir os workspace seed_string prefix true st = (inr d, st') ->
  d = posixpath.join workspace (prefix ++ random_name os seed_string)
  /\ isdir os (fs st') d = true
  /\ make_random_dir os workspace seed_string prefix true st'
     = (inl OSError, st').
Proof.
  unfold make_random_dir. intros H.
  apply bind_inr in H as ([] & st1 & Hmkdir & [= <- <-]).
  unfold mkdir in Hmkdir.
  destruct (searchable os (fs st) _) eqn:Hsearch in Hmkdir; [|done].
  destruct (fs st !! _) eqn:Hfree in Hmkdir; [done|].
  destruct (fs st !! posixpath.dirname _) as [[|]|] in Hmkdir; try done.
  injection Hmkdir as <-.
  split; [done|]. split.
  - simpl. by apply made_dir_resolves.
  - unfold mbind, comp_bind, mkdir. simpl.
    destruct (searchable os (<[_ := _]> _) _); [|reflexivity].
    by rewrite lookup_insert_eq.
Qed.

Lemma make_random_dir_repeats_itself_witness :
  "/tmp/raster_K3J9QZ" = posixpath.join "/tmp" ("raster_" ++ "K3J9QZ")
  /\ isdir plain_os
       (fs (snd (make_random_dir plain_os "/tmp" "lulc" "raster_" true disk)))
       "/tmp/raster_K3J9QZ" = true
  /\ make_random_dir plain_os "/tmp" "lulc" "raster_" true
       (snd (make_random_dir plain_os "/tmp" "lulc" "raster_" true disk))
     = (inl OSError,
        snd (make_random_dir plain_os "/tmp" "lulc" "raster_" true disk)).
Proof.
  apply (make_random_dir_repeats_itself plain_os "/tmp" "lulc" "raster_" disk).
  vm_compute. reflexivity.
Defined.

(** ** What [get_if_file] does with what is not a regular file *)

Section NotAFile.
Variable os : OS.
Variables temp_workspace data_dir : string.

Lemma get_multi_part_plain parameter st :
  not_a_dataset os (abspath os parameter) ->
  get_multi_part os data_dir parameter st = (inr None, st).
Proof.
  intros Hplain. destruct (Hplain (fs st) parameter eq_refl) as [Hgdal Hogr].
  unfold get_multi_part, mbind, comp_bind, probe. rewrite Hgdal.
  by destruct Hogr as [->| ->].
Qed.

End NotAFile.


(** ** Rasters and directories *)

Section OtherThanFiles.
Variable os : OS.
Variables temp_workspace data_dir : string.

Lemma mkdtemp_loop_made tries prefix dir st new_path st' :
  mkdtemp_loop os tries prefix dir st = (inr new_path, st') ->
  isdir os (fs st') new_path = true.
Proof.
  revert st. induction tries as [|tries IH]; intros st; simpl; [done|].
  set (file := posixpath.join dir (prefix ++ pretty (temp_count st))).
  destruct (searchable os (fs st) file) eqn:Hsearch; [|done].
  destruct (fs st !! abspath os file) as [n|] eqn:Hfile.
  - apply IH.
  - destruct (fs st !! posixpath.dirname (abspath os file)) as [[|c]|];
      intros [= <- <-].
    simpl. by apply made_dir_resolves.
Qed.

Lemma mkdtemp_made prefix dir st new_path st' :
  mkdtemp os prefix dir st = (inr new_path, st') ->
  isdir os (fs st') new_path = true.
Proof. unfold mkdtemp. apply mkdtemp_loop_made. Qed.

Lemma bind_returned {S E A B : Type} (m : comp S E A) (f : A -> comp S E B)
    st x st1 :
  m st = (inr x, st1) -> (m ≫= f) st = f x st1.
Proof. intros H. unfold mbind, comp_bind. by rewrite H. Qed.

Lemma bind_stopped {S E A B : Type} (m : comp S E A) (f : A -> comp S E B)
    st e st1 :
  m st = (inl e, st1) -> (m ≫= f) st = (inl e, st1).
Proof. intros H. unfold mbind, comp_bind. by rewrite H. Qed.

Lemma get_multi_part_gdal_TypeError parameter st new_path st1 :
  gdal_Open (gis os) (fs st) parameter = true ->
  mkdtemp os "raster_" (Some data_dir) st = (inr new_path, st1) ->
  driver_CreateCopy (gis os) (fs st1) parameter new_path = inl TypeError ->
  get_multi_part_gdal os data_dir parameter st = (inl TypeError, st1).
Proof.
  intros Hopen Htemp Hcopy. unfold get_multi_part_gdal.
  rewrite (bind_returned _ _ st true st) by (unfold probe; by rewrite Hopen).
  rewrite (bind_returned (mkdtemp os "raster_" (Some data_dir)) _ st new_path st1 Htemp).
  apply bind_stopped. unfold driver_call. rewrite Hcopy. reflexivity.
Qed.


(** X16.  A raster whose copy through the GDAL driver raises [TypeError]
    is left out without an error: [get_if_file] returns the parameter as it
    was and records nothing in [files_found], while the directory made for
    the copy stays in the data folder. *)
Theorem raster_copy_type_error_is_swallowed parameter c new_path st1 :
  files_found c !! abspath os parameter = None ->
  gdal_Open (gis os) (fs (outside c)) parameter = true ->
  mkdtemp os "raster_" (Some data_dir) (outside c) = (inr new_path, st1) ->
  driver_CreateCopy (gis os) (fs st1) parameter new_path = inl TypeError ->
  get_if_file os temp_workspace data_dir parameter c
  = (inr parameter, {| files_found := files_found c; outside := st1 |})
  /\ isdir os (fs st1) new_path = true.
Proof.
  intros Hnew Hopen Htemp Hcopy. split.
  - assert (Hgdal := get_multi_part_gdal_TypeError _ _ _ _ Hopen Htemp Hcopy).
    assert (Hstage : stage os temp_workspace data_dir parameter (outside c)
                     = (inl TypeError, st1)).
    { unfold stage. apply bind_stopped. unfold get_multi_part.
      rewrite (bind_returned _ _ _ true (outside c))
        by (unfold probe; by rewrite Hopen).
      unfold fmap, comp_fmap. rewrite Hgdal. reflexivity. }
    unfold get_if_file. rewrite Hnew, Hstage. reflexivity.
  - exact (mkdtemp_made _ _ _ _ _ Htemp).
Qed.

Lemma copytree_made src dst st st' :
  copytree os src dst st = (inr tt, st') -> isdir os (fs st') dst = true.
Proof.
  unfold copytree.
  destruct (lookup_path os (fs st) src) as [[|c]|]; try done.
  destruct (String.eqb dst "") eqn:Hdst; [done|].
  destruct (make_missing _ _) as [files|] eqn:Hmk; [|done].
  destruct (files !! abspath os dst) eqn:Hfree; [done|].
  destruct (graft _ _ _) as [files'|] eqn:Hgraft; [|done].
  intros [= <-]. apply graft_dirs_kept in Hgraft. simpl.
  eapply isdir_kept; [exact Hgraft|]. apply made_dir_resolves.
  by eapply make_missing_searchable.
Qed.

Lemma copytree_raises src dst st e st' :
  copytree os src dst st = (inl e, st') -> e = OSError \/ e = ShutilError.
Proof.
  unfold copytree.
  destruct (lookup_path os (fs st) src) as [[|c]|];
    try (intros [= <- _]; by left).
  destruct (String.eqb dst ""); [intros [= <- _]; by left|].
  destruct (make_missing _ _) as [files|]; [|intros [= <- _]; by left].
  destruct (files !! abspath os dst); [intros [= <- _]; by left|].
  destruct (graft _ _ _) as [files'|]; [done|intros [= <- _]; by right].
Qed.

Lemma copytree_onto_existing src dst st :
  isdir os (fs st) dst = true -> copytree os src dst st = (inl OSError, st).
Proof.
  intros [_ Hdst]%isdir_spec. unfold copytree.
  destruct (lookup_path os (fs st) src) as [[|c]|]; try done.
  destruct (String.eqb dst ""); [done|].
  destruct (make_missing _ _) as [files|] eqn:Hmk; [|done].
  by rewrite (make_missing_dirs_kept _ _ _ Hmk _ Hdst).
Qed.

Lemma stage_directory parameter st :
  not_a_dataset os (abspath os parameter) ->
  isdir os (fs st) parameter = true ->
  let new_foldername :=
    posixpath.join temp_workspace
      ("data_" ++ random_name os (posixpath.basename parameter)) in
  stage os temp_workspace data_dir parameter st
  = (copytree os parameter new_foldername;; mret (Some new_foldername)) st.
Proof.
  intros Hplain Hdir new_foldername.
  assert (Hfile : isfile os (fs st) parameter = false).
  { unfold isfile, isdir in *. by destruct (lookup_path _ _ _) as [[|]|]. }
  unfold stage.
  rewrite (bind_returned _ _ st None st) by (by apply get_multi_part_plain).
  rewrite (bind_returned _ _ st false st) by (unfold probe; by rewrite Hfile).
  rewrite (bind_returned _ _ st true st) by (unfold probe; by rewrite Hdir).
  by rewrite (bind_returned _ _ st new_foldername st) by reflexivity.
Qed.

Lemma prefix_empty s : String.prefix "" s = true.
Proof. by destruct s. Qed.

Lemma isabs_join a b :
  posixpath.isabs a = true -> posixpath.isabs (posixpath.join a b) = true.
Proof.
  intros Ha. unfold posixpath.join.
  destruct (posixpath.isabs b) eqn:Hb; [done|].
  unfold posixpath.isabs in *.
  destruct a as [|c a]; [done|].
  change (String.prefix "/" (String c a))
    with (if ascii_dec "/" c then String.prefix "" a else false) in Ha.
  destruct (ascii_dec "/" c) as [Hc|]; [|done].
  destruct (_ || _).
  - change (String.prefix "/" (String c a ++ b))
      with (if ascii_dec "/" c then String.prefix "" (a ++ b) else false).
    destruct (ascii_dec "/" c); [apply prefix_empty|done].
  - change (String.prefix "/" (String c a ++ "/" ++ b))
      with (if ascii_dec "/" c then String.prefix "" (a ++ "/" ++ b) else false).
    destruct (ascii_dec "/" c); [apply prefix_empty|done].
Qed.


End OtherThanFiles.

Lemma raster_copy_type_error_is_swallowed_witness :
  get_if_file raster_os "/tmp/scenario_0" "/tmp/scenario_0/data"
    "/x/dem.tif" staging
  = (inr "/x/dem.tif",
     {| files_found := ∅;
        outside := snd (mkdtemp raster_os "raster_"
                          (Some "/tmp/scenario_0/data") (outside staging)) |})
  /\ isdir raster_os
       (fs (snd (mkdtemp raster_os "raster_" (Some "/tmp/scenario_0/data")
                   (outside staging))))
       "/tmp/scenario_0/data/raster_1" = true.
Proof.
  apply (raster_copy_type_error_is_swallowed raster_os "/tmp/scenario_0"
           "/tmp/scenario_0/data" "/x/dem.tif" staging
           "/tmp/scenario_0/data/raster_1").
  - vm_compute. reflexivity.
  - reflexivity.
  - vm_compute. reflexivity.
  - reflexivity.
Defined.



(** ** The archive and its document *)

Lemma substring_all s : String.substring 0 (String.length s) s = s.
Proof. induction s as [|c s IH]; simpl; [done|]. by rewrite IH. Qed.

Lemma substring_after a b :
  String.substring (String.length a) (String.length b) (a ++ b) = b.
Proof. induction a as [|c a IH]; simpl; [apply substring_all|done]. Qed.

Lemma substring_before a b :
  String.substring 0 (String.length a) (a ++ b) = a.
Proof.
  induction a as [|c a IH]; simpl; [by destruct b|]. by rewrite IH.
Qed.

Lemma length_app a b :
  String.length (a ++ b) = (String.length a + String.length b)%nat.
Proof. induction a as [|c a IH]; simpl; [done|]. by rewrite IH. Qed.

Lemma strip_tar_gz_app base : strip_tar_gz (base ++ ".tar.gz") = base.
Proof.
  unfold strip_tar_gz. rewrite length_app.
  change (String.length ".tar.gz") with 7%nat.
  replace (String.length base + 7 - 7)%nat with (String.length base) by lia.
  replace (7 <=? String.length base + 7)%nat with true
    by (symmetry; apply Nat.leb_le; lia).
  change 7%nat with (String.length ".tar.gz") at 1.
  rewrite substring_after, substring_before. done.
Qed.

(** X19.  The [.tar.gz] at the end of [archive_uri] is optional: with it
    and without it the call does the same, and when it succeeds the archive
    is the file [archive_uri] without the extension, made absolute, with
    [.tar.gz] appended. *)
Theorem archive_extension_is_optional os parameters base st :
  strip_tar_gz base = base ->
  collect_parameters os parameters (base ++ ".tar.gz") st
  = collect_parameters os parameters base st
  /\ forall st',
       collect_parameters os parameters base st = (inr tt, st') ->
       exists members,
         fs st' !! (abspath os base ++ ".tar.gz")
         = Some (File (TarGz members)).
Proof.
  intros Hbase. split.
  - rewrite !collect_parameters_unfold. by rewrite strip_tar_gz_app, Hbase.
  - intros st' Hrun.
    destruct (collect_parameters_steps _ _ _ _ _ Hrun)
      as (temp_workspace & st1 & st2 & walked_args & c3 & st4
          & _ & _ & _ & _ & archive & Harchive).
    rewrite Hbase in Harchive. unfold make_archive in Harchive.
    destruct (lookup_path os (fs st4) temp_workspace) as [[|c]|]; try done.
    destruct (fs st4 !! (abspath os base ++ ".tar.gz")) as [[|c]|];
      try done;
      (destruct (make_missing _ _) as [files|]; [|done]);
      injection Harchive as _ <-; simpl; rewrite lookup_insert_eq; eauto.
Qed.

Lemma archive_extension_is_optional_witness :
  collect_parameters plain_os twice_referenced_parameters
    ("/out/scenario" ++ ".tar.gz") disk
  = collect_parameters plain_os twice_referenced_parameters "/out/scenario" disk.
Proof.
  apply (archive_extension_is_optional plain_os twice_referenced_parameters
           "/out/scenario" disk).
  reflexivity.
Defined.

Lemma rewritten_scalar R v v' :
  rewritten R v v' -> scalar v = true -> v' = v.
Proof. by destruct 1. Qed.

Lemma rewritten_get_scalar R place :
  forall v v' x,
    rewritten R v v' ->
    get_at v place = Some x ->
    scalar x = true ->
    get_at v' place = Some x.
Proof.
  induction place as [|[k|i] place IH]; intros v v' x Hrew; simpl.
  - intros [= ->] Hx. by rewrite (rewritten_scalar _ _ _ Hrew Hx).
  - destruct v as [| | | | |d]; try done.
    inversion Hrew as [| | | | |d0 d' Hall]; subst.
    destruct (dict_get d k) as [x0|] eqn:Hx; [|done].
    destruct (rewritten_dict_get _ _ _ _ _ Hall Hx) as (y & -> & Hxy).
    by apply IH.
  - destruct v as [| | | |l|]; try done.
    inversion Hrew as [| | | |l0 l' Hall|]; subst.
    destruct (l !! i) as [x0|] eqn:Hx; [|done].
    destruct (Forall2_lookup_l _ _ _ _ _ Hall Hx) as (y & -> & Hxy).
    by apply IH.
Qed.

(** X11.  A successful archiving call rewrites strings only.  Apart from
    the reserved keys, the parameters document has the keys of the
    parameters and no other, the value of each key has the shape it had
    (mappings with the same keys in the same order, lists of the same
    length), and [None], booleans and numbers are where they were. *)
Theorem archiving_rewrites_strings_only os parameters archive_uri st st' :
  well_formed (VDict parameters) = true ->
  collect_parameters os parameters archive_uri st = (inr tt, st') ->
  exists new_args,
    parameters_document (log st') = Some new_args
    /\ (forall k, reserved k = false ->
          match dict_get parameters k with
          | Some x =>
              exists y, dict_get new_args k = Some y
                        /\ rewritten (fun _ _ => True) x y
          | None => dict_get new_args k = None
          end)
    /\ (forall k place x,
          reserved k = false ->
          get_at (VDict parameters) (Key k :: place) = Some x ->
          scalar x = true ->
          get_at (VDict new_args) (Key k :: place) = Some x).
Proof.
  intros Hwf Hrun.
  destruct (collect_parameters_steps _ _ _ _ _ Hrun)
    as (temp_workspace & st1 & st2 & walked_args & c3 & st4
        & _ & _ & Hwalk & Hwrite & archive & Harchive).
  destruct (set_aside reserved_keys parameters []) as [stripped ignored] eqn:Hs.
  simpl in Hwalk, Hwrite.
  destruct (set_aside_reserved _ _ _ Hs)
    as (Hother & Hkeys & Hvalues & _ & Hrestored & _ & _).
  simpl in Hwf. apply andb_true_iff in Hwf as [Hdistinct Hwfv].
  destruct (Hkeys Hdistinct) as [Hdistinct' _].
  destruct (format_dictionary_walked
              (get_if_file os temp_workspace
                 (posixpath.join temp_workspace "data"))
              (fun _ => True) (fun _ _ => True) (fun _ _ _ => True))
    with (input_dict := stripped) (c := {| files_found := ∅; outside := st2 |})
         (new_args := walked_args) (c' := c3) as (_ & _ & Hrew); auto.
  { simpl. by rewrite Hdistinct', (Hvalues well_formed Hwfv). }
  inversion Hrew as [| | | | |d0 d' Hall]; subst.
  exists (restore ignored walked_args).
  assert (Hkey : forall k, reserved k = false ->
            match dict_get parameters k with
            | Some x =>
                exists y, dict_get (restore ignored walked_args) k = Some y
                          /\ rewritten (fun _ _ => True) x y
            | None => dict_get (restore ignored walked_args) k = None
            end).
  { intros k Hk. rewrite (Hrestored _ k Hk), <- (Hother k Hk).
    destruct (dict_get stripped k) as [x|] eqn:Hx.
    - by apply (rewritten_dict_get _ _ _ _ _ Hall Hx).
    - by apply (format_dict_keeps_keys _ _ _ _ _ _ _ Hwalk). }
  apply write_file_log in Hwrite as [[_ Hlog4]|[_ [e [=]]]].
  split; [|split; [exact Hkey|]].
  - apply make_archive_log in Harchive as [-> | ->].
    + by rewrite parameters_document_snoc, Hlog4, parameters_document_snoc.
    + by rewrite Hlog4, parameters_document_snoc.
  - intros k place x Hk Hget Hx. specialize (Hkey k Hk). simpl in Hget |- *.
    destruct (dict_get parameters k) as [x0|]; [|done].
    destruct Hkey as (y & -> & Hxy).
    by apply (rewritten_get_scalar _ _ _ _ _ Hxy Hget).
Qed.

Lemma archiving_rewrites_strings_only_witness :
  exists new_args,
    parameters_document (log archived_disk) = Some new_args
    /\ get_at (VDict new_args) [Key "nested"; Key "tables"; Index 0]
       = Some (VInt 1).
Proof.
  destruct (archiving_rewrites_strings_only plain_os
              twice_referenced_parameters "/out/scenario.tar.gz" disk
              archived_disk)
    as (new_args & Hdoc & _ & Hscalar).
  - reflexivity.
  - vm_compute. reflexivity.
  - exists new_args. split; [exact Hdoc|].
    apply Hscalar; reflexivity.
Defined.

(** ** What every outcome of an archiving call preserves *)

Section Evolving.
Variable os : OS.
Variable P : fs_event -> Prop.

Lemma evolves_refl st : evolves P st st.
Proof.
  split; [apply dirs_kept_refl|]. exists []. by rewrite app_nil_r.
Qed.

Lemma evolves_trans st1 st2 st3 :
  evolves P st1 st2 -> evolves P st2 st3 -> evolves P st1 st3.
Proof.
  intros (D1 & a1 & E1 & A1) (D2 & a2 & E2 & A2).
  split; [by eapply dirs_kept_trans|].
  exists (a1 ++ a2)%list. split; [by rewrite E2, E1, app_assoc|].
  by apply Forall_app.
Qed.

Lemma evolves_record e files st :
  dirs_kept (fs st) files -> P e -> evolves P st (record e files st).
Proof.
  intros D He. split; [done|]. exists [e]. split; [done|]. by constructor.
Qed.

Lemma evolving_ret {A : Type} (x : A) : evolving P (mret x).
Proof. intros st r st' [= <- <-]. apply evolves_refl. Qed.

Lemma evolving_stop {A : Type} (e : exn) : evolving P (stop_with e : io A).
Proof. intros st r st' [= <- <-]. apply evolves_refl. Qed.

Lemma evolving_probe {A : Type} (f : gmap string node -> A) :
  evolving P (probe f).
Proof. intros st r st' [= <- <-]. apply evolves_refl. Qed.

Lemma evolving_bind {A B : Type} (m : io A) (f : A -> io B) :
  evolving P m -> (forall x, evolving P (f x)) -> evolving P (m ≫= f).
Proof.
  intros Hm Hf st r st' H. apply bind_cases in H.
  destruct H as [(e & -> & H)|(x & st1 & H1 & H2)]; [by eapply Hm|].
  eapply evolves_trans; [by eapply Hm|by eapply Hf].
Qed.

Lemma evolving_fmap {A B : Type} (g : A -> B) (m : io A) :
  evolving P m -> evolving P (g <$> m).
Proof.
  intros Hm st r st' H.
  apply fmap_cases in H as [(e & _ & H)|(x & H & _)]; by eapply Hm.
Qed.

Lemma evolving_copyfile from to :
  P (Copyfile (abspath os from) (abspath os to)) ->
  evolving P (copyfile os from to).
Proof.
  intros He st r st'. unfold copyfile.
  destruct (lookup_path os (fs st) from) as [[|c]|];
    try (intros [= <- <-]; apply evolves_refl).
  destruct (_ && _); [intros [= <- <-]; apply evolves_refl|].
  destruct (_ && _); [|intros [= <- <-]; apply evolves_refl].
  destruct (fs st !! abspath os to) as [[|c']|] eqn:Hto;
    destruct (fs st !! posixpath.dirname (abspath os to)) as [[|c'']|];
    intros [= <- <-]; try apply evolves_refl;
    (apply evolves_record; [|done]); apply dirs_kept_insert;
    by rewrite Hto.
Qed.

Lemma evolving_copytree from to :
  P (Copytree (abspath os from) (abspath os to)) ->
  evolving P (copytree os from to).
Proof.
  intros He st r st'. unfold copytree.
  destruct (lookup_path os (fs st) from) as [[|c]|];
    try (intros [= <- <-]; apply evolves_refl).
  destruct (String.eqb to ""); [intros [= <- <-]; apply evolves_refl|].
  destruct (make_missing _ _) as [files|] eqn:Hmk;
    [|intros [= <- <-]; apply evolves_refl].
  destruct (files !! abspath os to) eqn:Hto;
    [intros [= <- <-]; apply evolves_refl|].
  destruct (graft _ _ _) as [files'|] eqn:Hgraft;
    intros [= <- <-]; [|apply evolves_refl].
  apply evolves_record; [|done].
  eapply dirs_kept_trans; [by eapply make_missing_dirs_kept|].
  eapply dirs_kept_trans; [|by eapply graft_dirs_kept].
  by apply dirs_kept_insert.
Qed.

Lemma evolving_write_file path c :
  P (Wrote (abspath os path) c) -> evolving P (write_file os path c).
Proof.
  intros He st r st'. unfold write_file.
  destruct (_ && _); [|intros [= <- <-]; apply evolves_refl].
  destruct (fs st !! abspath os path) as [[|c']|] eqn:Hto;
    destruct (fs st !! posixpath.dirname (abspath os path)) as [[|c'']|];
    intros [= <- <-]; try apply evolves_refl;
    (apply evolves_record; [|done]); apply dirs_kept_insert;
    by rewrite Hto.
Qed.

Lemma evolving_make_archive base_name root_dir :
  P (MadeArchive (abspath os base_name ++ ".tar.gz") (abspath os root_dir)) ->
  evolving P (make_archive os base_name root_dir).
Proof.
  intros He st r st'. unfold make_archive.
  destruct (lookup_path os (fs st) root_dir) as [[|c]|];
    try (intros [= <- <-]; apply evolves_refl).
  destruct (fs st !! (abspath os base_name ++ ".tar.gz")) as [[|c]|] eqn:Hto;
    [intros [= <- <-]; apply evolves_refl|..];
    (destruct (make_missing _ _) as [files|] eqn:Hmk;
     intros [= <- <-]; [|apply evolves_refl]);
    (apply evolves_record; [|done]);
    intros p Hp; pose proof (make_missing_dirs_kept _ _ _ Hmk p Hp) as Hp';
    (destruct (decide (abspath os base_name ++ ".tar.gz" = p)) as [<-|Hne];
     [congruence|by rewrite lookup_insert_ne]).
Qed.

Lemma evolving_driver_call f e :
  (forall files files', f files = inr files' -> dirs_kept files files') ->
  P e -> evolving P (driver_call f e).
Proof.
  intros Hf He st r st'. unfold driver_call.
  destruct (f (fs st)) as [err|files] eqn:Hcall; intros [= <- <-];
    [apply evolves_refl|].
  apply evolves_record; [by apply Hf|done].
Qed.

Hypothesis mkdirs : forall path, P (Mkdir path).

Lemma evolving_mkdtemp_loop tries prefix dir :
  evolving P (mkdtemp_loop os tries prefix dir).
Proof.
  induction tries as [|tries IH]; intros st r st'; simpl.
  - intros [= <- <-]. apply evolves_refl.
  - set (file := posixpath.join dir (prefix ++ pretty (temp_count st))).
    destruct (searchable os (fs st) file);
      [|intros [= <- <-]; apply evolves_refl].
    destruct (fs st !! abspath os file) as [n|] eqn:Hfile.
    + intros H. apply IH in H. exact H.
    + destruct (fs st !! posixpath.dirname (abspath os file)) as [[|c]|];
        intros [= <- <-]; try apply evolves_refl.
      split; [apply dirs_kept_insert; by rewrite Hfile|].
      exists [Mkdir (abspath os file)]. split; [done|]. by constructor.
Qed.

Lemma evolving_mkdtemp prefix dir : evolving P (mkdtemp os prefix dir).
Proof. apply evolving_mkdtemp_loop. Qed.

Lemma evolving_makedirs path : evolving P (makedirs os path).
Proof.
  intros st r st'. unfold makedirs.
  destruct (String.eqb path ""); [intros [= <- <-]; apply evolves_refl|].
  destruct (make_missing _ (fs st)) as [files|] eqn:Hmk;
    [|intros [= <- <-]; apply evolves_refl].
  destruct (files !! abspath os path) eqn:Hfree;
    intros [= <- <-]; [apply evolves_refl|].
  apply evolves_record; [|done].
  eapply dirs_kept_trans; [by eapply make_missing_dirs_kept|].
  by apply dirs_kept_insert.
Qed.
End Evolving.

Lemma keeping_quiet {A : Type} src (m : io A) : quiet src m -> keeping m.
Proof. intros Hm st r st' H. by destruct (Hm _ _ _ H). Qed.

Lemma keeping_bind {A B : Type} (m : io A) (f : A -> io B) :
  keeping m -> (forall x, keeping (f x)) -> keeping (m ≫= f).
Proof.
  intros Hm Hf st r st' H. apply bind_cases in H.
  destruct H as [(e & -> & H)|(x & st1 & H1 & H2)]; [by eapply Hm|].
  eapply files_kept_trans; [by eapply Hm|by eapply Hf].
Qed.

Lemma strings_of_dict_del d k s :
  In s (strings_of (VDict (dict_del d k))) -> In s (strings_of (VDict d)).
Proof.
  induction d as [|[k' v] d IH]; simpl; [done|].
  destruct (String.eqb k' k); simpl; rewrite !in_app_iff; intuition.
Qed.

Lemma strings_of_set_aside keys : forall parameters acc s,
  In s (strings_of (VDict (fst (set_aside keys parameters acc)))) ->
  In s (strings_of (VDict parameters)).
Proof.
  induction keys as [|[key restore_key] keys IH]; intros parameters acc s;
    simpl; [done|].
  destruct (dict_get parameters key); [|apply IH].
  intros H. apply IH in H. by eapply strings_of_dict_del.
Qed.

Section Archiving.
Variable os : OS.
Variables temp_workspace data_dir : string.
Variable named : string -> Prop.
Hypothesis drivers_keep_dirs : keeps_dirs (gis os).

Local Abbreviation P := (stages_only os named).

Lemma stages_only_mkdir path : P (Mkdir path).
Proof. done. Qed.

Lemma evolving_unless_NotAVector (m : io string) :
  evolving P m -> evolving P (unless_NotAVector m).
Proof.
  intros Hm st r st'. unfold unless_NotAVector.
  destruct (m st) as [[e|x] st1] eqn:H; [destruct e|];
    intros [= <- <-]; by eapply Hm.
Qed.

Lemma evolving_get_multi_part_gdal filepath :
  named filepath -> evolving P (get_multi_part_gdal os data_dir filepath).
Proof.
  intros Hnamed. unfold get_multi_part_gdal.
  apply evolving_bind; [apply evolving_probe|]. intros [|];
    [|apply evolving_stop].
  apply evolving_bind; [by apply evolving_mkdtemp|]. intros new_path.
  apply evolving_bind; [|intros _; apply evolving_ret].
  apply evolving_driver_call; [|done].
  intros files files' H. eapply drivers_keep_dirs. by left.
Qed.

Lemma evolving_get_multi_part_ogr filepath :
  named filepath -> evolving P (get_multi_part_ogr os data_dir filepath).
Proof.
  intros Hnamed. unfold get_multi_part_ogr.
  apply evolving_bind; [apply evolving_probe|]. intros [driver_name|];
    [|apply evolving_stop].
  apply evolving_bind; [by apply evolving_mkdtemp|]. intros new_path.
  apply evolving_bind; [|intros _; apply evolving_ret].
  apply evolving_driver_call; [|done].
  intros files files' H. eapply drivers_keep_dirs. by right.
Qed.

Lemma evolving_stage parameter :
  named parameter -> evolving P (stage os temp_workspace data_dir parameter).
Proof.
  intros Hnamed. unfold stage. apply evolving_bind.
  { unfold get_multi_part.
    apply evolving_bind; [apply evolving_probe|]. intros [|].
    { by apply evolving_fmap, evolving_get_multi_part_gdal. }
    apply evolving_bind; [apply evolving_probe|]. intros [driver_name|];
      [|apply evolving_ret].
    destruct (negb _); [|apply evolving_ret].
    by apply evolving_unless_NotAVector, evolving_get_multi_part_ogr. }
  intros [folder|]; [apply evolving_ret|].
  apply evolving_bind; [apply evolving_probe|]. intros [|].
  { apply evolving_bind; [|intros _; apply evolving_ret].
    apply evolving_copyfile. simpl. eauto. }
  apply evolving_bind; [apply evolving_probe|]. intros [|];
    [|apply evolving_ret].
  apply evolving_bind.
  { unfold make_random_dir.
    apply evolving_bind; [apply evolving_ret|]. intros _.
    apply evolving_ret. }
  intros new_foldername.
  apply evolving_bind; [|intros _; apply evolving_ret].
  apply evolving_copytree. simpl. eauto.
Qed.

Lemma get_if_file_evolves parameter c r c' :
  named parameter ->
  get_if_file os temp_workspace data_dir parameter c = (r, c') ->
  evolves P (outside c) (outside c').
Proof.
  intros Hnamed. unfold get_if_file.
  destruct (files_found c !! abspath os parameter);
    [intros [= <- <-]; apply evolves_refl|].
  destruct (stage os temp_workspace data_dir parameter (outside c))
    as [r0 st'] eqn:Hstage.
  apply (evolving_stage _ Hnamed) in Hstage.
  destruct r0 as [[]|[return_path|]]; by intros [= <- <-].
Qed.

Hypothesis drivers_keep_files : keeps_files (gis os).

Lemma get_if_file_keeps_files parameter c r c' :
  get_if_file os temp_workspace data_dir parameter c = (r, c') ->
  files_kept (fs (outside c)) (fs (outside c')).
Proof.
  unfold get_if_file.
  destruct (files_found c !! abspath os parameter);
    [intros [= <- <-]; apply files_kept_refl|].
  destruct (stage os temp_workspace data_dir parameter (outside c))
    as [r0 st'] eqn:Hstage.
  apply (stage_keeps_files os temp_workspace data_dir "" drivers_keep_files)
    in Hstage.
  destruct r0 as [[]|[return_path|]]; by intros [= <- <-].
Qed.
End Archiving.

Section WholeCall.
Variable os : OS.
Variable parameters : list (string * value).
Variable archive_uri : string.
Hypothesis drivers_keep_dirs : keeps_dirs (gis os).

Local Abbreviation named := (fun s => In s (strings_of (VDict parameters))).
Local Abbreviation P := (stages_only os named).

(** What [collect_parameters] does once it has its temporary workspace. *)
Local Abbreviation archive_from temp_workspace :=
  (makedirs os (posixpath.join temp_workspace "data");;
   new_args ←
     with_files_found ∅
       (format_dictionary
          (get_if_file os temp_workspace (posixpath.join temp_workspace "data"))
          (fst (set_aside reserved_keys parameters [])));
   write_file os (posixpath.join temp_workspace "parameters.json")
     (Json (VDict (restore (snd (set_aside reserved_keys parameters []))
                           new_args)));;
   make_archive os (strip_tar_gz archive_uri) temp_workspace;;
   mret tt).

Lemma archive_from_evolving temp_workspace :
  evolving P (archive_from temp_workspace).
Proof.
  apply evolving_bind; [by apply evolving_makedirs|]. intros _.
  apply evolving_bind.
  { intros st r st'. unfold with_files_found.
    destruct (format_dictionary _ _ _) as [r0 c'] eqn:Hwalk.
    intros [= <- <-].
    apply (format_dictionary_steps
             (get_if_file os temp_workspace
                (posixpath.join temp_workspace "data"))
             named
             (fun c c' => evolves P (outside c) (outside c'))) in Hwalk;
      [done| | | |].
    - intros c. apply evolves_refl.
    - intros a b c. apply evolves_trans.
    - intros s c r1 c1 Hs. by apply get_if_file_evolves.
    - intros s. apply strings_of_set_aside. }
  intros new_args.
  apply evolving_bind; [by apply evolving_write_file|]. intros _.
  apply evolving_bind; [by apply evolving_make_archive|]. intros _.
  apply evolving_ret.
Qed.

Lemma collect_parameters_evolving :
  evolving P (collect_parameters os parameters archive_uri).
Proof.
  rewrite collect_parameters_unfold.
  apply evolving_bind; [by apply evolving_mkdtemp|]. intros temp_workspace.
  apply archive_from_evolving.
Qed.

Hypothesis drivers_keep_files : keeps_files (gis os).

Lemma collect_parameters_keeping :
  keeping (collect_parameters os parameters archive_uri).
Proof.
  rewrite collect_parameters_unfold.
  apply keeping_bind; [apply (keeping_quiet ""), quiet_mkdtemp|].
  intros temp_workspace.
  apply keeping_bind; [apply (keeping_quiet ""), quiet_makedirs|]. intros _.
  apply keeping_bind.
  { intros st r st'. unfold with_files_found.
    destruct (format_dictionary _ _ _) as [r0 c'] eqn:Hwalk.
    intros [= <- <-].
    apply (format_dictionary_steps
             (get_if_file os temp_workspace
                (posixpath.join temp_workspace "data"))
             (fun _ => True)
             (fun c c' => files_kept (fs (outside c)) (fs (outside c'))))
      in Hwalk; [done| | | |done].
    - intros c. apply files_kept_refl.
    - intros a b c. apply files_kept_trans.
    - intros s c r1 c1 _. by apply get_if_file_keeps_files. }
  intros new_args.
  apply keeping_bind; [apply (keeping_quiet ""), quiet_write_file|]. intros _.
  apply keeping_bind; [apply (keeping_quiet ""), quiet_make_archive|].
  intros _. intros st r st' [= <- <-]. apply files_kept_refl.
Qed.
End WholeCall.

(** X20.  However an archiving call ends, what it has copied or handed
    to a GIS driver is named by a string of its parameters: every file and
    every directory copied, every dataset copied through GDAL or OGR.
    (The drivers are taken to leave directories in place.) *)
Theorem only_named_data_is_staged os parameters archive_uri st r st' :
  keeps_dirs (gis os) ->
  collect_parameters os parameters archive_uri st = (r, st') ->
  exists added,
    log st' = (log st ++ added)%list
    /\ Forall (stages_only os (fun s => In s (strings_of (VDict parameters))))
              added.
Proof.
  intros Hdirs Hrun.
  by destruct (collect_parameters_evolving os parameters archive_uri Hdirs
                 _ _ _ Hrun) as [_ H].
Qed.

(** X21.  An archiving call removes nothing, however it ends: what was a
    regular file is one afterwards and what was a directory is one
    afterwards (the GIS drivers being taken to do no less), and this
    includes the temporary workspace of the call, which is still there
    when the call returns or raises. *)
Theorem nothing_is_removed os parameters archive_uri st r st' :
  keeps_files (gis os) ->
  keeps_dirs (gis os) ->
  collect_parameters os parameters archive_uri st = (r, st') ->
  files_kept (fs st) (fs st')
  /\ dirs_kept (fs st) (fs st')
  /\ forall temp_workspace st1,
       mkdtemp os "scenario_" None st = (inr temp_workspace, st1) ->
       isdir os (fs st') temp_workspace = true.
Proof.
  intros Hfiles Hdirs Hrun.
  split; [by eapply collect_parameters_keeping|].
  split; [by destruct (collect_parameters_evolving os parameters archive_uri
                         Hdirs _ _ _ Hrun)|].
  intros temp_workspace st1 Htemp.
  rewrite collect_parameters_unfold in Hrun.
  apply bind_cases in Hrun as [(e & _ & H)|(x & st1' & H1 & H2)];
    [congruence|].
  rewrite Htemp in H1. injection H1 as <- <-.
  apply (archive_from_evolving os parameters archive_uri Hdirs) in H2
    as [Hkept _].
  pose proof (mkdtemp_made _ _ _ _ _ _ Htemp) as Hmade.
  by eapply isdir_kept.
Qed.

Lemma only_named_data_is_staged_witness :
  exists added,
    log archived_disk = (log disk ++ added)%list
    /\ Forall (stages_only plain_os
                 (fun s => In s (strings_of
                                   (VDict twice_referenced_parameters))))
              added.
Proof.
  apply (only_named_data_is_staged plain_os twice_referenced_parameters
           "/out/scenario.tar.gz" disk (inr tt) archived_disk).
  - intros files files' filepath new_path [H|H]; discriminate.
  - vm_compute. reflexivity.
Defined.

Lemma nothing_is_removed_witness :
  isdir plain_os (fs archived_disk) "/tmp/scenario_0" = true.
Proof.
  apply (proj2 (proj2
    (nothing_is_removed plain_os twice_referenced_parameters
       "/out/scenario.tar.gz" disk (inr tt) archived_disk
       ltac:(intros files files' filepath new_path [H|H]; discriminate)
       ltac:(intros files files' filepath new_path [H|H]; discriminate)
       ltac:(vm_compute; reflexivity)))
    "/tmp/scenario_0"
    (snd (mkdtemp plain_os "scenario_" None disk))).
  vm_compute. reflexivity.
Defined.

(** ** Two references to one file *)

Section Dedup.
Variable os : OS.
Variables temp_workspace data_dir : string.
Variable files : gmap string node.
Variable src : string.
Variable copies_before : nat.
Hypothesis drivers_keep_files : keeps_files (gis os).
Hypothesis drivers_keep_dirs : keeps_dirs (gis os).
Hypothesis src_plain : not_a_dataset os src.

Local Abbreviation staged_at_most_once :=
  (stages_at_most_once files src copies_before).
Local Abbreviation found_sooner := (finds_sooner src).
Local Abbreviation replaced_by_found := (replaces_by_found os files src).

(** Staging a string that names the regular file [src], which is no
    dataset: the file is copied once and the basename returned, or the copy
    fails with [IOError] or [shutil.Error] and nothing has changed. *)
Lemma stage_src parameter st r st' :
  abspath os parameter = src ->
  isfile os (fs st) parameter = true ->
  stage os temp_workspace data_dir parameter st = (r, st') ->
  (r = inr (Some (posixpath.basename parameter))
   /\ copies_of src (log st') = S (copies_of src (log st)))
  \/ (st' = st /\ (r = inl IOError \/ r = inl ShutilError)).
Proof.
  intros Hsrc Hisfile. unfold stage.
  rewrite (bind_returned _ _ st None st)
    by (apply get_multi_part_plain; by rewrite Hsrc).
  rewrite (bind_returned _ _ st true st) by (unfold probe; by rewrite Hisfile).
  intros H. apply bind_cases in H.
  destruct H as [(e & -> & H)|([] & st1 & H1 & [= <- <-])].
  - destruct (copyfile_of_src os src _ _ _ _ _ Hsrc H) as [_ [[[=] _]|[-> He]]].
    right. destruct He as [[= ->]|[= ->]]; auto.
  - destruct (copyfile_of_src os src _ _ _ _ _ Hsrc H1)
      as [_ [[_ Hc]|[_ [[=]|[=]]]]].
    left. auto.
Qed.

(** A string with the [abspath] of [src] that the system does not resolve
    to it names nothing: it is neither copied nor recorded. *)
Lemma stage_unresolved parameter st content :
  abspath os parameter = src ->
  fs st !! src = Some (File content) ->
  isfile os (fs st) parameter = false ->
  stage os temp_workspace data_dir parameter st = (inr None, st).
Proof.
  intros Hsrc Hfile Hisfile. unfold stage.
  rewrite (bind_returned _ _ st None st)
    by (apply get_multi_part_plain; by rewrite Hsrc).
  rewrite (bind_returned _ _ st false st)
    by (unfold probe; by rewrite Hisfile).
  assert (Hisdir : isdir os (fs st) parameter = false).
  { destruct (isdir os (fs st) parameter) eqn:Hdir; [|done].
    apply isdir_spec in Hdir as [_ Hdir]. congruence. }
  by rewrite (bind_returned _ _ st false st)
    by (unfold probe; by rewrite Hisdir).
Qed.

Lemma staged_at_most_once_elsewhere c found st' :
  staged_at_most_once c ->
  undisturbed src (outside c) st' ->
  dirs_kept (fs (outside c)) (fs st') ->
  found !! src = files_found c !! src ->
  staged_at_most_once {| files_found := found; outside := st' |}.
Proof.
  intros (Hdirs & [content Hfile] & Hcount) [Hkept Hcopies] Hdirs' Hfound.
  split; [|split]; simpl.
  - by eapply dirs_kept_trans.
  - apply (Hkept _ _ Hfile).
  - rewrite Hfound, Hcopies. exact Hcount.
Qed.

(** What the walk started with as a name of [src] is one still. *)
Lemma still_names_src c s :
  staged_at_most_once c ->
  abspath os s = src ->
  isfile os files s = true ->
  isfile os (fs (outside c)) s = true.
Proof.
  intros (Hdirs & Hfile & _) Hs (Hsearch & Hsep & _)%isfile_spec.
  apply isfile_spec. rewrite Hs.
  split; [by eapply searchable_kept|done].
Qed.

Lemma get_if_file_stages_dirs_kept s c r c' :
  get_if_file os temp_workspace data_dir s c = (r, c') ->
  dirs_kept (fs (outside c)) (fs (outside c')).
Proof.
  intros H.
  by destruct (get_if_file_evolves os temp_workspace data_dir (fun _ => True)
                 drivers_keep_dirs s c r c' I H).
Qed.

Lemma get_if_file_returns s c r c' :
  staged_at_most_once c ->
  get_if_file os temp_workspace data_dir s c = (inr r, c') ->
  staged_at_most_once c' /\ found_sooner c c' /\ replaced_by_found c' s r.
Proof.
  intros Hinv Hrun.
  pose proof (get_if_file_stages_dirs_kept _ _ _ _ Hrun) as Hdirs'.
  revert Hrun Hdirs'. unfold get_if_file.
  destruct (files_found c !! abspath os s) as [uri|] eqn:Hfound.
  { intros [= <- <-] _. split; [exact Hinv|split; [by intros r0|]].
    intros Hs _. by rewrite <- Hs. }
  destruct (stage os temp_workspace data_dir s (outside c)) as [res st'] eqn:Hst.
  destruct (decide (abspath os s = src)) as [Hs|Hs].
  - destruct (isfile os (fs (outside c)) s) eqn:Hisfile.
    + destruct Hinv as (Hdirs & [content Hfile] & Hcount).
      pose proof (stage_keeps_files os _ _ src drivers_keep_files _ _ _ _ Hst)
        as Hkept.
      destruct (stage_src _ _ _ _ Hs Hisfile Hst)
        as [[-> Hcopies]|[-> [-> | ->]]]; try discriminate.
      intros [= <- <-] Hdirs'. simpl in Hdirs'. rewrite Hs in *.
      destruct Hcount as [[_ Hn]|(r0 & Hr0 & _)]; [|congruence].
      split; [split; [|split]|split]; simpl.
      * by eapply dirs_kept_trans.
      * apply (Hkept _ _ Hfile).
      * right. exists (posixpath.basename s).
        rewrite lookup_insert_eq, basename_relative. repeat split. congruence.
      * intros r0 Hr0. congruence.
      * intros _ _. simpl. apply lookup_insert_eq.
    + pose proof Hinv as (_ & [content Hfile] & _).
      rewrite (stage_unresolved _ _ _ Hs Hfile Hisfile) in Hst.
      injection Hst as <- <-. intros [= <- <-] _.
      split; [by destruct c|split; [by intros r0|]].
      intros _ Hnamed.
      pose proof (still_names_src _ _ Hinv Hs Hnamed). congruence.
  - pose proof (quiet_stage os _ _ src drivers_keep_files s Hs _ _ _ Hst)
      as Hquiet.
    assert (Hsame : forall found,
               found !! src = files_found c !! src ->
               dirs_kept (fs (outside c)) (fs st') ->
               staged_at_most_once {| files_found := found; outside := st' |}
               /\ found_sooner c {| files_found := found; outside := st' |}
               /\ replaced_by_found
                    {| files_found := found; outside := st' |} s r).
    { intros found Hf Hdirs'. split; [|split].
      - by eapply staged_at_most_once_elsewhere.
      - intros r0. simpl. by rewrite Hf.
      - intros Hs'. by destruct Hs. }
    destruct res as [e|[return_path|]].
    + destruct e; try discriminate. intros [= <- <-]. by apply Hsame.
    + intros [= <- <-]. apply Hsame. by rewrite lookup_insert_ne.
    + intros [= <- <-]. by apply Hsame.
Qed.

Lemma get_if_file_KeyError s c c' :
  staged_at_most_once c ->
  get_if_file os temp_workspace data_dir s c = (inl KeyError, c') ->
  staged_at_most_once c' /\ found_sooner c c' /\ replaced_by_found c' s s.
Proof.
  intros Hinv Hrun.
  pose proof (get_if_file_stages_dirs_kept _ _ _ _ Hrun) as Hdirs'.
  revert Hrun Hdirs'. unfold get_if_file.
  destruct (files_found c !! abspath os s) as [uri|] eqn:Hfound; [done|].
  destruct (stage os temp_workspace data_dir s (outside c)) as [res st'] eqn:Hst.
  destruct (decide (abspath os s = src)) as [Hs|Hs].
  - pose proof Hinv as (_ & [content Hfile] & _).
    destruct (isfile os (fs (outside c)) s) eqn:Hisfile.
    + destruct (stage_src _ _ _ _ Hs Hisfile Hst)
        as [[-> Hcopies]|[-> [-> | ->]]]; discriminate.
    + rewrite (stage_unresolved _ _ _ Hs Hfile Hisfile) in Hst.
      by injection Hst as <- <-.
  - pose proof (quiet_stage os _ _ src drivers_keep_files s Hs _ _ _ Hst)
      as Hquiet.
    destruct res as [e|[return_path|]]; try discriminate.
    destruct e; try discriminate. intros [= <-] Hdirs'.
    split; [|split].
    + by eapply staged_at_most_once_elsewhere.
    + by intros r0.
    + intros Hs'. by destruct Hs.
Qed.

(** The walk of a well-formed mapping keeps the invariant, and every string
    that names [src] is replaced by the entry of [src] in [files_found]. *)
Lemma walk_stages_at_most_once input_dict c new_args c' :
  well_formed (VDict input_dict) = true ->
  staged_at_most_once c ->
  format_dictionary (get_if_file os temp_workspace data_dir) input_dict c
  = (inr new_args, c') ->
  staged_at_most_once c'
  /\ rewritten (replaced_by_found c') (VDict input_dict) (VDict new_args).
Proof.
  intros Hwf Hinv Hrun.
  destruct (format_dictionary_walked
              (get_if_file os temp_workspace data_dir)
              staged_at_most_once found_sooner replaced_by_found)
    with (input_dict := input_dict) (c := c) (new_args := new_args) (c' := c')
    as (H1 & _ & H2); auto.
  - by intros c0 r.
  - intros c1 c2 c3 H12 H23 r Hr. auto.
  - intros c1 c2 s r Hle Hr Hs Hnamed. auto.
  - apply get_if_file_returns.
  - apply get_if_file_KeyError.
Qed.

End Dedup.

(** One successful call: both places hold the same relative path in the
    parameters document, and the file has been copied exactly once. *)
Lemma one_call_stages_once
    os parameters archive_uri st st' k1 place1 k2 place2 s1 s2 p :
  keeps_files (gis os) ->
  keeps_dirs (gis os) ->
  not_a_dataset os p ->
  well_formed (VDict parameters) = true ->
  reserved k1 = false ->
  reserved k2 = false ->
  get_at (VDict parameters) (Key k1 :: place1) = Some (VStr s1) ->
  get_at (VDict parameters) (Key k2 :: place2) = Some (VStr s2) ->
  abspath os s1 = p ->
  abspath os s2 = p ->
  isfile os (fs st) s1 = true ->
  isfile os (fs st) s2 = true ->
  collect_parameters os parameters archive_uri st = (inr tt, st') ->
  exists new_args r,
    parameters_document (log st') = Some new_args
    /\ get_at (VDict new_args) (Key k1 :: place1) = Some (VStr r)
    /\ get_at (VDict new_args) (Key k2 :: place2) = Some (VStr r)
    /\ posixpath.isabs r = false
    /\ copies_of p (log st') = S (copies_of p (log st)).
Proof.
  intros Hgis Hgis' Hplain Hwf Hk1 Hk2 Hat1 Hat2 Hs1 Hs2 Hfile1 Hfile2 Hrun.
  pose proof Hfile1 as (_ & _ & content & Hfile)%isfile_spec.
  rewrite Hs1 in Hfile.
  destruct (collect_parameters_steps _ _ _ _ _ Hrun)
    as (temp_workspace & st1 & st2 & walked_args & c3 & st4
        & Htmp & Hdata & Hwalk & Hwrite & archive & Harchive).
  destruct (set_aside reserved_keys parameters []) as [stripped ignored] eqn:Hs.
  simpl in Hwalk, Hwrite.
  destruct (set_aside_reserved _ _ _ Hs)
    as (Hother & Hkeys & Hvalues & _ & Hrestored & _ & _).
  simpl in Hwf. apply andb_true_iff in Hwf as [Hdistinct Hwfv].
  destruct (Hkeys Hdistinct) as [Hdistinct' _].
  (* up to the walk *)
  pose proof (evolving_mkdtemp os (fun _ => True) (fun _ => I) _ _ _ _ _ Htmp)
    as [Hdirs1 _].
  pose proof (evolving_makedirs os (fun _ => True) (fun _ => I) _ _ _ _ Hdata)
    as [Hdirs2 _].
  apply (quiet_mkdtemp os p) in Htmp. apply (quiet_makedirs os p) in Hdata.
  pose proof (undisturbed_trans _ _ _ _ Htmp Hdata) as [Hkept2 Hcopies2].
  destruct (Hkept2 _ _ Hfile) as [content2 Hfile2'].
  (* the walk *)
  destruct (walk_stages_at_most_once os temp_workspace
              (posixpath.join temp_workspace "data") (fs st) p
              (copies_of p (log st)) Hgis Hgis' Hplain stripped
              {| files_found := ∅; outside := st2 |} walked_args c3)
    as [(_ & [content3 Hfile3] & Hcount) Hrew]; auto.
  { simpl. by rewrite Hdistinct', (Hvalues well_formed Hwfv). }
  { split; [|split]; simpl; [by eapply dirs_kept_trans|eauto|].
    left. by rewrite lookup_empty. }
  assert (Hat : forall k place s,
             reserved k = false ->
             get_at (VDict parameters) (Key k :: place) = Some (VStr s) ->
             abspath os s = p ->
             isfile os (fs st) s = true ->
             exists r, get_at (VDict (restore ignored walked_args))
                              (Key k :: place) = Some (VStr r)
                       /\ files_found c3 !! p = Some r).
  { intros k place s Hk Hget Hs' Hnamed.
    assert (Hget' : get_at (VDict stripped) (Key k :: place) = Some (VStr s)).
    { simpl. rewrite (Hother k Hk). exact Hget. }
    destruct (rewritten_get_at _ _ _ _ _ Hrew Hget') as (r & Hr & Hfound).
    exists r. split; [|by apply Hfound].
    simpl. rewrite (Hrestored _ k Hk). exact Hr. }
  destruct (Hat k1 place1 s1 Hk1 Hat1 Hs1 Hfile1) as (r1 & Hr1 & Hfound1).
  destruct (Hat k2 place2 s2 Hk2 Hat2 Hs2 Hfile2) as (r2 & Hr2 & Hfound2).
  assert (r2 = r1) as -> by congruence.
  destruct Hcount as [[Hnone _]|(r & Hfound & Hrel & Hcopies3)];
    [congruence|].
  assert (r = r1) as -> by congruence.
  (* the document and the archive *)
  pose proof (quiet_write_file os p _ _ _ _ _ Hwrite) as [Hkept4 Hcopies4].
  pose proof (quiet_make_archive os p _ _ _ _ _ Harchive) as [Hkept5 Hcopies5].
  exists (restore ignored walked_args), r1.
  apply write_file_log in Hwrite as [[_ Hlog4]|[_ [e [=]]]].
  split; [|repeat split; auto; congruence].
  apply make_archive_log in Harchive as [-> | ->].
  - by rewrite parameters_document_snoc, Hlog4, parameters_document_snoc.
  - by rewrite Hlog4, parameters_document_snoc.
Qed.


